(** * Parking dashboard: location resolution and update orchestration

    A shallow embedding of [static/js/dashboard.js]: the location
    database, [parseLocationInput], [updateUserLocation], the GPS
    callback of [useCurrentLocation], [findNearestLocation], the
    interval timer behind [startRealTimeUpdates]/[stopRealTimeUpdates],
    the fan-out of [refreshData], [simulateParking] and the colours of
    the statistics and of the chart.

    Conventions of the embedding.
    - A JavaScript string is a [string] whose characters are read as
      code units U+0000..U+00FF (Latin-1); [toLowerCase], [trim] and the
      regular-expression classes [\s] and [\d] are written out for that
      range.
    - A JavaScript number that is finite is the rational of [Q] it
      denotes.  Where a property depends on the rounding of doubles,
      the arithmetic is that of [Binary64]: [parseFloat] rounds the
      literal it reads, and the distance of [findNearestLocation]
      rounds each of its operations and can overflow.  The affine map
      of the GPS conversion is written with the exact operations of
      [Q]: on a fix within half a degree of the reference point each of
      its operations is exact in doubles, and elsewhere the clamp
      returns the bound whatever the rounding.  The scaling of a random
      draw is written with the exact product; it is used through its
      bounds only, which hold of the rounded product as well.
    - An object property that is absent is [None].
    - [Math.random] reads from an explicit source of draws threaded
      through the computation. *)

From Stdlib Require Import Bool Arith List String Ascii ZArith QArith Lia Lqa.
From Stdlib Require Import Reals Qreals Lra Permutation Qround Qabs Qpower.
Import ListNotations.

Close Scope Q_scope.
Close Scope R_scope.
Open Scope nat_scope.

(* ================================================================== *)
(** * Definitions *)
(* ================================================================== *)

(** ** Numbers

    The finite values of IEEE 754 binary64 are rationals; [round] sends
    a rational to the nearest of them, ties to the even mantissa, with
    the subnormal range and the overflow to an infinity.  The
    arithmetic of the script that the properties below depend on bit
    for bit is written with these operations. *)

Module Binary64.

Inductive Number :=
| Finite (value : Q)
| PlusInfinity
| MinusInfinity
| NaN.

Definition pow2 (e : Z) : Q := (2 ^ e)%Q.

(** The integer part of the binary logarithm of a positive rational. *)
Definition ilog2 (q : Q) : Z :=
  let e := (Z.log2 (Qnum q) - Z.log2 (QDen q))%Z in
  if Qle_bool (pow2 e) q then e else (e - 1)%Z.

(** The nearest integer, the even one of two that are equally near. *)
Definition roundHalfEven (x : Q) : Z :=
  let f := Qfloor x in
  match (x - inject_Z f ?= 1 # 2)%Q with
  | Lt => f
  | Gt => (f + 1)%Z
  | Eq => if Z.even f then f else (f + 1)%Z
  end.

(** A positive rational rounded to 53 significant bits, and to a
    multiple of 2^-1074 below 2^-1022. *)
Definition roundPositive (q : Q) : Q :=
  let e := Z.max (ilog2 q - 52) (-1074) in
  (inject_Z (roundHalfEven (q / pow2 e)) * pow2 e)%Q.

Definition roundReduced (q : Q) : Number :=
  match (q ?= 0)%Q with
  | Eq => Finite 0
  | Gt => let r := roundPositive q in
          if Qle_bool (pow2 1024) r then PlusInfinity else Finite (Qred r)
  | Lt => let r := roundPositive (- q) in
          if Qle_bool (pow2 1024) r then MinusInfinity else Finite (Qred (- r))
  end.

(** The Number value of a rational. *)
Definition round (q : Q) : Number := roundReduced (Qred q).

(** The correctly rounded square root of a rational that is not
    negative. *)
Definition sqrtRounded (q : Q) : Q :=
  match (q ?= 0)%Q with
  | Gt =>
      let e := (ilog2 q / 2 - 52)%Z in
      let x := (q / pow2 (2 * e))%Q in
      let m0 := Z.sqrt (Qfloor x) in
      let half := (inject_Z m0 + (1 # 2))%Q in
      let m := match (x ?= half * half)%Q with
               | Lt => m0
               | Gt => (m0 + 1)%Z
               | Eq => if Z.even m0 then m0 else (m0 + 1)%Z
               end in
      Qred (inject_Z m * pow2 e)
  | _ => 0%Q
  end.

Definition neg (x : Number) : Number :=
  match x with
  | Finite a => Finite (- a)
  | PlusInfinity => MinusInfinity
  | MinusInfinity => PlusInfinity
  | NaN => NaN
  end.

(** [x + y]. *)
Definition add (x y : Number) : Number :=
  match x, y with
  | NaN, _ | _, NaN => NaN
  | Finite a, Finite b => round (a + b)
  | PlusInfinity, MinusInfinity | MinusInfinity, PlusInfinity => NaN
  | PlusInfinity, _ | _, PlusInfinity => PlusInfinity
  | MinusInfinity, _ | _, MinusInfinity => MinusInfinity
  end.

(** [x - y]. *)
Definition sub (x y : Number) : Number := add x (neg y).

(** [x ** 2].  The language leaves the precision of [**] to the
    implementation; the square is taken here as the correctly rounded
    product. *)
Definition square (x : Number) : Number :=
  match x with
  | Finite a => round (a * a)
  | PlusInfinity | MinusInfinity => PlusInfinity
  | NaN => NaN
  end.

(** [Math.sqrt(x)]. *)
Definition sqrt (x : Number) : Number :=
  match x with
  | Finite a => if Qle_bool 0 a then Finite (sqrtRounded a) else NaN
  | PlusInfinity => PlusInfinity
  | MinusInfinity | NaN => NaN
  end.

(** [x < y]. *)
Definition ltb (x y : Number) : bool :=
  match x, y with
  | NaN, _ | _, NaN => false
  | Finite a, Finite b => negb (Qle_bool b a)
  | Finite _, PlusInfinity => true
  | Finite _, MinusInfinity => false
  | PlusInfinity, _ => false
  | MinusInfinity, MinusInfinity => false
  | MinusInfinity, _ => true
  end.

(** The values a distance can take: a number that is not negative, or
    the positive infinity. *)
Definition isDistance (x : Number) : Prop :=
  match x with
  | Finite a => (0 <= a)%Q
  | PlusInfinity => True
  | MinusInfinity | NaN => False
  end.

End Binary64.

(** ** JavaScript string primitives *)

Module JSString.

Open Scope string_scope.

Definition codeUnit (c : ascii) : nat := nat_of_ascii c.

(** WhiteSpace and LineTerminator code units below U+0100: TAB, LF, VT,
    FF, CR, SPACE and NBSP.  [String.prototype.trim] and the class [\s]
    use the same set. *)
Definition isWhiteSpace (c : ascii) : bool :=
  match codeUnit c with
  | 9 | 10 | 11 | 12 | 13 | 32 | 160 => true
  | _ => false
  end.

(** The class [\d]. *)
Definition isDigit (c : ascii) : bool :=
  (48 <=? codeUnit c)%nat && (codeUnit c <=? 57)%nat.

(** Lower-case mapping of one code unit: A-Z, and U+00C0..U+00DE
    without the multiplication sign U+00D7. *)
Definition toLowerUnit (c : ascii) : ascii :=
  let n := codeUnit c in
  if ((65 <=? n)%nat && (n <=? 90)%nat)
     || ((192 <=? n)%nat && (n <=? 222)%nat && negb (n =? 215)%nat)
  then ascii_of_nat (n + 32)
  else c.

Fixpoint toLowerCase (s : string) : string :=
  match s with
  | EmptyString => EmptyString
  | String c r => String (toLowerUnit c) (toLowerCase r)
  end.

Fixpoint trimStart (s : string) : string :=
  match s with
  | EmptyString => EmptyString
  | String c r => if isWhiteSpace c then trimStart r else s
  end.

Fixpoint trimEnd (s : string) : string :=
  match s with
  | EmptyString => EmptyString
  | String c r =>
      match trimEnd r with
      | EmptyString => if isWhiteSpace c then EmptyString else String c EmptyString
      | r' => String c r'
      end
  end.

Definition trim (s : string) : string := trimEnd (trimStart s).

(** [s.includes(t)]: [t] occurs in [s] as a contiguous substring. *)
Fixpoint includes (s t : string) : bool :=
  if prefix t s then true
  else match s with
       | EmptyString => false
       | String _ r => includes r t
       end.

(** Tests on whole strings, used to state what the functions do. *)
Fixpoint allWhiteSpace (s : string) : bool :=
  match s with
  | EmptyString => true
  | String c r => isWhiteSpace c && allWhiteSpace r
  end.

Fixpoint allDigits (s : string) : bool :=
  match s with
  | EmptyString => true
  | String c r => isDigit c && allDigits r
  end.

Fixpoint noWhiteSpace (s : string) : bool :=
  match s with
  | EmptyString => true
  | String c r => negb (isWhiteSpace c) && noWhiteSpace r
  end.

Fixpoint noDigits (s : string) : bool :=
  match s with
  | EmptyString => true
  | String c r => negb (isDigit c) && noDigits r
  end.

Fixpoint occurs (c : ascii) (s : string) : bool :=
  match s with
  | EmptyString => false
  | String d r => Ascii.eqb c d || occurs c r
  end.

End JSString.

Import JSString.

(** ** The coordinate pattern

    The regular expression of [parseLocationInput] is: a number, a
    comma, any white space, a number, with both numbers captured, where
    a number is one or more digits, an optional dot, then any digits. *)

Module CoordPattern.

Open Scope string_scope.

(** Greedy digits: the longest run of digits at the head, and the rest. *)
Fixpoint spanDigits (s : string) : string * string :=
  match s with
  | EmptyString => (EmptyString, EmptyString)
  | String c r =>
      if isDigit c
      then let (d, rest) := spanDigits r in (String c d, rest)
      else (EmptyString, s)
  end.

(** Greedy white space. *)
Fixpoint skipWhiteSpace (s : string) : string :=
  match s with
  | EmptyString => EmptyString
  | String c r => if isWhiteSpace c then skipWhiteSpace r else s
  end.

(** A number of the pattern, greedy, at the head of [s]: the captured
    text and the rest.  Each quantifier takes all it can; giving
    characters back never helps the pattern, because what follows a
    number in it (the comma, or the end of the pattern) is neither a
    digit nor a dot. *)
Definition matchNumber (s : string) : option (string * string) :=
  let (i, rest) := spanDigits s in
  match i, rest with
  | EmptyString, _ => None
  | _, String c r =>
      if Ascii.eqb c "."
      then let (f, rest') := spanDigits r in Some (i ++ "." ++ f, rest')
      else Some (i, rest)
  | _, EmptyString => Some (i, rest)
  end.

(** The whole pattern anchored at the head of [s]: the two captures. *)
Definition matchAt (s : string) : option (string * string) :=
  match matchNumber s with
  | Some (g1, String c r) =>
      if Ascii.eqb c ","
      then match matchNumber (skipWhiteSpace r) with
           | Some (g2, _) => Some (g1, g2)
           | None => None
           end
      else None
  | _ => None
  end.

(** [text.match(pattern)]: the leftmost position where the pattern
    matches; [None] is JavaScript's [null]. *)
Fixpoint coordMatch (s : string) : option (string * string) :=
  match matchAt s with
  | Some m => Some m
  | None =>
      match s with
      | EmptyString => None
      | String _ r => coordMatch r
      end
  end.

Definition digitValue (c : ascii) : Z := (Z.of_nat (codeUnit c) - 48)%Z.

Fixpoint digitsValue (acc : Z) (ds : string) : Z :=
  match ds with
  | EmptyString => acc
  | String c r => digitsValue (10 * acc + digitValue c)%Z r
  end.

(** The mathematical value of the unsigned decimal literal [digits] or
    [digits.digits] (the dot may end the literal) that [s] starts with,
    which is all a capture of the pattern can be.  [None] stands for
    every other text: signs, leading blanks, a leading dot and exponents
    are not modelled. *)
Definition literalValue (s : string) : option Q :=
  let (i, rest) := spanDigits s in
  match i, rest with
  | EmptyString, _ => None
  | _, String c r =>
      if Ascii.eqb c "."
      then let f := fst (spanDigits r) in
           Some (Qmake (digitsValue 0 (i ++ f))
                       (Z.to_pos (10 ^ Z.of_nat (String.length f))))
      else Some (inject_Z (digitsValue 0 i))
  | _, EmptyString => Some (inject_Z (digitsValue 0 i))
  end.

(** [parseFloat(s)]: the Number value of the literal, which is its
    value rounded to the nearest double, as the engines compute it (the
    language also lets an implementation read the digits after the
    twentieth significant one as zeros).  [None] stands for the two
    results that are no finite number: [NaN], on a text that starts with
    no literal, and [Infinity], on a literal beyond the range of
    doubles.  Neither passes the bounds test of the parser. *)
Definition parseFloat (s : string) : option Q :=
  match literalValue s with
  | Some q =>
      match Binary64.round q with
      | Binary64.Finite r => Some r
      | _ => None
      end
  | None => None
  end.

(** The specification's decimal number: what a numeral [digits] or
    [digits.digits] denotes, each digit weighted by its place. *)
Definition decimalDigit (c : ascii) : Z :=
  match c with
  | "0"%char => 0 | "1"%char => 1 | "2"%char => 2 | "3"%char => 3
  | "4"%char => 4 | "5"%char => 5 | "6"%char => 6 | "7"%char => 7
  | "8"%char => 8 | "9"%char => 9
  | _ => 0
  end%Z.

Fixpoint integerPart (ds : string) : Z :=
  match ds with
  | EmptyString => 0
  | String c r =>
      decimalDigit c * 10 ^ Z.of_nat (String.length r) + integerPart r
  end%Z.

Fixpoint fractionPart (ds : string) : Q :=
  match ds with
  | EmptyString => 0
  | String c r => (inject_Z (decimalDigit c) + fractionPart r) / 10
  end%Q.

Fixpoint beforeDot (g : string) : string :=
  match g with
  | EmptyString => EmptyString
  | String c r => if Ascii.eqb c "." then EmptyString else String c (beforeDot r)
  end.

Fixpoint afterDot (g : string) : string :=
  match g with
  | EmptyString => EmptyString
  | String c r => if Ascii.eqb c "." then r else afterDot r
  end.

Definition decimalNumber (g : string) : Q :=
  (inject_Z (integerPart (beforeDot g)) + fractionPart (afterDot g))%Q.

(** The texts a number of the pattern can capture: digits, or digits, a
    dot and digits. *)
Inductive Capture : string -> Prop :=
| CaptureInt (i : string) :
    i <> "" -> allDigits i = true -> Capture i
| CaptureDot (i f : string) :
    i <> "" -> allDigits i = true -> allDigits f = true ->
    Capture (i ++ "." ++ f).

(** What may follow a number without being taken into it. *)
Definition headNotDigit (s : string) : Prop :=
  match s with
  | "" => True
  | String c _ => isDigit c = false
  end.

Definition headEndsNumber (s : string) : Prop :=
  match s with
  | "" => True
  | String c _ => isDigit c = false /\ c <> "."%char
  end.

End CoordPattern.

Import CoordPattern.

(** ** The location database *)

Module Gazetteer.

Open Scope string_scope.

(** A value of [locationDatabase]: [{ lat, lng, type }]. *)
Record LocationData := mkLocationData {
  lat : Q;
  lng : Q;
  type : string
}.

(** The object literal [locationDatabase], as its own properties in
    insertion order.  No key is an array index, so this is also the order
    in which [Object.entries] lists them. *)
Definition locationDatabase : list (string * LocationData) :=
  [ (* Exact parking lot names *)
    ("downtown plaza", mkLocationData 3.0 3.0 "business");
    ("shopping mall", mkLocationData 8.0 7.0 "shopping");
    ("train station", mkLocationData 12.0 2.0 "transit");
    ("office complex", mkLocationData 6.0 11.0 "business");
    ("city park", mkLocationData 15.0 8.0 "leisure");
    (* Alternative names and landmarks *)
    ("downtown", mkLocationData 3.0 3.0 "business");
    ("mall", mkLocationData 8.0 7.0 "shopping");
    ("station", mkLocationData 12.0 2.0 "transit");
    ("office", mkLocationData 6.0 11.0 "business");
    ("park", mkLocationData 15.0 8.0 "leisure");
    (* City areas and districts *)
    ("city center", mkLocationData 10.0 5.0 "business");
    ("main street", mkLocationData 5.0 5.0 "business");
    ("business district", mkLocationData 4.0 4.0 "business");
    ("shopping district", mkLocationData 7.0 6.0 "shopping");
    ("university area", mkLocationData 9.0 9.0 "education");
    ("hospital district", mkLocationData 11.0 12.0 "healthcare");
    ("residential area", mkLocationData 2.0 13.0 "residential");
    (* Generic locations *)
    ("central", mkLocationData 10.0 7.5 "business");
    ("north", mkLocationData 10.0 12.0 "residential");
    ("south", mkLocationData 10.0 3.0 "business");
    ("east", mkLocationData 15.0 7.5 "mixed");
    ("west", mkLocationData 5.0 7.5 "mixed") ].

Definition Object_entries (o : list (string * LocationData))
  : list (string * LocationData) := o.

Definition keys (o : list (string * LocationData)) : list string :=
  map fst o.

(** Own property of the object under key [k]. *)
Fixpoint ownProperty (o : list (string * LocationData)) (k : string)
  : option LocationData :=
  match o with
  | [] => None
  | (k', d) :: rest => if String.eqb k k' then Some d else ownProperty rest k
  end.

(** The properties every object literal inherits from
    [Object.prototype]; each holds a function or an object. *)
Definition objectPrototypeProperties : list string :=
  [ "constructor"; "__defineGetter__"; "__defineSetter__";
    "hasOwnProperty"; "__lookupGetter__"; "__lookupSetter__";
    "isPrototypeOf"; "propertyIsEnumerable"; "toString"; "valueOf";
    "__proto__"; "toLocaleString" ].

(** What [o[k]] evaluates to. *)
Inductive PropertyValue :=
| Own (d : LocationData)
| Inherited
| Undefined.

Definition getProperty (o : list (string * LocationData)) (k : string)
  : PropertyValue :=
  match ownProperty o k with
  | Some d => Own d
  | None =>
      if existsb (String.eqb k) objectPrototypeProperties
      then Inherited else Undefined
  end.

(** Truthiness of [o[k]]: objects and functions are truthy, [undefined]
    is not. *)
Definition truthy (v : PropertyValue) : bool :=
  match v with
  | Own _ | Inherited => true
  | Undefined => false
  end.

End Gazetteer.

Import Gazetteer.

(** ** The location parser *)

Module LocationParser.

Open Scope string_scope.

Inductive Confidence := exact | partial | coordinates | estimated.

(** The object [parseLocationInput] returns.  A field is [None] when the
    object has no such property. *)
Record ResolvedLocation := mkResolved {
  res_lat : option Q;
  res_lng : option Q;
  res_type : option string;
  res_name : string;
  res_confidence : Confidence;
  res_match : option string
}.

(** The successive results of [Math.random()], and how many were drawn. *)
Definition RandomSource := nat -> Q.

Definition Math_random (random : RandomSource) (drawn : nat) : Q * nat :=
  (random drawn, S drawn).

(** [{ ...v, name: n, confidence: 'exact' }]: the spread copies the own
    enumerable properties of [v]; a function or [Object.prototype] has
    none. *)
Definition spreadExact (v : PropertyValue) (n : string) : ResolvedLocation :=
  match v with
  | Own d => mkResolved (Some (lat d)) (Some (lng d)) (Some (type d)) n exact None
  | _ => mkResolved None None None n exact None
  end.

(** The test of the partial scan: [key.includes(normalizedText) ||
    normalizedText.includes(key)]. *)
Definition qualifies (key normalizedText : string) : bool :=
  includes key normalizedText || includes normalizedText key.

(** The loop that fills [partialMatches]. *)
Fixpoint partialMatches (entries : list (string * LocationData))
  (normalizedText : string) : list ResolvedLocation :=
  match entries with
  | [] => []
  | (key, data) :: rest =>
      if qualifies key normalizedText
      then mkResolved (Some (lat data)) (Some (lng data)) (Some (type data))
                      key partial (Some key)
           :: partialMatches rest normalizedText
      else partialMatches rest normalizedText
  end.

(** [lat >= 0 && lat <= 20 && lng >= 0 && lng <= 15]. *)
Definition inBounds (la lo : Q) : bool :=
  Qle_bool 0 la && Qle_bool la 20 && Qle_bool 0 lo && Qle_bool lo 15.

(** [parseLocationInput(locationText)] on a string argument; [None] is
    the [null] it returns for an empty input.  The second component is
    the number of random draws made so far.  A result of [parseFloat]
    that is no finite number, [NaN] or [Infinity], fails the bounds
    test. *)
Definition parseLocationInput (random : RandomSource) (locationText : string)
  (drawn : nat) : option ResolvedLocation * nat :=
  if String.eqb locationText "" || String.eqb (trim locationText) ""
  then (None, drawn)
  else
    let normalizedText := trim (toLowerCase locationText) in
    if truthy (getProperty locationDatabase normalizedText)
    then (Some (spreadExact (getProperty locationDatabase normalizedText)
                            (trim locationText)), drawn)
    else
      match partialMatches (Object_entries locationDatabase) normalizedText with
      | m :: _ => (Some m, drawn)
      | [] =>
          let fallback :=
            let (r1, drawn1) := Math_random random drawn in
            let randomLat := (r1 * 20)%Q in
            let (r2, drawn2) := Math_random random drawn1 in
            let randomLng := (r2 * 15)%Q in
            (Some (mkResolved (Some randomLat) (Some randomLng)
                              (Some "unknown") (trim locationText)
                              estimated None), drawn2) in
          match coordMatch locationText with
          | Some (g1, g2) =>
              match parseFloat g1, parseFloat g2 with
              | Some la, Some lo =>
                  if inBounds la lo
                  then (Some (mkResolved (Some la) (Some lo) (Some "custom")
                                         (trim locationText) coordinates None),
                        drawn)
                  else fallback
              | _, _ => fallback
              end
          | None => fallback
          end
      end.

(** Whether a result of the parser is the estimated fallback. *)
Definition isEstimated (r : option ResolvedLocation) : bool :=
  match r with
  | Some p => match res_confidence p with estimated => true | _ => false end
  | None => false
  end.

End LocationParser.

Import LocationParser.

(** ** The session state the location handlers work on *)

Module LocationHandlers.

Open Scope string_scope.

(** The global [userLocation]: [{ lat, lng, name }]. *)
Record UserLocation := mkUserLocation {
  user_lat : option Q;
  user_lng : option Q;
  user_name : string
}.

Inductive Message :=
| PleaseEnterLocation
| LocationNotFound
| LocationUpdated
| FoundSimilar (matched : option string)
| EstimatedLocation (name : string)
| GpsDetected (name : string).

Inductive Notification :=
| Success (m : Message)
| Error (m : Message).

(** Text and colour of the [location-status] element. *)
Inductive StatusIcon := IconNone | IconExact | IconPartial | IconCoordinates
                      | IconEstimated | IconGps.

Record Status := mkStatus {
  status_icon : StatusIcon;
  status_name : string;
  status_color : string
}.

(** The fetch-and-render units a handler starts without awaiting them. *)
Inductive Started :=
| StartedRecommendations (la lo : option Q)
| StartedMap.

Record Session := mkSession {
  userLocation : UserLocation;
  inputValue : string;              (* value of the user-location input *)
  locationStatus : option Status;
  notifications : list Notification; (* latest first *)
  started : list Started;            (* latest first *)
  randomDrawn : nat
}.

(** The initial [userLocation] of the script. *)
Definition defaultLocation : UserLocation :=
  mkUserLocation (Some 3.0%Q) (Some 3.0%Q) "Downtown Plaza".

Definition showError (m : Message) (s : Session) : Session :=
  mkSession (userLocation s) (inputValue s) (locationStatus s)
            (Error m :: notifications s) (started s) (randomDrawn s).

Definition showSuccess (m : Message) (s : Session) : Session :=
  mkSession (userLocation s) (inputValue s) (locationStatus s)
            (Success m :: notifications s) (started s) (randomDrawn s).

(** [updateRecommendations(); updateMap();] as started units; the
    recommendations request reads the current [userLocation]. *)
Definition startDependentUnits (s : Session) : Session :=
  mkSession (userLocation s) (inputValue s) (locationStatus s)
            (notifications s)
            (StartedMap
             :: StartedRecommendations (user_lat (userLocation s))
                                       (user_lng (userLocation s))
             :: started s)
            (randomDrawn s).

Definition confidenceIcon (c : Confidence) : StatusIcon :=
  match c with
  | exact => IconExact
  | partial => IconPartial
  | coordinates => IconCoordinates
  | estimated => IconEstimated
  end.

Definition statusColor (c : Confidence) : string :=
  match c with
  | partial => "#ffc107"
  | estimated => "#17a2b8"
  | _ => "#28a745"
  end.

Definition successMessage (p : ResolvedLocation) : Message :=
  match res_confidence p with
  | partial => FoundSimilar (res_match p)
  | estimated => EstimatedLocation (res_name p)
  | _ => LocationUpdated
  end.

(** [updateUserLocation()]. *)
Definition updateUserLocation (random : RandomSource) (s : Session) : Session :=
  let locationText := trim (inputValue s) in
  if String.eqb locationText ""
  then showError PleaseEnterLocation s
  else
    match parseLocationInput random locationText (randomDrawn s) with
    | (None, _) => showError LocationNotFound s
    | (Some parsedLocation, drawn) =>
        let s1 :=
          mkSession
            (mkUserLocation (res_lat parsedLocation) (res_lng parsedLocation)
                            (res_name parsedLocation))
            (inputValue s)
            (Some (mkStatus (confidenceIcon (res_confidence parsedLocation))
                            (res_name parsedLocation)
                            (statusColor (res_confidence parsedLocation))))
            (notifications s) (started s) drawn in
        startDependentUnits (showSuccess (successMessage parsedLocation) s1)
    end.

End LocationHandlers.

Import LocationHandlers.

(** ** The geo mapper *)

Module GeoMapper.

Open Scope string_scope.

Definition Math_max (a b : Q) : Q := if Qle_bool a b then b else a.
Definition Math_min (a b : Q) : Q := if Qle_bool a b then a else b.

(** The conversion in the success callback of [useCurrentLocation]:
    [cityLat], [cityLng], then the clamping to the city bounds. *)
Definition toLocalSpace (lat lng : Q) : Q * Q :=
  let cityLat := (((lat - 40.0) * 20) + 10)%Q in
  let cityLng := (((lng + 74.0) * 15) + 7.5)%Q in
  let clampedLat := Math_max 0 (Math_min 20 cityLat) in
  let clampedLng := Math_max 0 (Math_min 15 cityLng) in
  (clampedLat, clampedLng).

(** [Math.sqrt((data.lat - lat) ** 2 + (data.lng - lng) ** 2)], each
    operation in the arithmetic of doubles. *)
Definition distanceTo (data : LocationData) (la lo : Q) : Binary64.Number :=
  Binary64.sqrt
    (Binary64.add
       (Binary64.square
          (Binary64.sub (Binary64.Finite (Gazetteer.lat data))
                        (Binary64.Finite la)))
       (Binary64.square
          (Binary64.sub (Binary64.Finite (Gazetteer.lng data))
                        (Binary64.Finite lo)))).

(** The object [findNearestLocation] returns; the synthetic entry has no
    [type]. *)
Record NearestLocation := mkNearest {
  near_name : string;
  near_lat : Q;
  near_lng : Q;
  near_type : option string
}.

(** The object [{ name: name, ...data }]. *)
Definition entryOf (name : string) (data : LocationData) : NearestLocation :=
  mkNearest name (Gazetteer.lat data) (Gazetteer.lng data) (Some (type data)).

(** The [for] loop of [findNearestLocation] over the remaining entries. *)
Fixpoint nearestLoop (entries : list (string * LocationData)) (la lo : Q)
  (nearestLocation : option NearestLocation) (minDistance : Binary64.Number)
  : option NearestLocation :=
  match entries with
  | [] => nearestLocation
  | (name, data) :: rest =>
      let distance := distanceTo data la lo in
      if Binary64.ltb distance minDistance
      then nearestLoop rest la lo (Some (entryOf name data)) distance
      else nearestLoop rest la lo nearestLocation minDistance
  end.

(** [findNearestLocation(lat, lng)] on two finite numbers, with the
    database it scans as a parameter; the script scans
    [locationDatabase]. *)
Definition findNearestLocation (database : list (string * LocationData))
  (la lo : Q) : NearestLocation :=
  match nearestLoop (Object_entries database) la lo None
                    Binary64.PlusInfinity with
  | Some nearestLocation => nearestLocation
  | None => mkNearest "Custom Location" la lo None
  end.

(** The success callback of [getCurrentPosition]. *)
Definition onPosition (latitude longitude : Q) (s : Session) : Session :=
  let (clampedLat, clampedLng) := toLocalSpace latitude longitude in
  let nearestLocation := findNearestLocation locationDatabase clampedLat clampedLng in
  let s1 :=
    mkSession (mkUserLocation (Some clampedLat) (Some clampedLng)
                              (near_name nearestLocation))
              (near_name nearestLocation)
              (Some (mkStatus IconGps (near_name nearestLocation) "#28a745"))
              (notifications s) (started s) (randomDrawn s) in
  startDependentUnits (showSuccess (GpsDetected (near_name nearestLocation)) s1).

(** The specification's [clamp(v, lo, hi)]. *)
Definition clamp (v lo hi : Q) : Q :=
  if negb (Qle_bool lo v) then lo
  else if negb (Qle_bool v hi) then hi
  else v.

(** The specification's Euclidean distance between a database entry and
    a point, as a real number, and its square, which is rational. *)
Definition euclideanDistance (data : LocationData) (la lo : Q) : R :=
  sqrt ((Q2R (Gazetteer.lat data) - Q2R la) ^ 2
        + (Q2R (Gazetteer.lng data) - Q2R lo) ^ 2)%R.

Definition squaredDistance (data : LocationData) (la lo : Q) : Q :=
  ((Gazetteer.lat data - la) ^ 2 + (Gazetteer.lng data - lo) ^ 2)%Q.

End GeoMapper.

Import GeoMapper.

(** ** The update timer *)

Module UpdateTimer.

(** The host's interval timers and the script's [updateInterval]
    variable.  [setInterval] hands out fresh positive handles; [None] is
    [null]. *)
Record Timers := mkTimers {
  updateInterval : option nat;
  nextHandle : nat;
  activeIntervals : list nat;   (* handles of the armed repeating timers *)
  refreshCalls : nat            (* direct calls of refreshData *)
}.

Definition initialTimers : Timers := mkTimers None 1 [] 0.

Definition setInterval (t : Timers) : nat * Timers :=
  (nextHandle t,
   mkTimers (updateInterval t) (S (nextHandle t))
            (nextHandle t :: activeIntervals t) (refreshCalls t)).

Definition clearInterval (h : nat) (t : Timers) : Timers :=
  mkTimers (updateInterval t) (nextHandle t)
           (filter (fun h' => negb (h' =? h)%nat) (activeIntervals t))
           (refreshCalls t).

(** [startRealTimeUpdates()]. *)
Definition startRealTimeUpdates (t : Timers) : Timers :=
  let (h, t1) := setInterval t in
  mkTimers (Some h) (nextHandle t1) (activeIntervals t1) (refreshCalls t1).

(** [stopRealTimeUpdates()]; a handle is truthy when it is not zero. *)
Definition stopRealTimeUpdates (t : Timers) : Timers :=
  match updateInterval t with
  | Some h =>
      if negb (h =? 0)%nat
      then let t1 := clearInterval h t in
           mkTimers None (nextHandle t1) (activeIntervals t1) (refreshCalls t1)
      else t
  | None => t
  end.

Definition refreshDataCalled (t : Timers) : Timers :=
  mkTimers (updateInterval t) (nextHandle t) (activeIntervals t)
           (S (refreshCalls t)).

(** The page events the script listens to. *)
Inductive PageEvent :=
| DOMContentLoaded
| VisibilityChange (hidden : bool)
| BeforeUnload.

Definition handle (e : PageEvent) (t : Timers) : Timers :=
  match e with
  | DOMContentLoaded => refreshDataCalled (startRealTimeUpdates t)
  | VisibilityChange true => stopRealTimeUpdates t
  | VisibilityChange false => refreshDataCalled (startRealTimeUpdates t)
  | BeforeUnload => stopRealTimeUpdates t
  end.

Definition run (events : list PageEvent) (t : Timers) : Timers :=
  fold_left (fun acc e => handle e acc) events t.

(** The calls the spec names [start()] and [stop()]. *)
Inductive Call := start | stop.

Definition call (c : Call) (t : Timers) : Timers :=
  match c with
  | start => startRealTimeUpdates t
  | stop => stopRealTimeUpdates t
  end.

Definition calls (cs : list Call) (t : Timers) : Timers :=
  fold_left (fun acc c => call c acc) cs t.

End UpdateTimer.

(** ** The refresh fan-out *)

Module Refresh.

Open Scope string_scope.

(** A parsed response body: the application-level [error] field, and
    whether the unit's rendering code runs through on it ([false]: it
    throws a [TypeError] on a missing or ill-shaped field). *)
Record Json := mkJson {
  json_error : option string;
  renders : bool;
  content : nat
}.

(** A response: [response.ok], and the body if it parses as JSON. *)
Record Response := mkResponse {
  ok : bool;
  body : option Json
}.

Inductive FetchResult :=
| NetworkError
| Responded (r : Response).

Inductive Url :=
| ApiSystemStats
| ApiParkingStatus
| ApiRecommendations (la lo : option Q)
| ApiJunctionStatus
| ApiPredictions
| ApiMapData.

Definition Network := Url -> FetchResult.

Inductive Exn :=
| FetchFailed
| JsonSyntaxError
| RenderTypeError
| ApplicationError (message : string).

(** What a section of the page shows. *)
Inductive View :=
| Loading                 (* the markup the page starts with *)
| Cleared                 (* innerHTML set to the empty string *)
| Rendered (data : Json)
| ErrorShown (text : string).

Inductive Section := SystemStats | ParkingLots | Recommendations
                   | Junctions | Predictions | Map.

Record Page := mkPage {
  view : Section -> View;
  lastUpdated : option nat;
  alerts : list string;          (* showError notifications, latest first *)
  consoleErrors : list (string * Exn);
  userLat : option Q;
  userLng : option Q
}.

Definition Section_eqb (a b : Section) : bool :=
  match a, b with
  | SystemStats, SystemStats | ParkingLots, ParkingLots
  | Recommendations, Recommendations | Junctions, Junctions
  | Predictions, Predictions | Map, Map => true
  | _, _ => false
  end.

(** How a statement completes: normally, or by throwing. *)
Inductive Completion (A : Type) :=
| Normal (a : A)
| Throw (e : Exn).

Arguments Normal {A} a.
Arguments Throw {A} e.

Definition Eff (A : Type) := Page -> Page * Completion A.

Definition ret {A} (a : A) : Eff A := fun p => (p, Normal a).

Definition throw {A} (e : Exn) : Eff A := fun p => (p, Throw e).

Definition bind {A B} (m : Eff A) (k : A -> Eff B) : Eff B :=
  fun p =>
    match m p with
    | (p1, Normal a) => k a p1
    | (p1, Throw e) => (p1, Throw e)
    end.

(** [try { body } catch (error) { handler }]. *)
Definition try_catch {A} (body : Eff A) (handler : Exn -> Eff A) : Eff A :=
  fun p =>
    match body p with
    | (p1, Normal a) => (p1, Normal a)
    | (p1, Throw e) => handler e p1
    end.

Notation "x <- m ;; k" := (bind m (fun x => k))
  (at level 61, m at next level, right associativity).
Notation "m ;;; k" := (bind m (fun _ => k))
  (at level 61, right associativity).

Definition setView (s : Section) (v : View) : Eff unit :=
  fun p =>
    (mkPage (fun s' => if Section_eqb s' s then v else view p s')
            (lastUpdated p) (alerts p) (consoleErrors p) (userLat p) (userLng p),
     Normal tt).

Definition console_error (label : string) (e : Exn) : Eff unit :=
  fun p =>
    (mkPage (view p) (lastUpdated p) (alerts p)
            ((label, e) :: consoleErrors p) (userLat p) (userLng p),
     Normal tt).

(** [showError(message)]. *)
Definition showErrorAlert (message : string) : Eff unit :=
  fun p =>
    (mkPage (view p) (lastUpdated p) (message :: alerts p)
            (consoleErrors p) (userLat p) (userLng p),
     Normal tt).

Definition setLastUpdated (now : nat) : Eff unit :=
  fun p =>
    (mkPage (view p) (Some now) (alerts p) (consoleErrors p)
            (userLat p) (userLng p),
     Normal tt).

Definition readUserLocation : Eff (option Q * option Q) :=
  fun p => (p, Normal (userLat p, userLng p)).

(** [await fetch(url)]. *)
Definition fetch (network : Network) (url : Url) : Eff Response :=
  match network url with
  | NetworkError => throw FetchFailed
  | Responded r => ret r
  end.

(** [await response.json()]. *)
Definition json (r : Response) : Eff Json :=
  match body r with
  | None => throw JsonSyntaxError
  | Some data => ret data
  end.

(** [throw new Error(data.error || fallback)]; the empty string is
    falsy. *)
Definition errorOf (data : Json) (fallback : string) : Exn :=
  match json_error data with
  | Some m => if String.eqb m "" then ApplicationError fallback
              else ApplicationError m
  | None => ApplicationError fallback
  end.

(** Rendering code that writes a section in place (the statistics
    fields, the chart). *)
Definition renderInPlace (s : Section) (data : Json) : Eff unit :=
  if renders data then setView s (Rendered data) else throw RenderTypeError.

(** Rendering code that empties its container, then appends cards. *)
Definition renderCards (s : Section) (data : Json) : Eff unit :=
  setView s Cleared ;;;
  if renders data then setView s (Rendered data) else throw RenderTypeError.

Definition updateSystemStats (network : Network) : Eff unit :=
  try_catch
    (response <- fetch network ApiSystemStats ;;
     data <- json response ;;
     if ok response then renderInPlace SystemStats data
     else throw (errorOf data "Failed to fetch system stats"))
    (fun error => console_error "Error updating system stats:" error).

Definition updateParkingLots (network : Network) : Eff unit :=
  try_catch
    (response <- fetch network ApiParkingStatus ;;
     data <- json response ;;
     if ok response then renderCards ParkingLots data
     else throw (errorOf data "Failed to fetch parking status"))
    (fun error =>
       console_error "Error updating parking lots:" error ;;;
       setView ParkingLots (ErrorShown "Failed to load parking data")).

Definition updateRecommendations (network : Network) : Eff unit :=
  try_catch
    (loc <- readUserLocation ;;
     response <- fetch network (ApiRecommendations (fst loc) (snd loc)) ;;
     data <- json response ;;
     if ok response then renderCards Recommendations data
     else throw (errorOf data "Failed to fetch recommendations"))
    (fun error =>
       console_error "Error updating recommendations:" error ;;;
       setView Recommendations (ErrorShown "Failed to load recommendations")).

Definition updateJunctions (network : Network) : Eff unit :=
  try_catch
    (response <- fetch network ApiJunctionStatus ;;
     data <- json response ;;
     if ok response then renderCards Junctions data
     else throw (errorOf data "Failed to fetch junction status"))
    (fun error =>
       console_error "Error updating junctions:" error ;;;
       setView Junctions (ErrorShown "Failed to load junction data")).

Definition updatePredictions (network : Network) : Eff unit :=
  try_catch
    (response <- fetch network ApiPredictions ;;
     data <- json response ;;
     if ok response then renderInPlace Predictions data
     else throw (errorOf data "Failed to fetch predictions"))
    (fun error => console_error "Error updating predictions:" error).

(** [renderMap(mapData)].  The markup is built from the data and from
    the global [userLocation], whose [lat] and [lng] are formatted with
    [toFixed] for the marker of the user: the call throws a [TypeError]
    on data of the wrong shape and when one of the two coordinates is
    undefined.  The container is written once the markup is complete. *)
Definition renderMap (mapData : Json) : Eff unit :=
  loc <- readUserLocation ;;
  match renders mapData, fst loc, snd loc with
  | true, Some _, Some _ => setView Map (Rendered mapData)
  | _, _, _ => throw RenderTypeError
  end.

Definition updateMap (network : Network) : Eff unit :=
  try_catch
    (response <- fetch network ApiMapData ;;
     data <- json response ;;
     if ok response then renderMap data
     else throw (errorOf data "Failed to fetch map data"))
    (fun error =>
       console_error "Error updating map:" error ;;;
       setView Map (ErrorShown "Failed to load map")).

(** [await Promise.all(units)]: every unit has been started and runs to
    its end whatever the others do; the await throws when one of them
    rejects.  A unit writes the page in one piece, once its request has
    ended, so a schedule is an order of the units; they are run here in
    the order of the array, and every other order ends in the same
    sections ([refresh_order_irrelevant]). *)
Fixpoint Promise_all (units : list (Eff unit)) : Eff unit :=
  fun p =>
    match units with
    | [] => (p, Normal tt)
    | u :: rest =>
        let (p1, c1) := u p in
        let (p2, c2) := Promise_all rest p1 in
        (p2, match c1 with
             | Throw e => Throw e
             | Normal _ => c2
             end)
    end.

Definition refreshUnits (network : Network) : list (Eff unit) :=
  [ updateSystemStats network; updateParkingLots network;
    updateRecommendations network; updateJunctions network;
    updatePredictions network; updateMap network ].

(** [refreshData()]; [now] is what [new Date()] reads when the
    timestamp is written. *)
Definition refreshData (network : Network) (now : nat) : Eff unit :=
  try_catch
    (Promise_all (refreshUnits network) ;;;
     setLastUpdated now)
    (fun error =>
       console_error "Error refreshing data:" error ;;;
       showErrorAlert "Failed to refresh data. Please check your connection.").

(** The section a unit writes and the address it fetches. *)
Definition urlOf (s : Section) (p : Page) : Url :=
  match s with
  | SystemStats => ApiSystemStats
  | ParkingLots => ApiParkingStatus
  | Recommendations => ApiRecommendations (userLat p) (userLng p)
  | Junctions => ApiJunctionStatus
  | Predictions => ApiPredictions
  | Map => ApiMapData
  end.

(** What the rendering code of a section reads besides the data: the
    map needs both coordinates of the user location. *)
Definition locationDefined (s : Section) (p : Page) : bool :=
  match s, userLat p, userLng p with
  | Map, Some _, Some _ => true
  | Map, _, _ => false
  | _, _, _ => true
  end.

(** A unit succeeds when its fetch answers with [ok] and a body that
    parses and that its rendering code runs through on. *)
Definition succeeds (network : Network) (s : Section) (p : Page)
  : option Json :=
  match network (urlOf s p) with
  | Responded r =>
      match body r with
      | Some data =>
          if ok r && renders data && locationDefined s p
          then Some data else None
      | None => None
      end
  | NetworkError => None
  end.

(** The contract of a unit that writes section [s]: it completes
    normally whatever the network does, touches neither the timestamp,
    the alerts nor the user location, leaves every other section as it
    was, and shows the data when its feed succeeds. *)
Definition contained (network : Network) (u : Eff unit) (s : Section) : Prop :=
  forall p, exists p',
    u p = (p', Normal tt)
    /\ lastUpdated p' = lastUpdated p
    /\ alerts p' = alerts p
    /\ userLat p' = userLat p
    /\ userLng p' = userLng p
    /\ (forall s', s' <> s -> view p' s' = view p s')
    /\ (forall data, succeeds network s p = Some data ->
                     view p' s = Rendered data).

(** What a unit makes of its section depends on the page through that
    section and the user location only. *)
Definition reads_own_section (u : Eff unit) (s : Section) : Prop :=
  forall p q, userLat p = userLat q -> userLng p = userLng q ->
              view p s = view q s ->
              view (fst (u p)) s = view (fst (u q)) s.

(** The units of [refreshData] with the section each one writes. *)
Definition refreshPlan (network : Network) : list (Eff unit * Section) :=
  [ (updateSystemStats network, SystemStats);
    (updateParkingLots network, ParkingLots);
    (updateRecommendations network, Recommendations);
    (updateJunctions network, Junctions);
    (updatePredictions network, Predictions);
    (updateMap network, Map) ].

End Refresh.

(** ** Page events and the timer *)

Module TimerDiscipline.

Import UpdateTimer.

(** The events whose handler calls [startRealTimeUpdates]. *)
Definition starts (e : PageEvent) : bool :=
  match e with
  | DOMContentLoaded | VisibilityChange false => true
  | VisibilityChange true | BeforeUnload => false
  end.

(** Sequences of events in which no handler starts the timer while it
    runs; [running] tells whether it runs before the first event. *)
Fixpoint disciplined (running : bool) (events : list PageEvent) : bool :=
  match events with
  | [] => true
  | e :: rest =>
      if starts e then negb running && disciplined true rest
      else disciplined false rest
  end.

(** What the host keeps true of its handles: they are positive, below
    the next one to hand out, and armed at most once. *)
Definition hostInvariant (t : Timers) : Prop :=
  0 < nextHandle t
  /\ (forall h, In h (activeIntervals t) -> 0 < h < nextHandle t)
  /\ NoDup (activeIntervals t).

(** An armed timer the script holds no handle of. *)
Definition orphaned (h : nat) (t : Timers) : Prop :=
  In h (activeIntervals t) /\ updateInterval t <> Some h.

(** The state the script intends: the armed timers are the one it holds
    a handle of, if any. *)
Definition tidy (t : Timers) : Prop :=
  0 < nextHandle t
  /\ match updateInterval t with
     | Some h => activeIntervals t = [h] /\ 0 < h < nextHandle t
     | None => activeIntervals t = []
     end.

End TimerDiscipline.

(** ** What a refresh leaves on the page *)

Module RefreshOutcome.

Import Refresh.

Open Scope string_scope.

Definition allSections : list Section :=
  [SystemStats; ParkingLots; Recommendations; Junctions; Predictions; Map].

(** What the [catch] block of the unit of section [s] leaves in it:
    four units write an error text, the two others only log.  The
    statistics, the chart and the map are written after everything that
    can throw on the data has been evaluated, so a failure leaves them
    as they were before the [catch] block runs. *)
Definition failureView (s : Section) (previous : View) : View :=
  match s with
  | SystemStats | Predictions => previous
  | ParkingLots => ErrorShown "Failed to load parking data"
  | Recommendations => ErrorShown "Failed to load recommendations"
  | Junctions => ErrorShown "Failed to load junction data"
  | Map => ErrorShown "Failed to load map"
  end.

Definition settledView (network : Network) (p : Page) (s : Section) : View :=
  match succeeds network s p with
  | Some data => Rendered data
  | None => failureView s (view p s)
  end.

Definition fails (network : Network) (p : Page) (s : Section) : bool :=
  match succeeds network s p with
  | Some _ => false
  | None => true
  end.

(** The number of units of [sections] whose feed fails on page [p]. *)
Definition failures (network : Network) (p : Page) (sections : list Section)
  : nat :=
  List.length (filter (fails network p) sections).

(** The full account of a unit that writes section [s]: besides being
    contained, it leaves in its section the data or what its [catch]
    block writes, and logs one console error exactly when its feed
    fails. *)
Definition settles (network : Network) (u : Eff unit) (s : Section) : Prop :=
  forall p, exists p',
    u p = (p', Normal tt)
    /\ lastUpdated p' = lastUpdated p
    /\ alerts p' = alerts p
    /\ userLat p' = userLat p
    /\ userLng p' = userLng p
    /\ (forall s', s' <> s -> view p' s' = view p s')
    /\ view p' s = settledView network p s
    /\ List.length (consoleErrors p')
       = (if fails network p s then 1 else 0) + List.length (consoleErrors p).

End RefreshOutcome.

(** ** Simulated parking *)

Module Parking.

Import Refresh.

Open Scope string_scope.

(** The parsed body of the answer to [POST /api/park-vehicle]: the
    value [null], or any other value, of which the code reads whether
    [success] is truthy and [message] ([None]: undefined, which is what
    a number, a string or an array has for both). *)
Inductive ParkJson :=
| ParkNull
| ParkValue (success : bool) (message : option string).

Record ParkResponse := mkParkResponse {
  park_ok : bool;
  park_body : option ParkJson     (* [None]: the body is not JSON *)
}.

Inductive ParkFetch :=
| ParkNetworkError
| ParkResponded (r : ParkResponse).

(** A notification: [showSuccess] of the message template filled with
    [data.message] (absent: the text "undefined"), or [showError]. *)
Inductive Notice :=
| ParkSuccess (message : option string)
| ParkError (message : string).

Record ParkPage := mkParkPage {
  notices : list Notice;            (* latest first *)
  refreshTimeouts : list nat;       (* delays of setTimeout(refreshData, _) *)
  parkConsole : list Exn
}.

Definition ParkEff (A : Type) := ParkPage -> ParkPage * Completion A.

Definition park_ret {A} (a : A) : ParkEff A := fun p => (p, Normal a).

Definition park_throw {A} (e : Exn) : ParkEff A := fun p => (p, Throw e).

Definition park_bind {A B} (m : ParkEff A) (k : A -> ParkEff B) : ParkEff B :=
  fun p =>
    match m p with
    | (p1, Normal a) => k a p1
    | (p1, Throw e) => (p1, Throw e)
    end.

Definition park_try {A} (body : ParkEff A) (handler : Exn -> ParkEff A)
  : ParkEff A :=
  fun p =>
    match body p with
    | (p1, Normal a) => (p1, Normal a)
    | (p1, Throw e) => handler e p1
    end.

Definition notify (n : Notice) : ParkEff unit :=
  fun p => (mkParkPage (n :: notices p) (refreshTimeouts p) (parkConsole p),
            Normal tt).

Definition setTimeout_refreshData (delay : nat) : ParkEff unit :=
  fun p => (mkParkPage (notices p) (delay :: refreshTimeouts p) (parkConsole p),
            Normal tt).

Definition park_console_error (e : Exn) : ParkEff unit :=
  fun p => (mkParkPage (notices p) (refreshTimeouts p) (e :: parkConsole p),
            Normal tt).

Definition park_fetch (answer : ParkFetch) : ParkEff ParkResponse :=
  match answer with
  | ParkNetworkError => park_throw FetchFailed
  | ParkResponded r => park_ret r
  end.

Definition park_json (r : ParkResponse) : ParkEff ParkJson :=
  match park_body r with
  | None => park_throw JsonSyntaxError
  | Some data => park_ret data
  end.

(** [data.success] and [data.message]: reading a property of [null]
    throws a [TypeError]. *)
Definition park_success (data : ParkJson) : ParkEff bool :=
  match data with
  | ParkNull => park_throw RenderTypeError
  | ParkValue success _ => park_ret success
  end.

Definition park_message (data : ParkJson) : ParkEff (option string) :=
  match data with
  | ParkNull => park_throw RenderTypeError
  | ParkValue _ message => park_ret message
  end.

(** [message || 'Failed to park vehicle']. *)
Definition messageOr (message : option string) (fallback : string) : string :=
  match message with
  | Some m => if String.eqb m "" then fallback else m
  | None => fallback
  end.

(** [simulateParking()], given what the request meets.  In
    [response.ok && data.success] the property is read only when the
    response is [ok]. *)
Definition simulateParking (answer : ParkFetch) : ParkEff unit :=
  park_try
    (park_bind (park_fetch answer) (fun response =>
     park_bind (park_json response) (fun data =>
     park_bind (if park_ok response then park_success data
                else park_ret false) (fun accepted =>
     park_bind
       (park_bind (park_message data) (fun message =>
          if accepted
          then notify (ParkSuccess message)
          else notify (ParkError (messageOr message "Failed to park vehicle"))))
       (fun _ => setTimeout_refreshData 1000)))))
    (fun error =>
       park_bind (park_console_error error)
                 (fun _ => notify (ParkError "Failed to simulate parking"))).

End Parking.

(** ** Classes and colours of the rendered data *)

Module Presentation.

Open Scope string_scope.

(** [a > b] on numbers. *)
Definition greaterThan (a b : Q) : bool := negb (Qle_bool a b).

(** [updateSystemStats]: the available-slots figure and the parking
    alert.  The last branch does not touch the class of the alert, and
    the count inside it is written only when slots are available. *)
Record StatsView := mkStatsView {
  availableColor : string;
  alertClass : string;
  alertDisplay : string;
  availableCount : option Q       (* text of the count, [None]: never set *)
}.

Definition updateAvailability (total_available : Q) (v : StatsView) : StatsView :=
  let v1 :=
    if greaterThan total_available 10
    then mkStatsView "#28a745" "alert alert-success text-center" "block"
                     (availableCount v)
    else if greaterThan total_available 5
    then mkStatsView "#ffc107" "alert alert-warning text-center" "block"
                     (availableCount v)
    else if greaterThan total_available 0
    then mkStatsView "#dc3545" "alert alert-danger text-center" "block"
                     (availableCount v)
    else mkStatsView "#dc3545" (alertClass v) "none" (availableCount v) in
  if greaterThan total_available 0
  then mkStatsView (availableColor v1) (alertClass v1) (alertDisplay v1)
                   (Some total_available)
  else v1.

(** [updatePredictions]: one dataset of the chart. *)
Definition colors : list string :=
  ["#667eea"; "#764ba2"; "#f093fb"; "#f5576c"; "#4facfe"].

Record Dataset := mkDataset {
  label : string;
  data : list Q;
  borderColor : option string;      (* [None]: undefined *)
  backgroundColor : string
}.

(** [predictions]: the current occupancy and the three predicted ones. *)
Definition dataset (lotName : string) (current p1 p2 p3 : Q) (index : nat)
  : Dataset :=
  let color := nth_error colors (index mod List.length colors) in
  mkDataset lotName
            [ ((1 - current) * 100)%Q; ((1 - p1) * 100)%Q;
              ((1 - p2) * 100)%Q; ((1 - p3) * 100)%Q ]
            color
            (match color with
             | Some c => c ++ "20"
             | None => "undefined20"
             end).

(** [Object.entries(data).map((entry, index) => ...)]. *)
Fixpoint datasetsFrom (index : nat)
  (entries : list (string * (Q * (Q * Q * Q)))) : list Dataset :=
  match entries with
  | [] => []
  | (lotName, (current, (p1, p2, p3))) :: rest =>
      dataset lotName current p1 p2 p3 index :: datasetsFrom (S index) rest
  end.

Definition datasets (entries : list (string * (Q * (Q * Q * Q)))) : list Dataset :=
  datasetsFrom 0 entries.

End Presentation.

(* ================================================================== *)
(** * Theorems *)
(* ================================================================== *)

(** ** Facts about the rounding *)

Module Binary64Facts.

Import Binary64.

Lemma pow2_pos (e : Z) : (0 < pow2 e)%Q.
Proof. unfold pow2. apply Qpower_0_lt. reflexivity. Qed.

Lemma round_compat (p q : Q) : (p == q)%Q -> round p = round q.
Proof. intro H. unfold round. now rewrite (Qred_complete p q H). Qed.

Lemma roundHalfEven_nonneg (x : Q) :
  (0 <= x)%Q -> (0 <= roundHalfEven x)%Z.
Proof.
  intro H. unfold roundHalfEven.
  assert (F : (0 <= Qfloor x)%Z).
  { change 0%Z with (Qfloor 0). now apply Qfloor_resp_le. }
  destruct (x - inject_Z (Qfloor x) ?= 1 # 2)%Q; [|assumption|lia].
  destruct (Z.even (Qfloor x)); lia.
Qed.

Lemma roundHalfEven_le_double (x : Q) :
  (0 <= x)%Q -> (inject_Z (roundHalfEven x) <= 2 * x)%Q.
Proof.
  intro H. unfold roundHalfEven.
  assert (F : (0 <= Qfloor x)%Z).
  { change 0%Z with (Qfloor 0). now apply Qfloor_resp_le. }
  assert (F' : (0 <= inject_Z (Qfloor x))%Q).
  { change 0%Q with (inject_Z 0). now rewrite <- Zle_Qle. }
  pose proof (Qfloor_le x) as L.
  assert (U : forall f, (0 <= inject_Z f)%Q -> (inject_Z f + (1 # 2) <= x)%Q ->
                        (inject_Z (f + 1) <= 2 * x)%Q).
  { intros f F0 K. rewrite inject_Z_plus. change (inject_Z 1) with 1%Q.
    Lqa.lra. }
  destruct (x - inject_Z (Qfloor x) ?= 1 # 2)%Q eqn:C.
  - apply Qeq_alt in C.
    destruct (Z.even (Qfloor x)); [Lqa.lra|].
    apply U; [exact F'|]. Lqa.lra.
  - Lqa.lra.
  - apply Qgt_alt in C. apply U; [exact F'|]. Lqa.lra.
Qed.

Lemma roundPositive_bounds (q : Q) :
  (0 < q)%Q -> (0 <= roundPositive q <= 2 * q)%Q.
Proof.
  intro H. unfold roundPositive.
  set (e := Z.max (ilog2 q - 52) (-1074)).
  pose proof (pow2_pos e) as P.
  assert (X : (0 <= q / pow2 e)%Q).
  { apply Qle_shift_div_l; [exact P|]. Lqa.lra. }
  pose proof (roundHalfEven_nonneg _ X) as N.
  pose proof (roundHalfEven_le_double _ X) as D.
  assert (N' : (0 <= inject_Z (roundHalfEven (q / pow2 e)))%Q).
  { change 0%Q with (inject_Z 0). now rewrite <- Zle_Qle. }
  split.
  - apply Qmult_le_0_compat; [exact N' | Lqa.lra].
  - assert (E : (q == q / pow2 e * pow2 e)%Q) by (field; Lqa.lra).
    rewrite E at 2.
    rewrite Qmult_assoc.
    apply Qmult_le_compat_r; [exact D | Lqa.lra].
Qed.

(** Rounding keeps the sign. *)
Lemma round_nonneg (q : Q) :
  (0 <= q)%Q -> isDistance (round q).
Proof.
  intro H. unfold round, roundReduced.
  assert (H' : (0 <= Qred q)%Q) by now rewrite Qred_correct.
  destruct (Qred q ?= 0)%Q eqn:C.
  - cbn [isDistance]. Lqa.lra.
  - apply Qlt_alt in C. Lqa.lra.
  - apply Qgt_alt in C.
    destruct (Qle_bool (pow2 1024) (roundPositive (Qred q)));
      cbn [isDistance]; [exact I|].
    rewrite Qred_correct. now apply roundPositive_bounds.
Qed.

Lemma roundReduced_finite (q : Q) :
  (Qabs q <= pow2 1022)%Q ->
  exists r, roundReduced q = Finite r /\ (Qabs r <= 2 * Qabs q)%Q.
Proof.
  intro H. unfold roundReduced.
  assert (T : (2 * pow2 1022 < pow2 1024)%Q) by (vm_compute; reflexivity).
  destruct (q ?= 0)%Q eqn:C.
  - exists 0%Q. split; [reflexivity|].
    pose proof (Qabs_nonneg q). change (Qabs 0) with 0%Q. Lqa.lra.
  - apply Qlt_alt in C.
    assert (Q0 : (0 < - q)%Q) by Lqa.lra.
    assert (Aq : (Qabs q == - q)%Q) by (apply Qabs_neg; Lqa.lra).
    destruct (roundPositive_bounds _ Q0) as [B1 B2].
    destruct (Qle_bool (pow2 1024) (roundPositive (- q))) eqn:O.
    + apply Qle_bool_iff in O. exfalso. rewrite Aq in H. Lqa.lra.
    + eexists. split; [reflexivity|]. rewrite Qred_correct, Aq.
      rewrite Qabs_neg by Lqa.lra. Lqa.lra.
  - apply Qgt_alt in C.
    assert (Aq : (Qabs q == q)%Q) by (apply Qabs_pos; Lqa.lra).
    destruct (roundPositive_bounds _ C) as [B1 B2].
    destruct (Qle_bool (pow2 1024) (roundPositive q)) eqn:O.
    + apply Qle_bool_iff in O. exfalso. rewrite Aq in H. Lqa.lra.
    + eexists. split; [reflexivity|]. rewrite Qred_correct, Aq.
      rewrite Qabs_pos by exact B1. exact B2.
Qed.

(** No overflow up to 2^1022, and the rounded value is at most twice
    the exact one in absolute value. *)
Lemma round_finite (q : Q) :
  (Qabs q <= pow2 1022)%Q ->
  exists r, round q = Finite r /\ (Qabs r <= 2 * Qabs q)%Q.
Proof.
  intro H. unfold round.
  assert (E : (Qred q == q)%Q) by apply Qred_correct.
  destruct (roundReduced_finite (Qred q)) as (r & R1 & R2).
  - now rewrite E.
  - exists r. split; [exact R1|]. now rewrite E in R2.
Qed.

(** *** Accuracy

    The rounded value of a positive rational is within half a unit in
    the last place of it: within the fraction 2^-53 of it, or within
    2^-1075 in the subnormal range. *)

Lemma pow2_plus (a b : Z) : (pow2 (a + b) == pow2 a * pow2 b)%Q.
Proof. unfold pow2. apply Qpower_plus. discriminate. Qed.

Lemma pow2_inject (k : Z) : (0 <= k)%Z -> (inject_Z (2 ^ k) == pow2 k)%Q.
Proof. intro H. unfold pow2. now rewrite Zpower_Qpower. Qed.

Lemma ilog2_spec (q : Q) : (0 < q)%Q -> (pow2 (ilog2 q) <= q)%Q.
Proof.
  intro H. unfold ilog2. destruct q as [n d]. cbn [Qnum Qden].
  destruct (Qle_bool _ _) eqn:E; [now apply Qle_bool_iff in E|]. clear E.
  assert (Hn : (0 < n)%Z) by (unfold Qlt in H; cbn in H; lia).
  pose proof (Z.log2_nonneg n) as Na.
  pose proof (Z.log2_nonneg (Z.pos d)) as Nb.
  destruct (Z.log2_spec n Hn) as [A1 _].
  destruct (Z.log2_spec (Z.pos d)) as [_ B2]; [lia|].
  revert Na Nb A1 B2.
  generalize (Z.log2 n) as a, (Z.log2 (Z.pos d)) as b.
  intros a b Na Nb A1 B2.
  replace (a - b - 1)%Z with (a + - Z.succ b)%Z by lia.
  rewrite pow2_plus. unfold pow2 at 2. rewrite Qpower_opp.
  fold (pow2 (Z.succ b)). rewrite <- !pow2_inject by lia.
  rewrite (Qmake_Qdiv n d).
  assert (A : (inject_Z (2 ^ a) <= inject_Z n)%Q) by now rewrite <- Zle_Qle.
  assert (B : (inject_Z (Z.pos d) <= inject_Z (2 ^ Z.succ b))%Q)
    by (rewrite <- Zle_Qle; lia).
  assert (PA : (0 < inject_Z (2 ^ a))%Q).
  { change 0%Q with (inject_Z 0). rewrite <- Zlt_Qlt.
    apply Z.pow_pos_nonneg; lia. }
  assert (PD : (0 < inject_Z (Z.pos d))%Q) by reflexivity.
  revert A B PA PD.
  generalize (inject_Z (2 ^ a)) as A, (inject_Z n) as N,
    (inject_Z (Z.pos d)) as D, (inject_Z (2 ^ Z.succ b)) as B.
  intros A N D B HA HB PA PD.
  apply Qle_shift_div_l; [exact PD|].
  change (A * / B * D)%Q with (A / B * D)%Q.
  assert (E : (A / B * D == A * D / B)%Q) by (field; Lqa.lra).
  rewrite E. apply Qle_shift_div_r; [Lqa.lra | Lqa.nra].
Qed.

Lemma roundHalfEven_near (x : Q) :
  (Qabs (inject_Z (roundHalfEven x) - x) <= 1 # 2)%Q.
Proof.
  unfold roundHalfEven.
  pose proof (Qfloor_le x) as L. pose proof (Qlt_floor x) as U.
  rewrite inject_Z_plus in U. change (inject_Z 1) with 1%Q in U.
  apply Qabs_Qle_condition.
  destruct (x - inject_Z (Qfloor x) ?= 1 # 2)%Q eqn:C.
  - apply Qeq_alt in C. destruct (Z.even (Qfloor x));
      [|rewrite inject_Z_plus; change (inject_Z 1) with 1%Q]; Lqa.lra.
  - apply Qlt_alt in C. Lqa.lra.
  - apply Qgt_alt in C. rewrite inject_Z_plus.
    change (inject_Z 1) with 1%Q. Lqa.lra.
Qed.

Lemma roundPositive_error (q : Q) :
  (0 < q)%Q ->
  (Qabs (roundPositive q - q) <= q * pow2 (-53))%Q
  \/ (Qabs (roundPositive q - q) <= pow2 (-1075))%Q.
Proof.
  intro H. unfold roundPositive.
  assert (G : forall e,
             (Qabs (inject_Z (roundHalfEven (q / pow2 e)) * pow2 e - q)
              <= pow2 (e + -1))%Q).
  { intro e. pose proof (pow2_pos e) as P.
    pose proof (roundHalfEven_near (q / pow2 e)) as N.
    assert (E : (inject_Z (roundHalfEven (q / pow2 e)) * pow2 e - q
                 == (inject_Z (roundHalfEven (q / pow2 e)) - q / pow2 e)
                    * pow2 e)%Q) by (field; Lqa.lra).
    rewrite pow2_plus, E, Qabs_Qmult, (Qabs_pos (pow2 e)) by Lqa.lra.
    change (pow2 (-1)) with (1 # 2)%Q.
    rewrite (Qmult_comm (pow2 e)).
    apply Qmult_le_compat_r; [exact N | Lqa.lra]. }
  destruct (Z.max_spec (ilog2 q - 52) (-1074)) as [[_ M] | [_ M]];
    rewrite M.
  - right. exact (G (-1074)%Z).
  - left. eapply Qle_trans; [exact (G (ilog2 q - 52)%Z)|].
    replace (ilog2 q - 52 + -1)%Z with (ilog2 q + -53)%Z by lia.
    rewrite pow2_plus.
    apply Qmult_le_compat_r; [now apply ilog2_spec|].
    apply Qlt_le_weak, pow2_pos.
Qed.

(** The Number value of a positive rational that does not overflow. *)
Lemma round_error (q r : Q) :
  (0 < q)%Q -> round q = Finite r ->
  (Qabs (r - q) <= q * pow2 (-53))%Q \/ (Qabs (r - q) <= pow2 (-1075))%Q.
Proof.
  intros H. unfold round, roundReduced.
  assert (E : (Qred q == q)%Q) by apply Qred_correct.
  assert (H' : (0 < Qred q)%Q) by now rewrite E.
  apply Qgt_alt in H'. rewrite H'. apply Qgt_alt in H'.
  destruct (Qle_bool _ _); [discriminate|]. intros [= <-].
  pose proof (Qred_correct (roundPositive (Qred q))) as R.
  assert (Z : (Qred (roundPositive (Qred q)) - q
               == roundPositive (Qred q) - Qred q)%Q) by Lqa.lra.
  assert (S : (Qred q * pow2 (-53) == q * pow2 (-53))%Q) by now rewrite E.
  destruct (roundPositive_error _ H') as [K|K]; [left | right];
    rewrite Z; [rewrite <- S|]; exact K.
Qed.

Lemma round_near (q r : Q) :
  (0 <= q)%Q -> round q = Finite r ->
  (Qabs (r - q) <= q * pow2 (-53) + pow2 (-1075))%Q.
Proof.
  intros H E.
  pose proof (pow2_pos (-53)) as P1. pose proof (pow2_pos (-1075)) as P2.
  destruct (Qlt_le_dec 0 q) as [L|L].
  - assert (M : (0 <= q * pow2 (-53))%Q)
      by (apply Qmult_le_0_compat; Lqa.lra).
    destruct (round_error q r L E); Lqa.lra.
  - assert (Z : (q == 0)%Q) by Lqa.lra.
    rewrite (round_compat q 0 Z) in E. injection E as <-.
    assert (A : (0 - q == 0)%Q) by Lqa.lra.
    rewrite A, Z. change (Qabs 0) with 0%Q. Lqa.lra.
Qed.

Lemma sqrtRounded_nonneg (q : Q) : (0 <= sqrtRounded q)%Q.
Proof.
  unfold sqrtRounded. destruct (q ?= 0)%Q; try Lqa.lra.
  cbv zeta. rewrite Qred_correct.
  set (e := (ilog2 q / 2 - 52)%Z).
  set (x := (q / pow2 (2 * e))%Q).
  pose proof (Z.sqrt_nonneg (Qfloor x)) as S.
  pose proof (pow2_pos e) as P.
  apply Qmult_le_0_compat; [|Lqa.lra].
  change 0%Q with (inject_Z 0). rewrite <- Zle_Qle.
  destruct (x ?= _)%Q; [|lia|lia].
  destruct (Z.even _); lia.
Qed.

(** *** The order on distances *)

Lemma ltb_trans (x y z : Number) :
  ltb x y = true -> ltb y z = true -> ltb x z = true.
Proof.
  destruct x as [a| | |], y as [b| | |], z as [c| | |]; cbn;
    try discriminate; try reflexivity.
  rewrite !negb_true_iff. intros H1 H2.
  destruct (Qle_bool c a) eqn:E; [|reflexivity].
  apply Qle_bool_iff in E.
  assert (K : (b <= a)%Q).
  { apply Qle_trans with c; [|exact E].
    apply Qlt_le_weak, Qnot_le_lt. intro K. apply Qle_bool_iff in K.
    congruence. }
  apply Qle_bool_iff in K. congruence.
Qed.

(** What is below a bound is below everything that is not. *)
Lemma ltb_below (x y z : Number) :
  isDistance z ->
  ltb x y = true -> ltb z y = false -> ltb x z = true.
Proof.
  destruct x as [a| | |], y as [b| | |], z as [c| | |]; cbn;
    try discriminate; try reflexivity; try contradiction.
  rewrite negb_true_iff, negb_false_iff. intros _ H1 H2.
  apply Qle_bool_iff in H2. rewrite negb_true_iff.
  destruct (Qle_bool c a) eqn:E; [|reflexivity].
  apply Qle_bool_iff in E.
  assert (K : (b <= a)%Q) by (apply Qle_trans with c; assumption).
  apply Qle_bool_iff in K. congruence.
Qed.


(** The comparison on distances, in terms of their values. *)
Lemma ltb_distance (x y : Number) (r : Q) :
  isDistance y -> x = Finite r ->
  (ltb x y = true ->
   y = PlusInfinity \/ exists r', y = Finite r' /\ (r < r')%Q)
  /\ (ltb y x = false ->
      y = PlusInfinity \/ exists r', y = Finite r' /\ (r <= r')%Q).
Proof.
  intros Hy ->. destruct y as [b| | |]; cbn in *; try contradiction.
  - rewrite negb_true_iff, negb_false_iff. split; intro H; right; exists b.
    + split; [reflexivity|]. apply Qnot_le_lt. intro K.
      apply Qle_bool_iff in K. congruence.
    + split; [reflexivity|]. now apply Qle_bool_iff.
  - split; intros _; now left.
Qed.

Lemma ltb_infinity (x : Number) :
  isDistance x -> ltb x PlusInfinity = true ->
  exists r, x = Finite r /\ (0 <= r)%Q.
Proof.
  destruct x as [a| | |]; cbn; try contradiction; try discriminate.
  intros H _. now exists a.
Qed.

Lemma isDistance_add (x y : Number) :
  isDistance x -> isDistance y -> isDistance (add x y).
Proof.
  destruct x as [a| | |], y as [b| | |]; cbn; try contradiction; try tauto.
  intros Ha Hb. apply round_nonneg. Lqa.lra.
Qed.

Lemma isDistance_square (x : Number) : x <> NaN -> isDistance (square x).
Proof.
  destruct x as [a| | |]; cbn; try tauto.
  intros _. apply round_nonneg. Lqa.nra.
Qed.

Lemma isDistance_sqrt (x : Number) : isDistance x -> isDistance (sqrt x).
Proof.
  destruct x as [a| | |]; cbn; try tauto.
  intro H. apply Qle_bool_iff in H. rewrite H. cbn.
  apply sqrtRounded_nonneg.
Qed.

Lemma sub_finite_not_NaN (a b : Q) : sub (Finite a) (Finite b) <> NaN.
Proof.
  cbn. unfold round, roundReduced.
  destruct (Qred (a + - b) ?= 0)%Q; try discriminate;
    destruct (Qle_bool _ _); discriminate.
Qed.

(** ** Accuracy of the operations *)

(** A finite result of the rounding is within a relative error of
    2^-53 of its argument, or within 2^-1075 of it in the subnormal
    range, whatever the sign. *)
Lemma round_accurate (q r : Q) :
  round q = Finite r ->
  (Qabs (r - q) <= Qabs q * pow2 (-53) + pow2 (-1075))%Q.
Proof.
  unfold round, roundReduced.
  pose proof (Qred_correct q) as E.
  pose proof (pow2_pos (-53)) as P1. pose proof (pow2_pos (-1075)) as P2.
  pose proof (Qabs_nonneg q) as A0.
  assert (M : (0 <= Qabs q * pow2 (-53))%Q)
    by (apply Qmult_le_0_compat; Lqa.lra).
  destruct (Qred q ?= 0)%Q eqn:C.
  - apply Qeq_alt in C. intros [= <-].
    assert (Z : (0 - q == 0)%Q) by Lqa.lra.
    rewrite Z. change (Qabs 0) with 0%Q. Lqa.lra.
  - apply Qlt_alt in C.
    destruct (Qle_bool _ _); [discriminate|].
    remember (- roundPositive (- Qred q))%Q as z eqn:Hz.
    intros [= <-].
    assert (L : (0 < - Qred q)%Q) by Lqa.lra.
    pose proof (Qred_correct z) as R.
    assert (Hz' : (z == - roundPositive (- Qred q))%Q) by now rewrite Hz.
    clear Hz.
    assert (Aq : (Qabs q == - Qred q)%Q)
      by (rewrite (Qabs_neg q) by Lqa.lra; Lqa.lra).
    assert (S : (Qabs q * pow2 (-53) == - Qred q * pow2 (-53))%Q)
      by now rewrite Aq.
    apply Qabs_Qle_condition.
    destruct (roundPositive_error _ L) as [K|K];
      apply Qabs_Qle_condition in K; Lqa.lra.
  - apply Qgt_alt in C.
    destruct (Qle_bool _ _); [discriminate|].
    remember (roundPositive (Qred q)) as z eqn:Hz.
    intros [= <-].
    pose proof (Qred_correct z) as R.
    assert (Hz' : (z == roundPositive (Qred q))%Q) by now rewrite Hz.
    clear Hz.
    assert (Aq : (Qabs q == Qred q)%Q)
      by (rewrite (Qabs_pos q) by Lqa.lra; Lqa.lra).
    assert (S : (Qabs q * pow2 (-53) == Qred q * pow2 (-53))%Q)
      by now rewrite Aq.
    apply Qabs_Qle_condition.
    destruct (roundPositive_error _ C) as [K|K];
      apply Qabs_Qle_condition in K; Lqa.lra.
Qed.

(** The mantissa of the square root has 53 bits, and its square is
    within a half of the scaled argument. *)
Lemma ilog2_half (q : Q) :
  (0 < q)%Q ->
  (pow2 104 <= q / pow2 (2 * (ilog2 q / 2 - 52)))%Q.
Proof.
  intro H. pose proof (ilog2_spec q H) as L.
  set (l := ilog2 q) in *.
  pose proof (pow2_pos (2 * (l / 2 - 52))) as P.
  apply Qle_shift_div_l; [exact P|].
  rewrite <- pow2_plus.
  eapply Qle_trans; [|exact L].
  unfold pow2. apply Qpower_le_compat_l; [|discriminate].
  pose proof (Z.mul_div_le l 2). lia.
Qed.

Lemma sqrt_mantissa (x : Q) (m0 : Z) :
  (pow2 104 <= x)%Q -> m0 = Z.sqrt (Qfloor x) ->
  (pow2 52 <= inject_Z m0)%Q
  /\ (inject_Z m0 * inject_Z m0 <= x)%Q
  /\ (x < (inject_Z m0 + 1) * (inject_Z m0 + 1))%Q.
Proof.
  intros H ->.
  assert (F : (2 ^ 104 <= Qfloor x)%Z).
  { change (2 ^ 104)%Z with (Qfloor (inject_Z (2 ^ 104))).
    apply Qfloor_resp_le. rewrite pow2_inject by lia. exact H. }
  assert (F0 : (0 <= Qfloor x)%Z) by lia.
  destruct (Z.sqrt_spec (Qfloor x) F0) as [S1 S2].
  pose proof (Qfloor_le x) as L. pose proof (Qlt_floor x) as U.
  split; [|split].
  - rewrite <- pow2_inject by lia. rewrite <- Zle_Qle.
    change (2 ^ 52)%Z with (Z.sqrt (2 ^ 104)). now apply Z.sqrt_le_mono.
  - rewrite <- inject_Z_mult. eapply Qle_trans; [|exact L].
    now rewrite <- Zle_Qle.
  - eapply Qlt_le_trans; [exact U|].
    change 1%Q with (inject_Z 1).
    rewrite <- !inject_Z_plus, <- inject_Z_mult, <- Zle_Qle.
    unfold Z.succ in S2. lia.
Qed.


Lemma mantissa_accurate (x M k d : Q) :
  (2 <= k)%Q -> (d * k == 2)%Q -> (k <= M)%Q ->
  ((M - (1 # 2)) * (M - (1 # 2)) <= x)%Q ->
  (x <= (M + (1 # 2)) * (M + (1 # 2)))%Q ->
  (M * M <= x * (1 + d))%Q /\ (x <= M * M * (1 + d))%Q.
Proof.
  intros Hk Hd HM L U.
  assert (D0 : (0 < d)%Q).
  { destruct (Qlt_le_dec 0 d) as [G|G]; [exact G|]. exfalso. Lqa.nra. }
  assert (DM : (2 <= d * M)%Q) by Lqa.nra.
  split.
  - assert (A : (M - (1 # 4) <= d * x)%Q) by Lqa.nra.
    Lqa.nra.
  - assert (A : (2 * M <= d * M * M)%Q) by Lqa.nra.
    Lqa.nra.
Qed.

(** The square root is within a relative error of 2^-52 of the exact
    one: its square is within a factor 1 + 2^-51 of the argument. *)
Lemma sqrtRounded_accurate (t : Q) :
  (0 < t)%Q ->
  (0 < sqrtRounded t)%Q
  /\ (sqrtRounded t * sqrtRounded t <= t * (1 + pow2 (-51)))%Q
  /\ (t <= sqrtRounded t * sqrtRounded t * (1 + pow2 (-51)))%Q.
Proof.
  intro H. unfold sqrtRounded.
  apply Qgt_alt in H. rewrite H. apply Qgt_alt in H. cbv zeta.
  set (e := (ilog2 t / 2 - 52)%Z).
  pose proof (ilog2_half t H) as X. fold e in X.
  set (x := (t / pow2 (2 * e))%Q) in *.
  destruct (sqrt_mantissa x _ X eq_refl) as (K & S1 & S2).
  set (m0 := Z.sqrt (Qfloor x)) in *.
  pose proof (pow2_pos e) as P.
  assert (T : (t == x * (pow2 e * pow2 e))%Q).
  { unfold x. replace (2 * e)%Z with (e + e)%Z by lia. rewrite pow2_plus.
    field. Lqa.lra. }
  assert (K52 : (2 <= pow2 52)%Q) by (vm_compute; discriminate).
  assert (D : (pow2 (-51) * pow2 52 == 2)%Q) by reflexivity.
  assert (G : forall m : Z,
             ((inject_Z m - (1 # 2)) * (inject_Z m - (1 # 2)) <= x)%Q ->
             (x <= (inject_Z m + (1 # 2)) * (inject_Z m + (1 # 2)))%Q ->
             (pow2 52 <= inject_Z m)%Q ->
             (0 < Qred (inject_Z m * pow2 e))%Q
             /\ (Qred (inject_Z m * pow2 e) * Qred (inject_Z m * pow2 e)
                 <= t * (1 + pow2 (-51)))%Q
             /\ (t <= Qred (inject_Z m * pow2 e) * Qred (inject_Z m * pow2 e)
                      * (1 + pow2 (-51)))%Q).
  { intros m L U Km. rewrite !Qred_correct, T.
    destruct (mantissa_accurate x (inject_Z m) (pow2 52) (pow2 (-51))
                K52 D Km L U) as [A B].
    revert A B Km K52 P.
    generalize (inject_Z m) as M, (pow2 e) as p, (pow2 (-51)) as d,
      (pow2 52) as k.
    intros M p d k A B Km K52 P.
    assert (M0 : (0 < M)%Q) by Lqa.lra.
    assert (PP : (0 < p * p)%Q) by Lqa.nra.
    split; [Lqa.nra|]. split.
    - assert (E1 : (M * p * (M * p) == M * M * (p * p))%Q) by ring.
      assert (E2 : (x * (p * p) * (1 + d) == x * (1 + d) * (p * p))%Q) by ring.
      rewrite E1, E2. apply Qmult_le_compat_r; [exact A | Lqa.lra].
    - assert (E1 : (M * p * (M * p) * (1 + d) == M * M * (1 + d) * (p * p))%Q)
        by ring.
      rewrite E1. apply Qmult_le_compat_r; [exact B | Lqa.lra]. }
  assert (I1 : (inject_Z (m0 + 1) == inject_Z m0 + 1)%Q)
    by (rewrite inject_Z_plus; reflexivity).
  destruct (x ?= (inject_Z m0 + (1 # 2)) * (inject_Z m0 + (1 # 2)))%Q eqn:C.
  - apply Qeq_alt in C. destruct (Z.even m0); apply G;
      rewrite ?I1; Lqa.nra.
  - apply Qlt_alt in C. apply G; Lqa.nra.
  - apply Qgt_alt in C. apply G; rewrite ?I1; Lqa.nra.
Qed.

(** How the errors of the rounded operations add up in a square, in a
    sum of two squares and in its root: [u] is the relative error of
    one operation and [h] the absolute one. *)
Lemma product_bound (p q A B : Q) :
  (- A <= p <= A)%Q -> (- B <= q <= B)%Q ->
  (- (A * B) <= p * q <= A * B)%Q.
Proof. intros [H1 H2] [H3 H4]. split; Lqa.nra. Qed.

Lemma square_error (x d s u h X : Q) :
  (0 <= u <= 1 # 8)%Q -> (0 <= h <= 1)%Q -> (Qabs x <= X)%Q ->
  (Qabs (d - x) <= Qabs x * u + h)%Q ->
  (Qabs (s - d * d) <= Qabs (d * d) * u + h)%Q ->
  (Qabs (s - x * x) <= 5 * u * (x * x) + (4 * X * h + 2 * h * h + h))%Q.
Proof.
  intros [U0 U1] [H0 H1] HX Hd Hs.
  assert (Ax : (x * x == Qabs x * Qabs x)%Q).
  { apply (Qabs_case x (fun a => x * x == a * a)%Q); intros _; ring. }
  assert (Bx : (- Qabs x <= x <= Qabs x)%Q).
  { apply Qabs_Qle_condition. apply Qle_refl. }
  pose proof (Qabs_nonneg x) as A0.
  assert (Dd : (Qabs (d * d) == d * d)%Q) by (apply Qabs_pos; Lqa.nra).
  rewrite Dd in Hs. rewrite Ax. clear Dd.
  apply Qabs_Qle_condition in Hd. apply Qabs_Qle_condition in Hs.
  apply Qabs_Qle_condition.
  revert Ax Bx A0 HX Hd Hs. generalize (Qabs x) as a.
  intros a Ax Bx A0 HX Hd Hs.
  set (E := (a * u + h)%Q) in *.
  assert (E0 : (0 <= E)%Q) by (unfold E; Lqa.nra).
  assert (P : (- (E * (2 * a + E)) <= (d - x) * (2 * x + (d - x))
               <= E * (2 * a + E))%Q).
  { apply product_bound; [exact Hd|]. split; Lqa.lra. }
  assert (Q1 : ((d - x) * (2 * x + (d - x)) == d * d - x * x)%Q) by ring.
  rewrite Q1 in P. clear Q1.
  assert (B1 : (E * (2 * a + E) <= 3 * u * (a * a) + 3 * X * h + h * h)%Q).
  { unfold E.
    assert (T1 : (u * u * (a * a) <= (1 # 8) * u * (a * a))%Q).
    { assert (u * u <= (1 # 8) * u)%Q by Lqa.nra.
      assert (0 <= a * a)%Q by Lqa.nra. Lqa.nra. }
    assert (T2 : (a * h <= X * h)%Q) by Lqa.nra.
    assert (T3 : (u * (a * h) <= (1 # 8) * (X * h))%Q).
    { assert (0 <= a * h)%Q by Lqa.nra. Lqa.nra. }
    Lqa.nra. }
  assert (X0 : (0 <= X)%Q) by Lqa.lra.
  assert (AA : (0 <= a * a)%Q) by Lqa.nra.
  assert (R0 : (0 <= 3 * X * h + h * h)%Q) by Lqa.nra.
  assert (B2 : (d * d <= a * a + 3 * u * (a * a) + 3 * X * h + h * h)%Q)
    by Lqa.lra.
  assert (B3 : (d * d * u
                <= u * (a * a) + (3 # 8) * u * (a * a)
                   + (1 # 8) * (3 * X * h + h * h))%Q).
  { assert (T1 : (d * d * u
                  <= (a * a + 3 * u * (a * a) + 3 * X * h + h * h) * u)%Q)
      by (apply Qmult_le_compat_r; assumption).
    assert (T2 : (3 * u * (a * a) * u <= (3 # 8) * u * (a * a))%Q).
    { assert (u * u <= (1 # 8) * u)%Q by Lqa.nra. Lqa.nra. }
    assert (T3 : ((3 * X * h + h * h) * u
                  <= (1 # 8) * (3 * X * h + h * h))%Q) by Lqa.nra.
    Lqa.lra. }
  assert (XH : (0 <= X * h)%Q) by Lqa.nra.
  assert (HH : (0 <= h * h)%Q) by Lqa.nra.
  assert (UA : (0 <= u * (a * a))%Q) by Lqa.nra.
  split; Lqa.lra.
Qed.

(** The sum of the two squares, and its root. *)
Lemma sum_error (P S t u h T : Q) :
  (0 <= u <= 1 # 64)%Q -> (0 <= h)%Q -> (0 <= T)%Q -> (0 <= P)%Q ->
  (Qabs (S - P) <= 5 * u * P + 2 * T)%Q ->
  (0 <= S)%Q ->
  (Qabs (t - S) <= Qabs S * u + h)%Q ->
  (t <= (1 + 7 * u) * P + (3 * T + h))%Q
  /\ ((1 - 7 * u) * P <= t + (3 * T + h))%Q.
Proof.
  intros [U0 U1] H0 T0 P0 HS S0 Ht.
  rewrite (Qabs_pos S S0) in Ht.
  apply Qabs_Qle_condition in HS. apply Qabs_Qle_condition in Ht.
  assert (UP : (0 <= u * P)%Q) by Lqa.nra.
  assert (SU : (S * u <= u * P + 5 * u * (u * P) + 2 * T * u)%Q) by Lqa.nra.
  assert (UU : (5 * u * (u * P) <= (5 # 64) * (u * P))%Q) by Lqa.nra.
  assert (TU : (2 * T * u <= (1 # 32) * T)%Q) by Lqa.nra.
  split; Lqa.lra.
Qed.

Lemma root_error (P t r u W : Q) :
  (0 <= u <= 1 # 1024)%Q -> (0 <= W)%Q -> (0 <= P)%Q -> (0 <= t)%Q ->
  (t <= (1 + 7 * u) * P + W)%Q ->
  ((1 - 7 * u) * P <= t + W)%Q ->
  (r * r <= t * (1 + 4 * u))%Q -> (t <= r * r * (1 + 4 * u))%Q ->
  (r * r <= (1 + 12 * u) * P + 2 * W)%Q
  /\ (P <= (1 + 12 * u) * (r * r) + 2 * W)%Q.
Proof.
  intros [U0 U1] W0 P0 T0 H1 H2 H3 H4.
  assert (UP : (0 <= u * P)%Q) by Lqa.nra.
  assert (RR : (0 <= r * r)%Q) by Lqa.nra.
  assert (UR : (0 <= u * (r * r))%Q) by Lqa.nra.
  assert (UW : (0 <= u * W)%Q) by Lqa.nra.
  assert (UT : (0 <= u * t)%Q) by Lqa.nra.
  assert (D : (u * W <= (1 # 1024) * W)%Q) by Lqa.nra.
  split.
  - assert (A : (u * t <= u * P + 7 * u * (u * P) + u * W)%Q) by Lqa.nra.
    assert (B : (7 * u * (u * P) <= (7 # 1024) * (u * P))%Q) by Lqa.nra.
    Lqa.lra.
  - assert (A : (u * t <= u * (r * r) + 4 * u * (u * (r * r)))%Q) by Lqa.nra.
    assert (B : (4 * u * (u * (r * r)) <= (4 # 1024) * (u * (r * r)))%Q)
      by Lqa.nra.
    assert (C : (7 * (u * P) - 49 * u * (u * P)
                 <= 7 * (u * t) + 7 * (u * W))%Q) by Lqa.nra.
    assert (C' : (49 * u * (u * P) <= (49 # 1024) * (u * P))%Q) by Lqa.nra.
    Lqa.lra.
Qed.

Lemma sqrtRounded_zero (t : Q) : (t <= 0)%Q -> sqrtRounded t = 0%Q.
Proof.
  intro H. unfold sqrtRounded.
  destruct (t ?= 0)%Q eqn:C; try reflexivity.
  apply Qgt_alt in C. Lqa.lra.
Qed.

Lemma sqrtRounded_square (t : Q) :
  (0 <= t)%Q ->
  (sqrtRounded t * sqrtRounded t <= t * (1 + 4 * pow2 (-53)))%Q
  /\ (t <= sqrtRounded t * sqrtRounded t * (1 + 4 * pow2 (-53)))%Q.
Proof.
  intro H.
  assert (E : (4 * pow2 (-53) == pow2 (-51))%Q) by reflexivity.
  destruct (Qlt_le_dec 0 t) as [L|L].
  - destruct (sqrtRounded_accurate t L) as (_ & A & B).
    rewrite E. split; assumption.
  - rewrite (sqrtRounded_zero t L).
    pose proof (pow2_pos (-53)).
    split; Lqa.nra.
Qed.

(** Doubles in common use. *)
Example round_one_tenth :
  round (1 # 10) = Finite (3602879701896397 # 36028797018963968).
Proof. vm_compute. reflexivity. Qed.

Example round_tie_to_even :
  round (9007199254740993 # 1) = Finite (9007199254740992 # 1)
  /\ round (9007199254740995 # 1) = Finite (9007199254740996 # 1).
Proof. vm_compute. split; reflexivity. Qed.

Example round_overflow :
  round (2 ^ 1024) = PlusInfinity
  /\ round (2 ^ 1024 - 2 ^ 970) = PlusInfinity
  /\ round (2 ^ 1024 - 2 ^ 970 - 1) = Finite (2 ^ 1024 - 2 ^ 971).
Proof. vm_compute. repeat split; reflexivity. Qed.

Example round_subnormal :
  round (2 ^ (-1075)) = Finite 0
  /\ round (3 * 2 ^ (-1075)) = Finite (2 ^ (-1073)).
Proof. vm_compute. repeat split; reflexivity. Qed.

Example sqrt_two :
  sqrt (Finite 2) = Finite (6369051672525773 # 4503599627370496).
Proof. vm_compute. reflexivity. Qed.

End Binary64Facts.

(** ** Facts about the string primitives *)

Module StringFacts.

Open Scope string_scope.

Ltac each_unit c := destruct c as [[] [] [] [] [] [] [] []].

Lemma isWhiteSpace_toLowerUnit (c : ascii) :
  isWhiteSpace (toLowerUnit c) = isWhiteSpace c.
Proof. each_unit c; reflexivity. Qed.

Lemma toLowerCase_empty (s : string) : toLowerCase s = "" <-> s = "".
Proof. destruct s; simpl; split; intro H; try reflexivity; discriminate. Qed.

Lemma trimStart_toLowerCase (s : string) :
  trimStart (toLowerCase s) = toLowerCase (trimStart s).
Proof.
  induction s as [|c r IH]; simpl; [reflexivity|].
  rewrite isWhiteSpace_toLowerUnit.
  destruct (isWhiteSpace c); [exact IH | reflexivity].
Qed.

Lemma trimEnd_toLowerCase (s : string) :
  trimEnd (toLowerCase s) = toLowerCase (trimEnd s).
Proof.
  induction s as [|c r IH]; simpl; [reflexivity|].
  rewrite IH, isWhiteSpace_toLowerUnit.
  destruct (trimEnd r) as [|d r']; simpl.
  - destruct (isWhiteSpace c); reflexivity.
  - reflexivity.
Qed.

Lemma trim_toLowerCase (s : string) :
  trim (toLowerCase s) = toLowerCase (trim s).
Proof.
  unfold trim. now rewrite trimStart_toLowerCase, trimEnd_toLowerCase.
Qed.

Lemma trimEnd_empty (s : string) : trimEnd s = "" <-> allWhiteSpace s = true.
Proof.
  induction s as [|c r IH]; simpl; [tauto|].
  destruct (trimEnd r) as [|d r'].
  - destruct (isWhiteSpace c); simpl.
    + rewrite <- IH. tauto.
    + split; discriminate.
  - destruct (isWhiteSpace c); simpl.
    + rewrite <- IH. split; discriminate.
    + split; discriminate.
Qed.

Lemma allWhiteSpace_trimStart (s : string) :
  allWhiteSpace (trimStart s) = allWhiteSpace s.
Proof.
  induction s as [|c r IH]; simpl; [reflexivity|].
  destruct (isWhiteSpace c) eqn:E; simpl; [exact IH | now rewrite E].
Qed.

Lemma trim_empty (s : string) : trim s = "" <-> allWhiteSpace s = true.
Proof. unfold trim. now rewrite trimEnd_empty, allWhiteSpace_trimStart. Qed.

Lemma trim_eqb_empty (s : string) :
  String.eqb (trim s) "" = allWhiteSpace s.
Proof.
  destruct (allWhiteSpace s) eqn:E.
  - apply String.eqb_eq. now apply trim_empty.
  - apply String.eqb_neq. intro H. apply trim_empty in H. congruence.
Qed.

(** Trimming is idempotent: the handler trims before it calls the
    parser, which trims again. *)
Lemma trimStart_head (s : string) :
  match trimStart s with
  | "" => True
  | String c _ => isWhiteSpace c = false
  end.
Proof.
  induction s as [|c r IH]; simpl; [exact I|].
  destruct (isWhiteSpace c) eqn:E; [exact IH | exact E].
Qed.

Lemma trimEnd_head (s : string) :
  match s with
  | "" => True
  | String c _ => isWhiteSpace c = false -> exists r', trimEnd s = String c r'
  end.
Proof.
  destruct s as [|c r]; [exact I|]. intro E. simpl.
  destruct (trimEnd r); [rewrite E|]; eauto.
Qed.

Lemma trimEnd_idem (s : string) : trimEnd (trimEnd s) = trimEnd s.
Proof.
  induction s as [|c r IH]; simpl; [reflexivity|].
  destruct (trimEnd r) as [|d r'] eqn:E.
  - destruct (isWhiteSpace c) eqn:W; simpl; [reflexivity | now rewrite W].
  - simpl. simpl in IH. destruct (trimEnd r') eqn:E'.
    + destruct (isWhiteSpace d); [discriminate|]. now rewrite IH.
    + now rewrite IH.
Qed.

Lemma trimStart_fix (s : string) :
  match s with "" => True | String c _ => isWhiteSpace c = false end ->
  trimStart s = s.
Proof. destruct s; simpl; [reflexivity|]. now intros ->. Qed.

Lemma trim_idem (s : string) : trim (trim s) = trim s.
Proof.
  unfold trim.
  assert (H : trimStart (trimEnd (trimStart s)) = trimEnd (trimStart s)).
  { apply trimStart_fix. generalize (trimStart_head s).
    generalize (trimEnd_head (trimStart s)).
    destruct (trimStart s) as [|c r]; simpl; [trivial|].
    intros H1 H2. destruct (H1 H2) as [r' Hr]. simpl in Hr. now rewrite Hr. }
  now rewrite H, trimEnd_idem.
Qed.

Lemma prefix_spec (t s : string) :
  prefix t s = true <-> exists b, s = t ++ b.
Proof.
  revert s. induction t as [|a t IH]; intro s.
  - split; [intros _; now exists s | intros _; destruct s; reflexivity].
  - destruct s as [|c s]; simpl.
    + split; [discriminate | intros [b H]; discriminate H].
    + destruct (ascii_dec a c) as [->|N].
      * rewrite IH. split; intros [b H]; exists b; [now rewrite H|].
        now injection H.
      * split; [discriminate|]. intros [b H]. injection H as H _.
        congruence.
Qed.

(** [includes] is the substring test. *)
Lemma includes_spec (s t : string) :
  includes s t = true <-> exists a b, s = a ++ t ++ b.
Proof.
  split.
  - induction s as [|c s IH]; cbn [includes].
    + destruct (prefix t "") eqn:P; [|discriminate].
      intros _. apply prefix_spec in P. destruct P as [b H]. now exists "", b.
    + destruct (prefix t (String c s)) eqn:P.
      * intros _. apply prefix_spec in P. destruct P as [b H]. now exists "", b.
      * intro H. destruct (IH H) as (a & b & E).
        exists (String c a), b. simpl. now rewrite E.
  - intros (a & b & E). subst s. induction a as [|c a IH].
    + assert (P : prefix t (t ++ b) = true) by (apply prefix_spec; now exists b).
      cbn [append]. destruct (t ++ b); cbn [includes]; now rewrite P.
    + cbn [append includes]. rewrite IH.
      now destruct (prefix t (String c (a ++ t ++ b))).
Qed.

Example trim_example : trim "  Downtown  Plaza " = "Downtown  Plaza".
Proof. reflexivity. Qed.

Example toLowerCase_example :
  toLowerCase "Downtown PLAZA 12" = "downtown plaza 12".
Proof. reflexivity. Qed.

Example includes_example :
  includes "city park" "park" = true /\ includes "park" "city park" = false.
Proof. split; reflexivity. Qed.

End StringFacts.

Import StringFacts.

(** ** Facts about the location database *)

Module GazetteerFacts.

Open Scope string_scope.

Lemma ownProperty_In (o : list (string * LocationData)) (k : string) (d : LocationData) :
  ownProperty o k = Some d -> In (k, d) o.
Proof.
  induction o as [|[k' d'] rest IH]; simpl; [discriminate|].
  destruct (String.eqb k k') eqn:E.
  - apply String.eqb_eq in E. intros [= ->]. left. now subst.
  - intro H. right. now apply IH.
Qed.

Lemma ownProperty_None (o : list (string * LocationData)) (k : string) :
  ~ In k (keys o) -> ownProperty o k = None.
Proof.
  induction o as [|[k' d'] rest IH]; simpl; [reflexivity|].
  intro H. destruct (String.eqb k k') eqn:E.
  - apply String.eqb_eq in E. exfalso. apply H. left. now subst.
  - apply IH. tauto.
Qed.

(** No key of the database is written twice, so membership decides the
    lookup. *)
Lemma ownProperty_locationDatabase (k : string) (d : LocationData) :
  In (k, d) locationDatabase -> ownProperty locationDatabase k = Some d.
Proof.
  unfold locationDatabase. simpl.
  intros H.
  repeat (destruct H as [H|H]; [injection H as <- <-; reflexivity|]).
  destruct H.
Qed.

Lemma getProperty_locationDatabase (k : string) (d : LocationData) :
  In (k, d) locationDatabase -> getProperty locationDatabase k = Own d.
Proof.
  intro H. unfold getProperty. now rewrite (ownProperty_locationDatabase _ _ H).
Qed.

Lemma keys_nonempty (k : string) : In k (keys locationDatabase) -> k <> "".
Proof.
  unfold keys, locationDatabase. simpl. intros H.
  repeat (destruct H as [H|H]; [subst k; discriminate|]).
  destruct H.
Qed.

End GazetteerFacts.

Import GazetteerFacts.

(** ** The location parser: empty input and exact matches *)

Module ParserFacts.

Open Scope string_scope.

Lemma guard_blank (text : string) :
  String.eqb text "" || String.eqb (trim text) "" = allWhiteSpace text.
Proof.
  rewrite trim_eqb_empty. destruct text; reflexivity.
Qed.

Lemma parse_blank (random : RandomSource) (text : string) (drawn : nat) :
  allWhiteSpace text = true ->
  parseLocationInput random text drawn = (None, drawn).
Proof.
  intro H. unfold parseLocationInput. now rewrite guard_blank, H.
Qed.

(** Past the guard the parser always builds an object. *)
Lemma parse_not_blank (random : RandomSource) (text : string) (drawn : nat) :
  allWhiteSpace text = false ->
  exists r, fst (parseLocationInput random text drawn) = Some r.
Proof.
  intro H. unfold parseLocationInput. rewrite guard_blank, H.
  cbv zeta.
  destruct (truthy _); [simpl; eauto|].
  match goal with
  | |- context [partialMatches ?a ?b] => destruct (partialMatches a b)
  end; [|simpl; eauto].
  destruct (coordMatch text) as [[g1 g2]|]; [|simpl; eauto].
  destruct (parseFloat g1) as [la|], (parseFloat g2) as [lo|];
    try (simpl; eauto).
  destruct (inBounds la lo); simpl; eauto.
Qed.

(** C5.  An input that is empty or made of white space only makes
    [parseLocationInput] return [null], and that is the only input on
    which it does; [updateUserLocation] on such an input reports an error
    and leaves [userLocation] as it was, starts no refresh and draws no
    random number. *)
Theorem empty_input_rejected_location_kept
  (random : RandomSource) (text : string) (drawn : nat) (s : Session) :
  allWhiteSpace text = true ->
  inputValue s = text ->
  parseLocationInput random text drawn = (None, drawn)
  /\ (forall text', fst (parseLocationInput random text' drawn) = None ->
                    allWhiteSpace text' = true)
  /\ updateUserLocation random s = LocationHandlers.showError PleaseEnterLocation s
  /\ userLocation (updateUserLocation random s) = userLocation s
  /\ started (updateUserLocation random s) = started s
  /\ randomDrawn (updateUserLocation random s) = randomDrawn s.
Proof.
  intros Hblank Hin.
  assert (Hupd : updateUserLocation random s
                 = LocationHandlers.showError PleaseEnterLocation s).
  { unfold updateUserLocation. rewrite Hin.
    replace (String.eqb (trim text) "") with true; [reflexivity|].
    symmetry. now rewrite trim_eqb_empty. }
  split; [now apply parse_blank|].
  split.
  { intros text' H. destruct (allWhiteSpace text') eqn:E; [reflexivity|].
    destruct (parse_not_blank random text' drawn E) as [r Hr]. congruence. }
  rewrite Hupd. repeat split.
Qed.

Lemma empty_input_rejected_location_kept_witness :
  parseLocationInput (fun _ => 0%Q) "   " 0 = (None, 0)
  /\ userLocation (updateUserLocation (fun _ => 0%Q)
                     (mkSession defaultLocation "   " None [] [] 0))
     = defaultLocation.
Proof.
  destruct (@empty_input_rejected_location_kept (fun _ => 0%Q) "   " 0
              (mkSession defaultLocation "   " None [] [] 0)
              eq_refl eq_refl)
    as (H1 & _ & _ & H2 & _).
  split; [exact H1 | exact H2].
Defined.

(** C3.  When the trimmed, lower-cased input is a key of the database,
    the parser answers [exact] with the coordinates and type of that
    entry and the trimmed input as name, whether or not other keys
    contain or are contained in the input. *)
Theorem exact_match_wins
  (random : RandomSource) (text : string) (drawn : nat)
  (key : string) (data : LocationData) :
  In (key, data) locationDatabase ->
  trim (toLowerCase text) = key ->
  parseLocationInput random text drawn
  = (Some (mkResolved (Some (lat data)) (Some (lng data)) (Some (type data))
                      (trim text) exact None),
     drawn).
Proof.
  intros Hin Hnorm.
  assert (Hne : allWhiteSpace text = false).
  { destruct (allWhiteSpace text) eqn:E; [|reflexivity].
    exfalso. apply trim_empty in E.
    apply (keys_nonempty key).
    - unfold keys. apply (in_map fst _ _ Hin).
    - rewrite <- Hnorm, trim_toLowerCase, E. reflexivity. }
  unfold parseLocationInput. rewrite guard_blank, Hne.
  cbv zeta. rewrite Hnorm, (getProperty_locationDatabase _ _ Hin).
  reflexivity.
Qed.

Lemma exact_match_wins_witness :
  parseLocationInput (fun _ => 0%Q) "  Park " 0
  = (Some (mkResolved (Some 15.0%Q) (Some 8.0%Q) (Some "leisure")
                      "Park" exact None), 0).
Proof.
  apply (@exact_match_wins (fun _ => 0%Q) "  Park " 0
           "park" (mkLocationData 15.0 8.0 "leisure")).
  - unfold locationDatabase. simpl. tauto.
  - reflexivity.
Defined.

(** The key "park" is contained in the earlier key "city park", which is
    what a partial scan of the input "park" would find first. *)
Example exact_before_partial_park :
  partialMatches (Object_entries locationDatabase) "park"
  = [ mkResolved (Some 15.0%Q) (Some 8.0%Q) (Some "leisure")
                 "city park" partial (Some "city park");
      mkResolved (Some 15.0%Q) (Some 8.0%Q) (Some "leisure")
                 "park" partial (Some "park") ].
Proof. reflexivity. Qed.

(** *** The partial scan *)

Lemma partialMatches_none (entries : list (string * LocationData)) (n : string) :
  (forall key data, In (key, data) entries -> qualifies key n = false) ->
  partialMatches entries n = [].
Proof.
  induction entries as [|[k d] rest IH]; simpl; [reflexivity|].
  intro H. rewrite (H k d) by now left.
  apply IH. intros key data Hin. apply (H key data). now right.
Qed.

Lemma partialMatches_first (entries : list (string * LocationData)) (n : string) :
  (exists key data, In (key, data) entries /\ qualifies key n = true) ->
  exists before key data after tl,
    entries = (before ++ (key, data) :: after)%list
    /\ qualifies key n = true
    /\ (forall k d, In (k, d) before -> qualifies k n = false)
    /\ partialMatches entries n
       = mkResolved (Some (lat data)) (Some (lng data)) (Some (type data))
                    key partial (Some key) :: tl.
Proof.
  induction entries as [|[k d] rest IH]; intros (key & data & Hin & Hq).
  - destruct Hin.
  - simpl. destruct (qualifies k n) eqn:E.
    + exists [], k, d, rest. eexists. repeat split; try assumption.
      intros ? ? [].
    + destruct Hin as [Hin|Hin]; [injection Hin as -> ->; congruence|].
      destruct IH as (before & key' & data' & after & tl & H1 & H2 & H3 & H4);
        [now exists key, data|].
      exists ((k, d) :: before), key', data', after, tl.
      repeat split; try assumption.
      * simpl. now rewrite H1.
      * intros k0 d0 [H|H]; [injection H as <- <-; assumption | eauto].
Qed.

(** A text that names a property inherited from [Object.prototype] has
    no substring in common with the keys: such a text is never a
    candidate of the partial scan. *)
Lemma inherited_never_qualifies (n : string) :
  existsb (String.eqb n) objectPrototypeProperties = true ->
  forall key, In key (keys locationDatabase) -> qualifies key n = false.
Proof.
  intro H. apply existsb_exists in H. destruct H as (p & Hp & E).
  apply String.eqb_eq in E. subst p.
  unfold objectPrototypeProperties in Hp. simpl in Hp.
  intros key Hk. unfold keys, locationDatabase in Hk. simpl in Hk.
  repeat (destruct Hp as [Hp|Hp];
          [subst n;
           repeat (destruct Hk as [Hk|Hk]; [subst key; reflexivity|]);
           destruct Hk|]).
  destruct Hp.
Qed.

(** Outside the keys, the lookup [locationDatabase[normalizedText]] is
    falsy as soon as some key qualifies or the text holds a comma. *)
Lemma lookup_falsy_when_qualifies (n : string) :
  ~ In n (keys locationDatabase) ->
  (exists key, In key (keys locationDatabase) /\ qualifies key n = true) ->
  truthy (getProperty locationDatabase n) = false.
Proof.
  intros Hnk (key & Hk & Hq). unfold getProperty.
  rewrite (ownProperty_None _ _ Hnk).
  destruct (existsb _ _) eqn:E; [|reflexivity].
  rewrite (inherited_never_qualifies _ E key Hk) in Hq. discriminate.
Qed.

(** C2, as amended.  For an input that is not blank, whose trimmed,
    lower-cased text is no key of the database while some key contains it
    or is contained in it, the parser answers [partial] with the first
    such key in the order of the database: that key is the name and the
    recorded match, and the coordinates and type are that entry's. *)
Theorem partial_match_first_wins
  (random : RandomSource) (text : string) (drawn : nat) :
  trim text <> "" ->
  ~ In (trim (toLowerCase text)) (keys locationDatabase) ->
  (exists key, In key (keys locationDatabase)
               /\ qualifies key (trim (toLowerCase text)) = true) ->
  exists before key data after,
    Object_entries locationDatabase = (before ++ (key, data) :: after)%list
    /\ qualifies key (trim (toLowerCase text)) = true
    /\ (forall k d, In (k, d) before ->
                    qualifies k (trim (toLowerCase text)) = false)
    /\ parseLocationInput random text drawn
       = (Some (mkResolved (Some (lat data)) (Some (lng data))
                           (Some (type data)) key partial (Some key)),
          drawn).
Proof.
  intros Hne Hnk Hex.
  assert (Hws : allWhiteSpace text = false).
  { destruct (allWhiteSpace text) eqn:E; [|reflexivity].
    apply trim_empty in E. contradiction. }
  destruct (partialMatches_first (Object_entries locationDatabase)
              (trim (toLowerCase text)))
    as (before & key & data & after & tl & H1 & H2 & H3 & H4).
  { destruct Hex as (key & Hk & Hq). unfold keys in Hk.
    apply in_map_iff in Hk. destruct Hk as ([k d] & Hfst & Hin).
    simpl in Hfst. subst k. now exists key, d. }
  exists before, key, data, after. repeat split; try assumption.
  unfold parseLocationInput. rewrite guard_blank, Hws. cbv zeta.
  rewrite (lookup_falsy_when_qualifies _ Hnk Hex), H4. reflexivity.
Qed.

Lemma partial_match_first_wins_witness :
  exists before key data after,
    Object_entries locationDatabase = (before ++ (key, data) :: after)%list
    /\ qualifies key (trim (toLowerCase " The Mall ")) = true
    /\ (forall k d, In (k, d) before ->
                    qualifies k (trim (toLowerCase " The Mall ")) = false)
    /\ parseLocationInput (fun _ => 0%Q) " The Mall " 0
       = (Some (mkResolved (Some (lat data)) (Some (lng data))
                           (Some (type data)) key partial (Some key)),
          0).
Proof.
  apply (@partial_match_first_wins (fun _ => 0%Q) " The Mall " 0).
  - discriminate.
  - unfold keys, locationDatabase. simpl. intro H.
    repeat (destruct H as [H|H]; [discriminate H|]). exact H.
  - exists "mall". split; [|reflexivity].
    unfold keys, locationDatabase. simpl. tauto.
Defined.

(** The claim C2 as it is written also covers a blank input: its
    normalization is the empty string, which is no key and is contained
    in every key, and the parser returns [null] for it. *)
Lemma partial_match_claim_fails_on_blank :
  ~ In (trim (toLowerCase "   ")) (keys locationDatabase)
  /\ (exists key, In key (keys locationDatabase)
                  /\ qualifies key (trim (toLowerCase "   ")) = true)
  /\ forall random drawn,
       parseLocationInput random "   " drawn = (None, drawn).
Proof.
  split; [|split].
  - unfold keys, locationDatabase. simpl. intro H.
    repeat (destruct H as [H|H]; [discriminate H|]). exact H.
  - exists "downtown plaza". split; [|reflexivity].
    unfold keys, locationDatabase. simpl. tauto.
  - intros random drawn. reflexivity.
Qed.

(** The first key that qualifies wins even when a later key fits the
    input as well or better: in "mall parking" the keys "mall" and
    "park" both occur, and "mall", which comes first, is returned. *)
Example first_match_not_best_match :
  fst (parseLocationInput (fun _ => 0%Q) "mall parking" 0)
  = Some (mkResolved (Some 8.0%Q) (Some 7.0%Q) (Some "shopping")
                     "mall" partial (Some "mall")).
Proof. reflexivity. Qed.
End ParserFacts.

Import ParserFacts.

(** ** The coordinate pattern *)

Module PatternFacts.

Open Scope string_scope.

Lemma spanDigits_spec {s d r : string} :
  spanDigits s = (d, r) ->
  s = d ++ r /\ allDigits d = true /\ headNotDigit r.
Proof.
  revert d r. induction s as [|c s IH]; simpl; intros d r H.
  - injection H as <- <-. simpl. auto.
  - destruct (isDigit c) eqn:E.
    + destruct (spanDigits s) as [d' r'] eqn:S. injection H as <- <-.
      destruct (IH d' r' eq_refl) as (H1 & H2 & H3).
      simpl. rewrite E, H2. subst s. auto.
    + injection H as <- <-. simpl. auto.
Qed.

Lemma spanDigits_app (d r : string) :
  allDigits d = true -> headNotDigit r -> spanDigits (d ++ r) = (d, r).
Proof.
  intros Hd Hr. induction d as [|c d IH]; simpl.
  - destruct r as [|c r]; simpl in *; [reflexivity | now rewrite Hr].
  - simpl in Hd. apply andb_true_iff in Hd. destruct Hd as [Hc Hd].
    rewrite Hc, (IH Hd). reflexivity.
Qed.

Lemma append_empty_r (s : string) : s ++ "" = s.
Proof. induction s; simpl; congruence. Qed.

Lemma append_assoc (a b c : string) : (a ++ b) ++ c = a ++ b ++ c.
Proof. induction a; simpl; congruence. Qed.

Lemma spanDigits_all (d : string) :
  allDigits d = true -> spanDigits d = (d, "").
Proof.
  intro H. rewrite <- (append_empty_r d) at 1.
  now apply spanDigits_app.
Qed.

Lemma allDigits_app (a b : string) :
  allDigits (a ++ b) = allDigits a && allDigits b.
Proof.
  induction a as [|c a IH]; simpl; [reflexivity|].
  now rewrite IH, andb_assoc.
Qed.

Lemma digitValue_nonneg (c : ascii) : isDigit c = true -> (0 <= digitValue c)%Z.
Proof.
  unfold isDigit, digitValue. intro H. apply andb_true_iff in H.
  destruct H as [H _]. apply Nat.leb_le in H.
  revert H. generalize (codeUnit c). intros n H. lia.
Qed.

Lemma digitsValue_nonneg (d : string) (acc : Z) :
  allDigits d = true -> (0 <= acc)%Z -> (0 <= digitsValue acc d)%Z.
Proof.
  revert acc. induction d as [|c d IH]; intros acc H Hacc;
    cbn [digitsValue]; [exact Hacc|].
  cbn [allDigits] in H. apply andb_true_iff in H. destruct H as [Hc Hd].
  apply IH; [exact Hd|]. generalize (digitValue_nonneg c Hc).
  generalize (digitValue c). intros v Hv. lia.
Qed.

Lemma matchNumber_spec {s g rest : string} :
  matchNumber s = Some (g, rest) -> Capture g /\ s = g ++ rest.
Proof.
  unfold matchNumber. destruct (spanDigits s) as [i r] eqn:S.
  destruct (spanDigits_spec S) as (H1 & H2 & H3).
  destruct i as [|a i]; [discriminate|].
  destruct r as [|c r].
  - intros [= <- <-]. split; [now constructor | exact H1].
  - destruct (Ascii.eqb c ".") eqn:E.
    + apply Ascii.eqb_eq in E. subst c.
      destruct (spanDigits r) as [f r'] eqn:S'.
      destruct (spanDigits_spec S') as (H4 & H5 & H6).
      intros [= <- <-]. split.
      * apply (CaptureDot (String a i) f); [discriminate | assumption..].
      * rewrite H1, H4. simpl. f_equal. now rewrite append_assoc.
    + intros [= <- <-]. split; [now constructor | exact H1].
Qed.

(** *** The value of a capture *)

Lemma digitValue_decimalDigit (c : ascii) :
  isDigit c = true -> digitValue c = decimalDigit c.
Proof. each_unit c; intro H; try reflexivity; discriminate H. Qed.

Lemma digitsValue_integerPart (d : string) (acc : Z) :
  allDigits d = true ->
  digitsValue acc d
  = (acc * 10 ^ Z.of_nat (String.length d) + integerPart d)%Z.
Proof.
  revert acc. induction d as [|c d IH]; intros acc H;
    cbn [digitsValue integerPart String.length].
  - change (Z.of_nat 0) with 0%Z. rewrite Z.pow_0_r. lia.
  - cbn [allDigits] in H. apply andb_true_iff in H. destruct H as [Hc Hd].
    rewrite (IH _ Hd), (digitValue_decimalDigit c Hc).
    rewrite Nat2Z.inj_succ, Z.pow_succ_r by lia.
    generalize (10 ^ Z.of_nat (String.length d))%Z, (decimalDigit c),
      (integerPart d).
    intros; ring.
Qed.

Lemma digitsValue_app (a b : string) (acc : Z) :
  digitsValue acc (a ++ b) = digitsValue (digitsValue acc a) b.
Proof.
  revert acc. induction a as [|c a IH]; intro acc; cbn [append digitsValue];
    [reflexivity | apply IH].
Qed.

Lemma power_of_ten_pos (n : nat) : (0 < inject_Z (10 ^ Z.of_nat n))%Q.
Proof.
  change 0%Q with (inject_Z 0). rewrite <- Zlt_Qlt.
  apply Z.pow_pos_nonneg; lia.
Qed.

Lemma fractionPart_integerPart (f : string) :
  (fractionPart f
   == inject_Z (integerPart f) / inject_Z (10 ^ Z.of_nat (String.length f)))%Q.
Proof.
  induction f as [|c f IH]; cbn [fractionPart integerPart String.length].
  - reflexivity.
  - rewrite IH, Nat2Z.inj_succ, Z.pow_succ_r by lia.
    rewrite inject_Z_plus, !inject_Z_mult.
    pose proof (power_of_ten_pos (String.length f)) as P.
    generalize dependent (inject_Z (10 ^ Z.of_nat (String.length f))).
    intros p _ P. change (inject_Z 10) with 10%Q.
    field. intro K. rewrite K in P. discriminate P.
Qed.

Lemma fractionPart_nonneg (f : string) : (0 <= fractionPart f)%Q.
Proof.
  induction f as [|c f IH]; cbn [fractionPart]; [discriminate|].
  assert (D : (0 <= inject_Z (decimalDigit c))%Q).
  { change 0%Q with (inject_Z 0). rewrite <- Zle_Qle.
    each_unit c; cbn; lia. }
  apply Qle_shift_div_l; [reflexivity|]. Lqa.lra.
Qed.

Lemma dot_split (i s : string) :
  allDigits i = true ->
  beforeDot (i ++ s) = i ++ beforeDot s /\ afterDot (i ++ s) = afterDot s.
Proof.
  intro H. induction i as [|c i IH]; [now split|].
  cbn [allDigits] in H. apply andb_true_iff in H. destruct H as [Hc Hi].
  destruct (IH Hi) as [B A]. cbn [append beforeDot afterDot].
  assert (E : Ascii.eqb c "." = false).
  { apply Ascii.eqb_neq. intros ->. discriminate Hc. }
  rewrite E, B, A. now split.
Qed.

(** On a capture the literal the code reads denotes the decimal number
    of the specification. *)
Lemma literalValue_capture (g : string) :
  Capture g ->
  exists q, literalValue g = Some q
            /\ (q == decimalNumber g)%Q /\ (0 <= q)%Q.
Proof.
  intros [i Hne Hd | i f Hne Hi Hf]; unfold literalValue, decimalNumber.
  - rewrite (spanDigits_all i Hd).
    destruct i as [|a i]; [contradiction|].
    eexists. split; [reflexivity|].
    rewrite <- (append_empty_r (String a i)) at 2 3.
    destruct (dot_split (String a i) "" Hd) as [-> ->].
    cbn [beforeDot afterDot fractionPart]. rewrite append_empty_r.
    rewrite (digitsValue_integerPart _ 0 Hd), Z.mul_0_l, Z.add_0_l.
    split; [ring|].
    pose proof (digitsValue_nonneg (String a i) 0 Hd (Z.le_refl 0)) as N.
    rewrite (digitsValue_integerPart _ 0 Hd), Z.mul_0_l, Z.add_0_l in N.
    change 0%Q with (inject_Z 0). now rewrite <- Zle_Qle.
  - rewrite (spanDigits_app i ("." ++ f) Hi) by reflexivity.
    destruct i as [|a i]; [contradiction|].
    cbn [append Ascii.eqb Bool.eqb].
    rewrite (spanDigits_all f Hf). cbn [fst].
    eexists. split; [reflexivity|].
    change (String a (i ++ String "." f)) with (String a i ++ String "." f).
    destruct (dot_split (String a i) (String "." f) Hi) as [-> ->].
    cbn [beforeDot afterDot Ascii.eqb Bool.eqb]. rewrite append_empty_r.
    change (String a (i ++ f)) with (String a i ++ f).
    rewrite digitsValue_app, (digitsValue_integerPart f _ Hf),
      (digitsValue_integerPart _ 0 Hi), Z.mul_0_l, Z.add_0_l.
    pose proof (power_of_ten_pos (String.length f)) as P.
    assert (PZ : (0 < 10 ^ Z.of_nat (String.length f))%Z)
      by (apply Z.pow_pos_nonneg; lia).
    pose proof (digitsValue_nonneg (String a i) 0 Hi (Z.le_refl 0)) as N1.
    rewrite (digitsValue_integerPart _ 0 Hi), Z.mul_0_l, Z.add_0_l in N1.
    pose proof (digitsValue_nonneg f 0 Hf (Z.le_refl 0)) as N2.
    rewrite (digitsValue_integerPart _ 0 Hf), Z.mul_0_l, Z.add_0_l in N2.
    rewrite Qmake_Qdiv, (Z2Pos.id _ PZ), fractionPart_integerPart.
    rewrite inject_Z_plus, inject_Z_mult.
    split.
    + field. intro K. rewrite K in P. discriminate P.
    + apply Qle_shift_div_l; [exact P|]. rewrite Qmult_0_l.
      rewrite <- inject_Z_mult, <- inject_Z_plus.
      change 0%Q with (inject_Z 0). rewrite <- Zle_Qle. nia.
Qed.

(** [parseFloat] on a capture: the decimal number rounded to a double. *)
Lemma parseFloat_capture (g : string) :
  Capture g ->
  parseFloat g
  = match Binary64.round (decimalNumber g) with
    | Binary64.Finite r => Some r
    | _ => None
    end.
Proof.
  intro C. destruct (literalValue_capture g C) as (q & E & V & _).
  unfold parseFloat.
  now rewrite E, (Binary64Facts.round_compat q (decimalNumber g) V).
Qed.

Lemma decimalNumber_nonneg (g : string) :
  Capture g -> (0 <= decimalNumber g)%Q.
Proof.
  intro C. destruct (literalValue_capture g C) as (q & _ & V & N).
  now rewrite <- V.
Qed.

Lemma parseFloat_nonneg (g : string) (q : Q) :
  Capture g -> parseFloat g = Some q -> (0 <= q)%Q.
Proof.
  intros C. destruct (literalValue_capture g C) as (v & E & _ & N).
  unfold parseFloat. rewrite E.
  pose proof (Binary64Facts.round_nonneg v N) as D.
  destruct (Binary64.round v) as [r| | |]; try discriminate.
  intros [= <-]. exact D.
Qed.

Lemma matchAt_spec {s g1 g2 : string} :
  matchAt s = Some (g1, g2) ->
  Capture g1 /\ Capture g2 /\ exists r, s = g1 ++ "," ++ r.
Proof.
  unfold matchAt. destruct (matchNumber s) as [[g r]|] eqn:M; [|discriminate].
  destruct (matchNumber_spec M) as [C1 E1].
  destruct r as [|c r]; [discriminate|].
  destruct (Ascii.eqb c ",") eqn:E; [|discriminate].
  apply Ascii.eqb_eq in E. subst c.
  destruct (matchNumber (skipWhiteSpace r)) as [[g' r']|] eqn:M'; [|discriminate].
  destruct (matchNumber_spec M') as [C2 _].
  intros [= <- <-]. repeat split; try assumption. now exists r.
Qed.

Lemma occurs_app (c : ascii) (a b : string) :
  occurs c (a ++ b) = occurs c a || occurs c b.
Proof.
  induction a as [|d a IH]; simpl; [reflexivity|].
  now rewrite IH, orb_assoc.
Qed.

Lemma coordMatch_spec (s g1 g2 : string) :
  coordMatch s = Some (g1, g2) ->
  Capture g1 /\ Capture g2 /\ occurs "," s = true.
Proof.
  induction s as [|c s IH]; simpl.
  - destruct (matchAt "") as [[a b]|] eqn:M; [|discriminate].
    discriminate M.
  - destruct (matchAt (String c s)) as [[a b]|] eqn:M.
    + intros [= <- <-]. destruct (matchAt_spec M) as (C1 & C2 & r & E).
      repeat split; try assumption.
      change (occurs "," (String c s) = true).
      rewrite E, occurs_app. simpl. now rewrite orb_true_r.
    + intro H. destruct (IH H) as (C1 & C2 & O).
      repeat split; try assumption. now rewrite O, orb_true_r.
Qed.

(** A comma survives lower-casing and trimming. *)
Lemma occurs_toLowerCase (s : string) :
  occurs "," s = true -> occurs "," (toLowerCase s) = true.
Proof.
  induction s as [|c s IH]; cbn [occurs toLowerCase]; [trivial|].
  intro H. apply orb_true_iff in H. destruct H as [H|H].
  - apply Ascii.eqb_eq in H. subst c. reflexivity.
  - rewrite (IH H). apply orb_true_r.
Qed.

Lemma occurs_trimStart (s : string) :
  occurs "," s = true -> occurs "," (trimStart s) = true.
Proof.
  induction s as [|c s IH]; cbn [occurs trimStart]; [trivial|].
  intro H. destruct (isWhiteSpace c) eqn:W; [|exact H].
  apply orb_true_iff in H. destruct H as [H|H]; [|exact (IH H)].
  apply Ascii.eqb_eq in H. subst c. discriminate W.
Qed.

Lemma occurs_trimEnd (s : string) :
  occurs "," s = true -> occurs "," (trimEnd s) = true.
Proof.
  induction s as [|c s IH]; cbn [occurs trimEnd]; [trivial|].
  intro H. apply orb_true_iff in H.
  destruct (trimEnd s) as [|d r] eqn:T.
  - destruct H as [H|H]; [|discriminate (IH H)].
    apply Ascii.eqb_eq in H. subst c. reflexivity.
  - cbn [occurs]. destruct H as [H|H]; [now rewrite H|].
    apply IH in H. cbn [occurs] in H. rewrite H. apply orb_true_r.
Qed.

Lemma occurs_normalized (s : string) :
  occurs "," s = true -> occurs "," (trim (toLowerCase s)) = true.
Proof.
  intro H. unfold trim.
  now apply occurs_trimEnd, occurs_trimStart, occurs_toLowerCase.
Qed.

(** No property inherited from [Object.prototype] has a comma in its
    name: a text in which the pattern matches never hits one. *)
Lemma lookup_falsy_when_comma (n : string) :
  ~ In n (keys locationDatabase) ->
  occurs "," n = true ->
  truthy (getProperty locationDatabase n) = false.
Proof.
  intros Hnk Hc. unfold getProperty. rewrite (ownProperty_None _ _ Hnk).
  destruct (existsb _ _) eqn:E; [|reflexivity].
  apply existsb_exists in E. destruct E as (p & Hp & E).
  apply String.eqb_eq in E. subst p.
  unfold objectPrototypeProperties in Hp. simpl in Hp.
  repeat (destruct Hp as [Hp|Hp]; [subst n; discriminate Hc|]).
  destruct Hp.
Qed.

Lemma inBounds_spec (la lo : Q) :
  inBounds la lo = true
  <-> (0 <= la /\ la <= 20 /\ 0 <= lo /\ lo <= 15)%Q.
Proof.
  unfold inBounds. rewrite !andb_true_iff, !Qle_bool_iff. tauto.
Qed.

Lemma skipWhiteSpace_spec (s : string) :
  exists ws, s = ws ++ skipWhiteSpace s /\ allWhiteSpace ws = true.
Proof.
  induction s as [|c s (ws & E & H)]; [now exists ""|].
  cbn [skipWhiteSpace]. destruct (isWhiteSpace c) eqn:W.
  - exists (String c ws). simpl. rewrite W, H. split; [now rewrite <- E | reflexivity].
  - now exists "".
Qed.

Lemma matchAt_shape (s g1 g2 : string) :
  matchAt s = Some (g1, g2) ->
  exists ws post,
    s = g1 ++ "," ++ ws ++ g2 ++ post
    /\ allWhiteSpace ws = true /\ Capture g1 /\ Capture g2
    /\ headNotDigit post.
Proof.
  unfold matchAt. destruct (matchNumber s) as [[g r]|] eqn:M; [|discriminate].
  destruct (matchNumber_spec M) as [C1 E1].
  destruct r as [|c r]; [discriminate|].
  destruct (Ascii.eqb c ",") eqn:E; [|discriminate].
  apply Ascii.eqb_eq in E. subst c.
  destruct (matchNumber (skipWhiteSpace r)) as [[g' r']|] eqn:M'; [|discriminate].
  destruct (matchNumber_spec M') as [C2 E2].
  intros [= <- <-].
  destruct (skipWhiteSpace_spec r) as (ws & Er & Hws).
  exists ws, r'. repeat split; try assumption.
  - rewrite E1. f_equal. simpl. f_equal. rewrite Er at 1. now rewrite E2.
  - revert M'. unfold matchNumber.
    destruct (spanDigits (skipWhiteSpace r)) as [i rest] eqn:S.
    destruct (spanDigits_spec S) as (_ & _ & H3).
    destruct i; [discriminate|]. destruct rest as [|c rest].
    + intros [= _ <-]. exact I.
    + destruct (Ascii.eqb c ".").
      * destruct (spanDigits rest) as [f rest'] eqn:S'.
        destruct (spanDigits_spec S') as (_ & _ & H6).
        intros [= _ <-]. exact H6.
      * intros [= _ <-]. exact H3.
Qed.

(** What a match of the pattern is: the text splits into a part in which
    the pattern matches at no position, the first number, a comma, white
    space, the second number taken as far as its digits go, and a rest. *)
Lemma coordMatch_shape (s g1 g2 : string) :
  coordMatch s = Some (g1, g2) ->
  exists pre ws post,
    s = pre ++ g1 ++ "," ++ ws ++ g2 ++ post
    /\ allWhiteSpace ws = true /\ Capture g1 /\ Capture g2
    /\ headNotDigit post
    /\ forall pre1 c pre2, pre = pre1 ++ String c pre2 ->
         matchAt (String c pre2 ++ g1 ++ "," ++ ws ++ g2 ++ post) = None.
Proof.
  induction s as [|c s IH]; cbn [coordMatch].
  - destruct (matchAt "") as [[a b]|] eqn:M; [discriminate M | discriminate].
  - destruct (matchAt (String c s)) as [m|] eqn:M.
    + intros [= ->]. destruct (matchAt_shape _ _ _ M) as (ws & post & E & H).
      exists "", ws, post. split; [exact E|].
      repeat split; try tauto.
      intros [|? ?] ? ? K; discriminate K.
    + intro H. destruct (IH H) as (pre & ws & post & E & H1 & H2 & H3 & H4 & H5).
      exists (String c pre), ws, post. split; [simpl; now rewrite E|].
      repeat split; try assumption.
      intros [|c1 pre1] c' pre2 K; simpl in K; injection K as <- K.
      * subst pre. cbn [append] in E |- *. now rewrite <- E.
      * eauto.
Qed.
End PatternFacts.

Import PatternFacts.

(** ** The location parser: coordinates and the fallback *)

Module CoordinateFacts.

Open Scope string_scope.

Lemma not_blank_when_nothing_qualifies (text : string) :
  (forall key, In key (keys locationDatabase) ->
               qualifies key (trim (toLowerCase text)) = false) ->
  allWhiteSpace text = false.
Proof.
  intro H. destruct (allWhiteSpace text) eqn:E; [|reflexivity].
  apply trim_empty in E.
  specialize (H "downtown plaza").
  rewrite trim_toLowerCase, E in H.
  discriminate H. unfold keys, locationDatabase. simpl. tauto.
Qed.

(** Past the two scans: what the parser does with its pattern. *)
Lemma parse_past_scans (random : RandomSource) (text : string) (drawn : nat) :
  ~ In (trim (toLowerCase text)) (keys locationDatabase) ->
  (forall key, In key (keys locationDatabase) ->
               qualifies key (trim (toLowerCase text)) = false) ->
  occurs "," text = true ->
  parseLocationInput random text drawn
  = let fallback :=
      (Some (mkResolved (Some (random drawn * 20)%Q)
                        (Some (random (S drawn) * 15)%Q)
                        (Some "unknown") (trim text) estimated None),
       S (S drawn)) in
    match coordMatch text with
    | Some (g1, g2) =>
        match parseFloat g1, parseFloat g2 with
        | Some la, Some lo =>
            if inBounds la lo
            then (Some (mkResolved (Some la) (Some lo) (Some "custom")
                                   (trim text) coordinates None), drawn)
            else fallback
        | _, _ => fallback
        end
    | None => fallback
    end.
Proof.
  intros Hnk Hnq Hc.
  unfold parseLocationInput.
  rewrite guard_blank, (not_blank_when_nothing_qualifies _ Hnq). cbv zeta.
  rewrite (lookup_falsy_when_comma _ Hnk (occurs_normalized _ Hc)).
  rewrite partialMatches_none; [reflexivity|].
  intros key data Hin. apply Hnq. unfold keys.
  apply (in_map fst _ _ Hin).
Qed.

Lemma random_point_in_bounds (r1 r2 : Q) :
  (0 <= r1 < 1)%Q -> (0 <= r2 < 1)%Q ->
  (0 <= r1 * 20 <= 20 /\ 0 <= r2 * 15 <= 15)%Q.
Proof. intros H1 H2. Lqa.lra. Qed.

(** C4.  Let the trimmed, lower-cased input be no key and have no
    substring relation with any key (so it is not blank), and let the
    pattern extract two numerals from the original text.  The numbers
    the parser works with are the decimal numbers of the numerals
    rounded to doubles.  If both doubles are in bounds, latitude in
    [0,20] and longitude in [0,15], the parser answers [coordinates]
    with exactly these doubles, the trimmed input as name and type
    "custom"; each double is within the fraction 2^-53 of the decimal
    number it stands for (2^-1075 more in the subnormal range).
    Otherwise (a double out of bounds, or a numeral beyond
    the range of doubles) it answers [estimated], with type "unknown",
    the trimmed input as name and a point made of two random draws,
    which lies in [0,20]x[0,15]. *)
Theorem coordinates_in_bounds_else_estimated
  (random : RandomSource) (text : string) (drawn : nat) (g1 g2 : string) :
  ~ In (trim (toLowerCase text)) (keys locationDatabase) ->
  (forall key, In key (keys locationDatabase) ->
               qualifies key (trim (toLowerCase text)) = false) ->
  coordMatch text = Some (g1, g2) ->
  (forall k, 0 <= random k < 1)%Q ->
  (forall la lo,
      Binary64.round (decimalNumber g1) = Binary64.Finite la ->
      Binary64.round (decimalNumber g2) = Binary64.Finite lo ->
      (0 <= la <= 20 /\ 0 <= lo <= 15)%Q ->
      parseLocationInput random text drawn
      = (Some (mkResolved (Some la) (Some lo) (Some "custom")
                          (trim text) coordinates None), drawn)
      /\ (Qabs (la - decimalNumber g1)
          <= decimalNumber g1 * Binary64.pow2 (-53)
             + Binary64.pow2 (-1075))%Q
      /\ (Qabs (lo - decimalNumber g2)
          <= decimalNumber g2 * Binary64.pow2 (-53)
             + Binary64.pow2 (-1075))%Q)
  /\ (~ (exists la lo,
            Binary64.round (decimalNumber g1) = Binary64.Finite la
            /\ Binary64.round (decimalNumber g2) = Binary64.Finite lo
            /\ (0 <= la <= 20 /\ 0 <= lo <= 15)%Q) ->
      exists randomLat randomLng,
        parseLocationInput random text drawn
        = (Some (mkResolved (Some randomLat) (Some randomLng)
                            (Some "unknown") (trim text) estimated None),
           S (S drawn))
        /\ (0 <= randomLat <= 20 /\ 0 <= randomLng <= 15)%Q).
Proof.
  intros Hnk Hnq Hm Hr.
  destruct (coordMatch_spec _ _ _ Hm) as (C1 & C2 & Hc).
  rewrite (parse_past_scans random text drawn Hnk Hnq Hc), Hm,
    (parseFloat_capture _ C1), (parseFloat_capture _ C2).
  cbv zeta.
  assert (F : exists randomLat randomLng,
             (Some (mkResolved (Some (random drawn * 20)%Q)
                               (Some (random (S drawn) * 15)%Q)
                               (Some "unknown") (trim text) estimated None),
              S (S drawn))
             = (Some (mkResolved (Some randomLat) (Some randomLng)
                                 (Some "unknown") (trim text) estimated None),
                S (S drawn))
             /\ (0 <= randomLat <= 20 /\ 0 <= randomLng <= 15)%Q).
  { exists (random drawn * 20)%Q, (random (S drawn) * 15)%Q.
    split; [reflexivity|]. apply random_point_in_bounds; apply Hr. }
  split.
  - intros la lo E1 E2 [[B1 B2] [B3 B4]]. rewrite E1, E2.
    rewrite (proj2 (inBounds_spec la lo) (conj B1 (conj B2 (conj B3 B4)))).
    split; [reflexivity|]. split.
    + exact (Binary64Facts.round_near _ _ (decimalNumber_nonneg _ C1) E1).
    + exact (Binary64Facts.round_near _ _ (decimalNumber_nonneg _ C2) E2).
  - intro Hout.
    destruct (Binary64.round (decimalNumber g1)) as [la| | |];
      try exact F.
    destruct (Binary64.round (decimalNumber g2)) as [lo| | |];
      try exact F.
    destruct (inBounds la lo) eqn:E; [|exact F].
    exfalso. apply Hout. exists la, lo. apply inBounds_spec in E. tauto.
Qed.

(** The input "3.5, 4.2": the latitude is 3.5 and the longitude is the
    double of 4.2, that is 4728779608739021 / 2^50. *)
Lemma coordinates_in_bounds_else_estimated_witness :
  parseLocationInput (fun _ => 0%Q) "3.5, 4.2" 0
  = (Some (mkResolved (Some (7 # 2)%Q)
                      (Some (4728779608739021 # 1125899906842624)%Q)
                      (Some "custom") "3.5, 4.2" coordinates None), 0).
Proof.
  destruct (coordinates_in_bounds_else_estimated (fun _ => 0%Q) "3.5, 4.2" 0
              "3.5" "4.2") as [H _].
  - unfold keys, locationDatabase. simpl. intro H.
    repeat (destruct H as [H|H]; [discriminate H|]). exact H.
  - unfold keys, locationDatabase. simpl. intros key H.
    repeat (destruct H as [H|H]; [subst key; reflexivity|]). destruct H.
  - reflexivity.
  - intro k. split; [discriminate | reflexivity].
  - destruct (H (7 # 2)%Q (4728779608739021 # 1125899906842624)%Q)
      as [W _].
    + vm_compute. reflexivity.
    + vm_compute. reflexivity.
    + repeat split; discriminate.
    + exact W.
Defined.

(** The claim C4 as it is written fails on a numeral just above a
    bound: the bounds are tested on the doubles, not on the decimal
    numbers; the numeral is read as the double 20, and the parser
    answers [coordinates] although the decimal number is out of
    bounds. *)
Theorem numeral_above_bound_accepted :
  let text := "20.0000000000000000001, 5" in
  coordMatch text = Some ("20.0000000000000000001", "5")
  /\ (20 < decimalNumber "20.0000000000000000001")%Q
  /\ ~ In (trim (toLowerCase text)) (keys locationDatabase)
  /\ (forall key, In key (keys locationDatabase) ->
                  qualifies key (trim (toLowerCase text)) = false)
  /\ forall random drawn,
       parseLocationInput random text drawn
       = (Some (mkResolved (Some 20%Q) (Some 5%Q) (Some "custom")
                           text coordinates None), drawn).
Proof.
  cbv zeta. split; [reflexivity|]. split; [reflexivity|]. split; [|split].
  - unfold keys, locationDatabase. simpl. intro H.
    repeat (destruct H as [H|H]; [discriminate H|]). exact H.
  - unfold keys, locationDatabase. simpl. intros key H.
    repeat (destruct H as [H|H]; [subst key; reflexivity|]). destruct H.
  - intros random drawn. vm_compute. reflexivity.
Qed.

(** The two inputs the specification works out. *)
Example parse_3_5_4_2 :
  parseLocationInput (fun _ => 0%Q) "3.5, 4.2" 0
  = (Some (mkResolved (Some (7 # 2)%Q)
                      (Some (4728779608739021 # 1125899906842624)%Q)
                      (Some "custom") "3.5, 4.2" coordinates None), 0).
Proof. vm_compute. reflexivity. Qed.

Example parse_99_99 :
  parseLocationInput (fun k => (1 # 2)%Q) "99, 99" 0
  = (Some (mkResolved (Some ((1 # 2) * 20)%Q) (Some ((1 # 2) * 15)%Q)
                      (Some "unknown") "99, 99" estimated None), 2).
Proof. vm_compute. reflexivity. Qed.

(** A numeral beyond the range of doubles is read as [Infinity], which
    is out of bounds. *)
Example parse_beyond_range :
  isEstimated
    (fst (parseLocationInput (fun k => (1 # 2)%Q)
            ("5, 1" ++ string_of_list_ascii (repeat "0"%char 400)) 0))
  = true.
Proof. vm_compute. reflexivity. Qed.

(** *** A minus sign before the pair *)

Lemma toLowerUnit_digit (c : ascii) : isDigit c = true -> toLowerUnit c = c.
Proof. each_unit c; intro H; try reflexivity; discriminate H. Qed.

Lemma toLowerUnit_white (c : ascii) : isWhiteSpace c = true -> toLowerUnit c = c.
Proof. each_unit c; intro H; try reflexivity; discriminate H. Qed.

Lemma digit_not_white (c : ascii) : isDigit c = true -> isWhiteSpace c = false.
Proof. each_unit c; intro H; try reflexivity; discriminate H. Qed.

Lemma toLowerCase_app (a b : string) :
  toLowerCase (a ++ b) = toLowerCase a ++ toLowerCase b.
Proof. induction a as [|c a IH]; simpl; congruence. Qed.

Lemma toLowerCase_digits (s : string) : allDigits s = true -> toLowerCase s = s.
Proof.
  induction s as [|c s IH]; simpl; [reflexivity|].
  intro H. apply andb_true_iff in H. destruct H as [Hc Hs].
  now rewrite (toLowerUnit_digit c Hc), (IH Hs).
Qed.

Lemma toLowerCase_white (s : string) : allWhiteSpace s = true -> toLowerCase s = s.
Proof.
  induction s as [|c s IH]; simpl; [reflexivity|].
  intro H. apply andb_true_iff in H. destruct H as [Hc Hs].
  now rewrite (toLowerUnit_white c Hc), (IH Hs).
Qed.

Lemma toLowerCase_capture (g : string) : Capture g -> toLowerCase g = g.
Proof.
  intros [i _ Hi | i f _ Hi Hf].
  - now apply toLowerCase_digits.
  - rewrite !toLowerCase_app, (toLowerCase_digits i Hi), (toLowerCase_digits f Hf).
    reflexivity.
Qed.

Lemma noWhiteSpace_app (a b : string) :
  noWhiteSpace (a ++ b) = noWhiteSpace a && noWhiteSpace b.
Proof.
  induction a as [|c a IH]; simpl; [reflexivity|].
  now rewrite IH, andb_assoc.
Qed.

Lemma noWhiteSpace_digits (s : string) : allDigits s = true -> noWhiteSpace s = true.
Proof.
  induction s as [|c s IH]; simpl; [reflexivity|].
  intro H. apply andb_true_iff in H. destruct H as [Hc Hs].
  now rewrite (digit_not_white c Hc), (IH Hs).
Qed.

Lemma capture_shape (g : string) :
  Capture g ->
  noWhiteSpace g = true
  /\ exists c g', g = String c g' /\ isDigit c = true.
Proof.
  intros [i Hne Hi | i f Hne Hi Hf].
  - split; [now apply noWhiteSpace_digits|].
    destruct i as [|c i]; [contradiction|]. exists c, i.
    simpl in Hi. apply andb_true_iff in Hi. tauto.
  - split.
    + rewrite !noWhiteSpace_app, (noWhiteSpace_digits i Hi),
        (noWhiteSpace_digits f Hf). reflexivity.
    + destruct i as [|c i]; [contradiction|]. exists c, (i ++ "." ++ f).
      simpl in Hi. apply andb_true_iff in Hi. split; [reflexivity | tauto].
Qed.

Lemma trimEnd_noWhiteSpace (s : string) : noWhiteSpace s = true -> trimEnd s = s.
Proof.
  induction s as [|c s IH]; simpl; [reflexivity|].
  intro H. apply andb_true_iff in H. destruct H as [Hc Hs].
  rewrite (IH Hs). apply negb_true_iff in Hc. rewrite Hc.
  destruct s; reflexivity.
Qed.

Lemma trimEnd_suffix (x y : string) :
  noWhiteSpace y = true -> y <> "" -> trimEnd (x ++ y) = x ++ y.
Proof.
  intros Hy Hne. induction x as [|d x IH]; simpl.
  - now apply trimEnd_noWhiteSpace.
  - rewrite IH. destruct (x ++ y) eqn:E; [|reflexivity].
    destruct x; simpl in E; [contradiction | discriminate].
Qed.

Lemma matchNumber_capture (g rest : string) :
  Capture g -> headEndsNumber rest -> matchNumber (g ++ rest) = Some (g, rest).
Proof.
  intros [i Hne Hi | i f Hne Hi Hf] Hr; unfold matchNumber.
  - rewrite (spanDigits_app i rest Hi).
    + destruct i as [|a i]; [contradiction|].
      destruct rest as [|c r]; [reflexivity|].
      destruct Hr as [_ Hdot]. apply Ascii.eqb_neq in Hdot. now rewrite Hdot.
    + destruct rest; simpl in *; tauto.
  - rewrite !append_assoc.
    rewrite (spanDigits_app i ("." ++ f ++ rest) Hi) by reflexivity.
    destruct i as [|a i]; [contradiction|].
    cbn [append Ascii.eqb Bool.eqb].
    rewrite (spanDigits_app f rest Hf); [reflexivity|].
    destruct rest; simpl in *; tauto.
Qed.

Lemma skipWhiteSpace_app (ws g : string) :
  allWhiteSpace ws = true ->
  match g with "" => True | String c _ => isWhiteSpace c = false end ->
  skipWhiteSpace (ws ++ g) = g.
Proof.
  intros Hws Hg. induction ws as [|c ws IH]; simpl.
  - destruct g; simpl in *; [reflexivity | now rewrite Hg].
  - simpl in Hws. apply andb_true_iff in Hws. destruct Hws as [Hc Hws].
    rewrite Hc. now apply IH.
Qed.

(** The pattern finds a pair that follows text without digits, such as
    a minus sign, and is followed by text that does not prolong its
    second number. *)
Lemma coordMatch_after_prefix (pre post g1 g2 ws : string) :
  noDigits pre = true -> headEndsNumber post ->
  Capture g1 -> Capture g2 -> allWhiteSpace ws = true ->
  coordMatch (pre ++ g1 ++ "," ++ ws ++ g2 ++ post) = Some (g1, g2).
Proof.
  intros Hpre Hpost C1 C2 Hws.
  destruct (capture_shape g1 C1) as (_ & c1 & g1' & E1 & D1).
  destruct (capture_shape g2 C2) as (_ & c2 & g2' & E2 & D2).
  assert (M : matchAt (g1 ++ "," ++ ws ++ g2 ++ post) = Some (g1, g2)).
  { unfold matchAt.
    rewrite (matchNumber_capture g1 ("," ++ ws ++ g2 ++ post) C1)
      by (split; [reflexivity | discriminate]).
    cbn [append Ascii.eqb Bool.eqb].
    rewrite (skipWhiteSpace_app ws (g2 ++ post) Hws)
      by (rewrite E2; now apply digit_not_white).
    now rewrite (matchNumber_capture g2 post C2 Hpost). }
  induction pre as [|c pre IH].
  - cbn [append]. rewrite E1 in M |- *. cbn [append coordMatch] in M |- *.
    now rewrite M.
  - cbn [noDigits] in Hpre. apply andb_true_iff in Hpre.
    destruct Hpre as [Hc Hpre]. apply negb_true_iff in Hc.
    assert (N : forall r, matchAt (String c r) = None).
    { intro r. unfold matchAt, matchNumber. cbn [spanDigits]. now rewrite Hc. }
    cbn [append coordMatch]. rewrite N. exact (IH Hpre).
Qed.

Lemma coordMatch_signed (g1 g2 ws : string) :
  Capture g1 -> Capture g2 -> allWhiteSpace ws = true ->
  coordMatch ("-" ++ g1 ++ "," ++ ws ++ g2) = Some (g1, g2).
Proof.
  intros C1 C2 Hws.
  rewrite <- (append_empty_r g2) at 1.
  now apply (coordMatch_after_prefix "-" "" g1 g2 ws).
Qed.

Lemma prefix_occurs (t s : string) (c : ascii) :
  prefix t s = true -> occurs c t = true -> occurs c s = true.
Proof.
  revert s. induction t as [|a t IH]; intros s Hp Ho; [discriminate Ho|].
  destruct s as [|b s]; [discriminate Hp|].
  simpl in Hp. destruct (ascii_dec a b) as [->|]; [|discriminate Hp].
  cbn [occurs] in Ho |- *. apply orb_true_iff in Ho. destruct Ho as [Ho|Ho].
  - now rewrite Ho.
  - rewrite (IH s Hp Ho). apply orb_true_r.
Qed.

(** Every code unit of a substring occurs in the string. *)
Lemma includes_occurs (s t : string) (c : ascii) :
  includes s t = true -> occurs c t = true -> occurs c s = true.
Proof.
  induction s as [|a s IH]; cbn [includes]; intros Hi Ho.
  - destruct (prefix t "") eqn:P; [|discriminate Hi].
    exact (prefix_occurs _ _ _ P Ho).
  - destruct (prefix t (String a s)) eqn:P.
    + exact (prefix_occurs _ _ _ P Ho).
    + cbn [occurs]. rewrite (IH Hi Ho). apply orb_true_r.
Qed.

Lemma occurs_digits (c : ascii) (s : string) :
  isDigit c = false -> allDigits s = true -> occurs c s = false.
Proof.
  intro Hc. induction s as [|d s IH]; cbn [occurs allDigits]; [reflexivity|].
  intro H. apply andb_true_iff in H. destruct H as [Hd Hs].
  rewrite (IH Hs), orb_false_r. apply Ascii.eqb_neq. congruence.
Qed.

Lemma occurs_white (c : ascii) (s : string) :
  isWhiteSpace c = false -> allWhiteSpace s = true -> occurs c s = false.
Proof.
  intro Hc. induction s as [|d s IH]; cbn [occurs allWhiteSpace]; [reflexivity|].
  intro H. apply andb_true_iff in H. destruct H as [Hd Hs].
  rewrite (IH Hs), orb_false_r. apply Ascii.eqb_neq. congruence.
Qed.

Lemma occurs_capture (c : ascii) (g : string) :
  isDigit c = false -> Ascii.eqb c "." = false -> Capture g ->
  occurs c g = false.
Proof.
  intros Hc Hdot [i _ Hi | i f _ Hi Hf].
  - now apply occurs_digits.
  - rewrite !occurs_app, (occurs_digits c i Hc Hi), (occurs_digits c f Hc Hf).
    cbn [occurs]. now rewrite Hdot.
Qed.

(** The signed pair holds a minus sign, digits, dots, a comma and white
    space, and nothing else. *)
Lemma occurs_signed (c : ascii) (g1 g2 ws : string) :
  Capture g1 -> Capture g2 -> allWhiteSpace ws = true ->
  isDigit c = false -> isWhiteSpace c = false ->
  Ascii.eqb c "-" = false -> Ascii.eqb c "." = false ->
  Ascii.eqb c "," = false ->
  occurs c ("-" ++ g1 ++ "," ++ ws ++ g2) = false.
Proof.
  intros C1 C2 Hws Hd Hw Hm Hdot Hcomma.
  rewrite !occurs_app, (occurs_capture c g1 Hd Hdot C1),
    (occurs_capture c g2 Hd Hdot C2), (occurs_white c ws Hw Hws).
  cbn [occurs]. now rewrite Hm, Hcomma.
Qed.

Lemma signed_pair_unrelated (g1 g2 ws : string) :
  Capture g1 -> Capture g2 -> allWhiteSpace ws = true ->
  ~ In ("-" ++ g1 ++ "," ++ ws ++ g2) (keys locationDatabase)
  /\ forall key, In key (keys locationDatabase) ->
                 qualifies key ("-" ++ g1 ++ "," ++ ws ++ g2) = false.
Proof.
  intros C1 C2 Hws. split.
  - unfold keys, locationDatabase. simpl. intro H.
    repeat (destruct H as [H|H]; [discriminate H|]). exact H.
  - intros key Hk. unfold qualifies. apply orb_false_iff. split.
    + unfold keys, locationDatabase in Hk. simpl in Hk.
      repeat (destruct Hk as [Hk|Hk]; [subst key; reflexivity|]).
      destruct Hk.
    + destruct (includes ("-" ++ g1 ++ "," ++ ws ++ g2) key) eqn:E;
        [exfalso | reflexivity].
      assert (Hno : forall c, isDigit c = false -> isWhiteSpace c = false ->
                Ascii.eqb c "-" = false -> Ascii.eqb c "." = false ->
                Ascii.eqb c "," = false -> occurs c key = false).
      { intros c Hd Hw Hm Hdot Hcomma.
        destruct (occurs c key) eqn:O; [|reflexivity].
        rewrite <- (includes_occurs _ _ c E O).
        now apply occurs_signed. }
      unfold keys, locationDatabase in Hk. simpl in Hk.
      repeat (destruct Hk as [Hk|Hk];
              [subst key;
               match type of E with
               | includes _ (String ?c _) = true =>
                   specialize (Hno c eq_refl eq_refl eq_refl eq_refl eq_refl)
               end;
               discriminate Hno|]).
      destruct Hk.
Qed.

Lemma signed_pair_normalized (g1 g2 ws : string) :
  Capture g1 -> Capture g2 -> allWhiteSpace ws = true ->
  trim ("-" ++ g1 ++ "," ++ ws ++ g2) = "-" ++ g1 ++ "," ++ ws ++ g2
  /\ toLowerCase ("-" ++ g1 ++ "," ++ ws ++ g2) = "-" ++ g1 ++ "," ++ ws ++ g2.
Proof.
  intros C1 C2 Hws. split.
  - unfold trim.
    change (trimStart ("-" ++ g1 ++ "," ++ ws ++ g2))
      with ("-" ++ g1 ++ "," ++ ws ++ g2).
    destruct (capture_shape g2 C2) as (Hn & c & g' & E & _).
    assert (A : "-" ++ g1 ++ "," ++ ws ++ g2 = ("-" ++ g1 ++ "," ++ ws) ++ g2).
    { cbn [append]. f_equal. rewrite !append_assoc. reflexivity. }
    rewrite A.
    apply trimEnd_suffix; [exact Hn | rewrite E; discriminate].
  - rewrite !toLowerCase_app, (toLowerCase_capture g1 C1),
      (toLowerCase_capture g2 C2), (toLowerCase_white ws Hws).
    reflexivity.
Qed.

(** A signed pair on its own, in bounds: no key of the database is
    related to it, and the parser answers with the unsigned numbers. *)
Lemma signed_pair_alone
  (random : RandomSource) (drawn : nat) (g1 g2 ws : string) (la lo : Q) :
  Capture g1 -> Capture g2 -> allWhiteSpace ws = true ->
  parseFloat g1 = Some la -> parseFloat g2 = Some lo ->
  (la <= 20)%Q -> (lo <= 15)%Q ->
  parseLocationInput random ("-" ++ g1 ++ "," ++ ws ++ g2) drawn
  = (Some (mkResolved (Some la) (Some lo) (Some "custom")
                      ("-" ++ g1 ++ "," ++ ws ++ g2) coordinates None),
     drawn).
Proof.
  intros C1 C2 Hws Hla Hlo Bla Blo.
  pose proof (coordMatch_signed g1 g2 ws C1 C2 Hws) as Hm.
  destruct (signed_pair_unrelated g1 g2 ws C1 C2 Hws) as [Hnk Hnq].
  destruct (signed_pair_normalized g1 g2 ws C1 C2 Hws) as [Ht Hl].
  pose proof (parseFloat_nonneg g1 la C1 Hla) as Pla.
  pose proof (parseFloat_nonneg g2 lo C2 Hlo) as Plo.
  rewrite parse_past_scans.
  - rewrite Hm, Hla, Hlo, Ht. cbv zeta.
    now rewrite (proj2 (inBounds_spec la lo)
                   (conj Pla (conj Bla (conj Plo Blo)))).
  - now rewrite Hl, Ht.
  - now rewrite Hl, Ht.
  - destruct (coordMatch_spec _ _ _ Hm) as (_ & _ & Hc). exact Hc.
Qed.

(** *** Text before the minus sign

    A minus sign is no part of the pattern: no match runs across it, so
    the pattern matches in a text up to a minus sign what it matches in
    the text before it. *)









(** The pair of the claim, alone and inside a sentence. *)
Example sign_dropped_alone :
  parseLocationInput (fun _ => 0%Q) "-5, 5" 0
  = (Some (mkResolved (Some 5%Q) (Some 5%Q) (Some "custom")
                      "-5, 5" coordinates None), 0).
Proof. vm_compute. reflexivity. Qed.

Example sign_dropped_in_sentence :
  parseLocationInput (fun _ => 0%Q) "go to -3.5,4." 0
  = (Some (mkResolved (Some (7 # 2)%Q) (Some 4%Q) (Some "custom")
                      "go to -3.5,4." coordinates None), 0).
Proof. vm_compute. reflexivity. Qed.

End CoordinateFacts.

Import CoordinateFacts.

(** ** The location parser and its random source *)

Module RandomFacts.

Open Scope string_scope.

(** The parser reads its random source on the fallback only, and there
    it reads exactly the next two draws. *)
Lemma parse_cases (random : RandomSource) (text : string) (drawn : nat) :
  (exists r, isEstimated r = false
             /\ forall random' drawn',
                  parseLocationInput random' text drawn' = (r, drawn'))
  \/ (forall random' drawn',
        parseLocationInput random' text drawn'
        = (Some (mkResolved (Some (random' drawn' * 20)%Q)
                            (Some (random' (S drawn') * 15)%Q)
                            (Some "unknown") (trim text) estimated None),
           S (S drawn'))).
Proof.
  unfold parseLocationInput.
  destruct (String.eqb text "" || String.eqb (trim text) "").
  { left. exists None. split; reflexivity. }
  cbv zeta.
  destruct (truthy (getProperty locationDatabase (trim (toLowerCase text)))).
  { left. eexists. split; [|reflexivity].
    destruct (getProperty _ _); reflexivity. }
  destruct (partialMatches (Object_entries locationDatabase)
              (trim (toLowerCase text))) as [|m tl] eqn:P.
  2:{ left. exists (Some m). split; [|reflexivity].
      clear -P. revert P.
      induction (Object_entries locationDatabase) as [|[k d] rest IH];
        simpl; [discriminate|].
      destruct (qualifies k _); [|exact IH].
      intros [= <- _]. reflexivity. }
  destruct (coordMatch text) as [[g1 g2]|]; [|right; reflexivity].
  destruct (parseFloat g1) as [la|]; [|right; reflexivity].
  destruct (parseFloat g2) as [lo|]; [|right; reflexivity].
  destruct (inBounds la lo); [|right; reflexivity].
  left. eexists. split; [|reflexivity]. reflexivity.
Qed.

(** C9, as amended.  The parser is a function of the input text, of the
    database and, on the estimated fallback only, of the next two draws
    of [Math.random]: two evaluations on the same text return the same
    object whenever, should the first answer [estimated], they are given
    the same two draws; an evaluation that does not answer [estimated]
    draws nothing, and one that does draws twice. *)
Theorem parser_function_of_text_and_draws
  (random random' : RandomSource) (text : string) (drawn drawn' : nat) :
  (isEstimated (fst (parseLocationInput random text drawn)) = true ->
   random drawn = random' drawn' /\ random (S drawn) = random' (S drawn')) ->
  fst (parseLocationInput random text drawn)
  = fst (parseLocationInput random' text drawn')
  /\ snd (parseLocationInput random text drawn)
     = if isEstimated (fst (parseLocationInput random text drawn))
       then S (S drawn) else drawn.
Proof.
  destruct (parse_cases random text drawn) as [(r & Hr & H)|H]; intro Hd.
  - rewrite (H random drawn), (H random' drawn'). simpl. now rewrite Hr.
  - rewrite (H random drawn), (H random' drawn') in *. simpl in *.
    destruct (Hd eq_refl) as [-> ->]. split; reflexivity.
Qed.

Lemma parser_function_of_text_and_draws_witness :
  fst (parseLocationInput (fun _ => 0%Q) "somewhere else" 0)
  = fst (parseLocationInput (fun k => if (k <? 7)%nat then (1 # 2)%Q else 0%Q)
           "somewhere else" 7)
  /\ snd (parseLocationInput (fun _ => 0%Q) "somewhere else" 0)
     = if isEstimated (fst (parseLocationInput (fun _ => 0%Q)
                              "somewhere else" 0))
       then 2 else 0.
Proof.
  apply (parser_function_of_text_and_draws (fun _ => 0%Q)
           (fun k => if (k <? 7)%nat then (1 # 2)%Q else 0%Q)
           "somewhere else" 0 7).
  intros _. split; reflexivity.
Defined.

(** The claim C9 as it is written fails on the fallback: two evaluations
    of the parser in a row, on the same text, draw different numbers. *)
Lemma parser_not_deterministic_on_fallback :
  let random : RandomSource := fun k => Qmake (Z.of_nat k) (Pos.of_nat (S k)) in
  let first := parseLocationInput random "somewhere else" 0 in
  let second := parseLocationInput random "somewhere else" (snd first) in
  isEstimated (fst first) = true
  /\ isEstimated (fst second) = true
  /\ fst first <> fst second.
Proof.
  cbv zeta. split; [reflexivity|]. split; [reflexivity|].
  vm_compute. discriminate.
Qed.

End RandomFacts.

(** ** The geo mapper *)

Module GeoFacts.

Open Scope string_scope.

Ltac by_cases_Qle :=
  repeat match goal with
         | |- context [Qle_bool ?a ?b] =>
             let E := fresh "E" in
             destruct (Qle_bool a b) eqn:E;
             [apply Qle_bool_iff in E
             |let N := fresh "N" in
              assert (N : ~ (a <= b)%Q)
                by (let K := fresh "K" in
                    intro K; apply Qle_bool_iff in K; congruence);
              clear E]
         end.

Lemma Math_max_min_clamp (v hi : Q) :
  (0 <= hi)%Q ->
  (Math_max 0 (Math_min hi v) == clamp v 0 hi)%Q
  /\ (0 <= Math_max 0 (Math_min hi v) <= hi)%Q.
Proof.
  intro Hhi. unfold Math_min, clamp. by_cases_Qle;
    unfold Math_max; by_cases_Qle; cbn [negb]; split; Lqa.lra.
Qed.

(** C7.  The conversion of a GPS fix is the affine map of the
    specification followed by its clamp, for the latitude to [0,20] and
    for the longitude to [0,15]; the result lies in these bounds, and the
    fix (40.0, -74.0) is sent to (10, 7.5). *)
Theorem toLocalSpace_affine_then_clamp (gpsLat gpsLng : Q) :
  (fst (toLocalSpace gpsLat gpsLng)
   == clamp ((gpsLat - 40.0) * 20 + 10) 0 20)%Q
  /\ (snd (toLocalSpace gpsLat gpsLng)
      == clamp ((gpsLng + 74.0) * 15 + 7.5) 0 15)%Q
  /\ (0 <= fst (toLocalSpace gpsLat gpsLng) <= 20)%Q
  /\ (0 <= snd (toLocalSpace gpsLat gpsLng) <= 15)%Q
  /\ (fst (toLocalSpace 40.0 (-74.0)) == 10)%Q
  /\ (snd (toLocalSpace 40.0 (-74.0)) == 7.5)%Q.
Proof.
  unfold toLocalSpace. cbn [fst snd].
  destruct (Math_max_min_clamp ((gpsLat - 40.0) * 20 + 10) 20) as [H1 H2];
    [Lqa.lra|].
  destruct (Math_max_min_clamp ((gpsLng + 74.0) * 15 + 7.5) 15) as [H3 H4];
    [Lqa.lra|].
  repeat split; try tauto; reflexivity.
Qed.

(** *** The nearest entry *)

Lemma squaredDistance_nonneg (data : LocationData) (la lo : Q) :
  (0 <= squaredDistance data la lo)%Q.
Proof.
  unfold squaredDistance.
  generalize (lat data - la)%Q, (lng data - lo)%Q. intros a b.
  Lqa.nra.
Qed.

Lemma Q2R_squaredDistance (data : LocationData) (la lo : Q) :
  Q2R (squaredDistance data la lo)
  = ((Q2R (lat data) - Q2R la) ^ 2 + (Q2R (lng data) - Q2R lo) ^ 2)%R.
Proof.
  unfold squaredDistance. cbn [Qpower Qpower_positive pow_pos].
  rewrite Q2R_plus, !Q2R_mult, !Q2R_minus. ring.
Qed.

Lemma euclidean_lt (d d' : LocationData) (la lo : Q) :
  (squaredDistance d la lo < squaredDistance d' la lo)%Q ->
  (euclideanDistance d la lo < euclideanDistance d' la lo)%R.
Proof.
  intro H. unfold euclideanDistance. rewrite <- !Q2R_squaredDistance.
  apply sqrt_lt_1_alt. split.
  - rewrite <- RMicromega.Q2R_0. apply Qle_Rle, squaredDistance_nonneg.
  - now apply Qlt_Rlt.
Qed.

Lemma euclidean_le (d d' : LocationData) (la lo : Q) :
  (squaredDistance d la lo <= squaredDistance d' la lo)%Q ->
  (euclideanDistance d la lo <= euclideanDistance d' la lo)%R.
Proof.
  intro H. unfold euclideanDistance. rewrite <- !Q2R_squaredDistance.
  apply sqrt_le_1_alt. now apply Qle_Rle.
Qed.

(** *** The computed distance *)

Lemma distanceTo_isDistance (data : LocationData) (la lo : Q) :
  Binary64.isDistance (distanceTo data la lo).
Proof.
  unfold distanceTo.
  apply Binary64Facts.isDistance_sqrt, Binary64Facts.isDistance_add;
    apply Binary64Facts.isDistance_square, Binary64Facts.sub_finite_not_NaN.
Qed.

Lemma round_finite_below (q B : Q) :
  (Qabs q <= B)%Q -> (B <= Binary64.pow2 1022)%Q ->
  exists r, Binary64.round q = Binary64.Finite r /\ (Qabs r <= 2 * B)%Q.
Proof.
  intros H1 H2.
  destruct (Binary64Facts.round_finite q) as (r & E & K); [Lqa.lra|].
  exists r. split; [exact E | Lqa.lra].
Qed.

(** No operation of the distance overflows on coordinates of absolute
    value up to 2^500. *)
Lemma distanceTo_finite (data : LocationData) (la lo : Q) :
  (Qabs (lat data) <= Binary64.pow2 500)%Q ->
  (Qabs (lng data) <= Binary64.pow2 500)%Q ->
  (Qabs la <= Binary64.pow2 500)%Q -> (Qabs lo <= Binary64.pow2 500)%Q ->
  exists r, distanceTo data la lo = Binary64.Finite r.
Proof.
  intros A1 A2 A3 A4.
  assert (T1 : (2 * Binary64.pow2 500 <= Binary64.pow2 1022)%Q)
    by (vm_compute; discriminate).
  assert (T2 : ((2 * (2 * Binary64.pow2 500)) * (2 * (2 * Binary64.pow2 500))
                <= Binary64.pow2 1022)%Q) by (vm_compute; discriminate).
  assert (T3 : (2 * ((2 * (2 * Binary64.pow2 500))
                     * (2 * (2 * Binary64.pow2 500)))
                + 2 * ((2 * (2 * Binary64.pow2 500))
                       * (2 * (2 * Binary64.pow2 500)))
                <= Binary64.pow2 1022)%Q) by (vm_compute; discriminate).
  revert A1 A2 A3 A4 T1 T2 T3. generalize (Binary64.pow2 500) as B.
  intros B A1 A2 A3 A4 T1 T2 T3.
  assert (D : forall a b, (Qabs a <= B)%Q -> (Qabs b <= B)%Q ->
            exists s, Binary64.square
                        (Binary64.sub (Binary64.Finite a) (Binary64.Finite b))
                      = Binary64.Finite s
                      /\ (0 <= s)%Q
                      /\ (s <= 2 * ((2 * (2 * B)) * (2 * (2 * B))))%Q).
  { intros a b Ha Hb.
    pose proof (Binary64Facts.isDistance_square
                  _ (Binary64Facts.sub_finite_not_NaN a b)) as N.
    cbn [Binary64.sub Binary64.neg Binary64.add] in N |- *.
    destruct (round_finite_below (a + - b) (2 * B)) as (d & E & Hd);
      [|exact T1|].
    { eapply Qle_trans; [apply Qabs_triangle|].
      rewrite Qabs_opp. Lqa.lra. }
    rewrite E in N |- *. cbn [Binary64.square] in N |- *.
    destruct (round_finite_below (d * d) ((2 * (2 * B)) * (2 * (2 * B))))
      as (sq & E' & Hs); [|exact T2|].
    { rewrite Qabs_Qmult. pose proof (Qabs_nonneg d). Lqa.nra. }
    rewrite E' in N |- *. exists sq. split; [reflexivity|].
    cbn [Binary64.isDistance] in N. split; [exact N|].
    rewrite <- (Qabs_pos sq N). exact Hs. }
  destruct (D (lat data) la A1 A3) as (s1 & E1 & P1 & U1).
  destruct (D (lng data) lo A2 A4) as (s2 & E2 & P2 & U2).
  unfold distanceTo. rewrite E1, E2. cbn [Binary64.add].
  pose proof (Binary64Facts.round_nonneg (s1 + s2)) as N.
  destruct (round_finite_below (s1 + s2)
              (2 * ((2 * (2 * B)) * (2 * (2 * B)))
               + 2 * ((2 * (2 * B)) * (2 * (2 * B)))))
    as (t & E & _); [|exact T3|].
  { rewrite Qabs_pos by Lqa.lra. Lqa.lra. }
  rewrite E in N |- *. cbn [Binary64.sqrt].
  assert (Ht : (0 <= t)%Q) by (apply N; Lqa.lra).
  apply Qle_bool_iff in Ht. rewrite Ht. now eexists.
Qed.

(** A bound on the squared distances, with a factor and a margin,
    gives one on the distances. *)
Lemma euclidean_almost (d d' : LocationData) (la lo e c : Q) :
  (0 <= e)%Q -> (0 <= c)%Q ->
  (squaredDistance d la lo <= (1 + e) * squaredDistance d' la lo + c * c)%Q ->
  (euclideanDistance d la lo
   <= (1 + Q2R e) * euclideanDistance d' la lo + Q2R c)%R.
Proof.
  intros He Hc H. unfold euclideanDistance. rewrite <- !Q2R_squaredDistance.
  apply Qle_Rle in H, He, Hc.
  rewrite Q2R_plus, !Q2R_mult, Q2R_plus in H.
  rewrite RMicromega.Q2R_0 in He, Hc. rewrite RMicromega.Q2R_1 in H.
  pose proof (squaredDistance_nonneg d' la lo) as P0.
  apply Qle_Rle in P0. rewrite RMicromega.Q2R_0 in P0.
  revert H He Hc P0.
  generalize (Q2R (squaredDistance d la lo)) as P,
    (Q2R (squaredDistance d' la lo)) as P', (Q2R e) as e', (Q2R c) as c'.
  intros P P' e' c' H He Hc P0.
  pose proof (sqrt_pos P') as S0. pose proof (sqrt_sqrt P' P0) as SS.
  set (E := sqrt P') in *.
  assert (R0 : (0 <= (1 + e') * E + c')%R) by nra.
  rewrite <- (sqrt_square _ R0).
  apply sqrt_le_1_alt.
  assert (0 <= e' * P')%R by nra.
  assert (0 <= E * c')%R by nra.
  assert (0 <= e' * (E * c'))%R by nra.
  assert (0 <= e' * (e' * P'))%R by nra.
  nra.
Qed.

(** The computed distance against the exact one.  With [X] a bound of
    the two coordinate differences, the square of a finite computed
    distance and the exact squared distance are within a factor
    1 + 2^-49 of each other, up to (X + 1) * 2^-1070, the share of the
    subnormal range. *)
Lemma distanceTo_accurate (data : LocationData) (la lo r X : Q) :
  distanceTo data la lo = Binary64.Finite r ->
  (Qabs (lat data - la) <= X)%Q -> (Qabs (lng data - lo) <= X)%Q ->
  (r * r <= (1 + Binary64.pow2 (-49)) * squaredDistance data la lo
            + (X + 1) * Binary64.pow2 (-1070))%Q
  /\ (squaredDistance data la lo
      <= (1 + Binary64.pow2 (-49)) * (r * r)
         + (X + 1) * Binary64.pow2 (-1070))%Q.
Proof.
  unfold distanceTo, Binary64.sub, Binary64.neg, squaredDistance.
  cbn [Binary64.add].
  destruct (Binary64.round (lat data + - la)) as [dx| | |] eqn:E1;
    destruct (Binary64.round (lng data + - lo)) as [dy| | |] eqn:E2;
    cbn [Binary64.square Binary64.add Binary64.sqrt];
    try discriminate;
    try (destruct (Binary64.round (dx * dx)); discriminate);
    try (destruct (Binary64.round (dy * dy)); discriminate).
  destruct (Binary64.round (dx * dx)) as [sx| | |] eqn:E3;
    destruct (Binary64.round (dy * dy)) as [sy| | |] eqn:E4;
    cbn [Binary64.add Binary64.sqrt]; try discriminate.
  destruct (Binary64.round (sx + sy)) as [t| | |] eqn:E5;
    cbn [Binary64.sqrt]; try discriminate.
  destruct (Qle_bool 0 t) eqn:T0; [|discriminate].
  apply Qle_bool_imp_le in T0.
  intros [= <-] HX HY.
  pose proof (Binary64Facts.round_accurate _ _ E1) as A1.
  pose proof (Binary64Facts.round_accurate _ _ E2) as A2.
  pose proof (Binary64Facts.round_accurate _ _ E3) as A3.
  pose proof (Binary64Facts.round_accurate _ _ E4) as A4.
  pose proof (Binary64Facts.round_accurate _ _ E5) as A5.
  assert (X0 : (0 <= X)%Q)
    by (pose proof (Qabs_nonneg (lat data - la)); Lqa.lra).
  assert (SX : (0 <= sx)%Q).
  { assert (K := Binary64Facts.round_nonneg (dx * dx) ltac:(Lqa.nra)).
    rewrite E3 in K. exact K. }
  assert (SY : (0 <= sy)%Q).
  { assert (K := Binary64Facts.round_nonneg (dy * dy) ltac:(Lqa.nra)).
    rewrite E4 in K. exact K. }
  destruct (Binary64Facts.sqrtRounded_square t T0) as [R1 R2].
  revert R1 R2. generalize (Binary64.sqrtRounded t) as r. intros r R1 R2.
  assert (U : (0 <= Binary64.pow2 (-53) <= 1 # 1024)%Q)
    by (split; vm_compute; discriminate).
  assert (H : (0 <= Binary64.pow2 (-1075) <= 1)%Q)
    by (split; vm_compute; discriminate).
  assert (U49 : (Binary64.pow2 (-49) == 16 * Binary64.pow2 (-53))%Q)
    by reflexivity.
  assert (H70 : (Binary64.pow2 (-1070) == 32 * Binary64.pow2 (-1075))%Q)
    by reflexivity.
  revert A1 A2 A3 A4 A5 R1 R2 U H U49 H70.
  generalize (Binary64.pow2 (-53)) as u, (Binary64.pow2 (-1075)) as h,
    (Binary64.pow2 (-49)) as u', (Binary64.pow2 (-1070)) as h'.
  intros u h u' h' A1 A2 A3 A4 A5 R1 R2 [U0 U1] [H0 H1] U49 H70.
  assert (B1 := Binary64Facts.square_error (lat data + - la) dx sx u h X
                  ltac:(split; Lqa.lra) (conj H0 H1) HX A1 A3).
  assert (B2 := Binary64Facts.square_error (lng data + - lo) dy sy u h X
                  ltac:(split; Lqa.lra) (conj H0 H1) HY A2 A4).
  set (x := (lat data + - la)%Q) in *. set (y := (lng data + - lo)%Q) in *.
  set (T := (4 * X * h + 2 * h * h + h)%Q) in *.
  assert (T0' : (0 <= T)%Q) by (unfold T; Lqa.nra).
  assert (P0 : (0 <= x * x + y * y)%Q) by Lqa.nra.
  assert (B3 : (Qabs (sx + sy - (x * x + y * y))
                <= 5 * u * (x * x + y * y) + 2 * T)%Q).
  { apply Qabs_Qle_condition in B1. apply Qabs_Qle_condition in B2.
    apply Qabs_Qle_condition. split; Lqa.lra. }
  destruct (Binary64Facts.sum_error (x * x + y * y) (sx + sy) t u h T
              ltac:(split; Lqa.lra) H0 T0' P0 B3 ltac:(Lqa.lra) A5)
    as [C1 C2].
  destruct (Binary64Facts.root_error (x * x + y * y) t r u (3 * T + h)
              (conj U0 U1) ltac:(Lqa.lra) P0 T0 C1 C2 R1 R2) as [D1 D2].
  assert (E : ((lat data - la) ^ 2 + (lng data - lo) ^ 2
               == x * x + y * y)%Q) by (unfold x, y; ring).
  rewrite E.
  assert (UP : (0 <= u * (x * x + y * y))%Q) by Lqa.nra.
  assert (UR : (0 <= u * (r * r))%Q) by Lqa.nra.
  assert (W : (2 * (3 * T + h) <= (X + 1) * h')%Q).
  { unfold T. assert (0 <= X * h)%Q by Lqa.nra.
    assert (h * h <= h)%Q by Lqa.nra. Lqa.nra. }
  split; Lqa.nra.
Qed.

(** An entry whose computed distance is not larger than that of another
    is nearer than it, or farther by no more than the rounding error:
    its exact squared distance exceeds the other one by a factor of at
    most 1 + 2^-47, up to (X + 1) * 2^-1068. *)
Lemma nearly_nearest (d d' : LocationData) (la lo r r' X : Q) :
  distanceTo d la lo = Binary64.Finite r ->
  distanceTo d' la lo = Binary64.Finite r' ->
  (r <= r')%Q ->
  (Qabs (lat d - la) <= X)%Q -> (Qabs (lng d - lo) <= X)%Q ->
  (Qabs (lat d' - la) <= X)%Q -> (Qabs (lng d' - lo) <= X)%Q ->
  (squaredDistance d la lo
   <= (1 + Binary64.pow2 (-47)) * squaredDistance d' la lo
      + (X + 1) * Binary64.pow2 (-1068))%Q.
Proof.
  intros E E' L B1 B2 B3 B4.
  destruct (distanceTo_accurate d la lo r X E B1 B2) as [_ A].
  destruct (distanceTo_accurate d' la lo r' X E' B3 B4) as [A' _].
  assert (R0 : (0 <= r)%Q).
  { pose proof (distanceTo_isDistance d la lo) as K.
    rewrite E in K. exact K. }
  assert (X0 : (0 <= X)%Q)
    by (pose proof (Qabs_nonneg (lat d - la)); Lqa.lra).
  pose proof (squaredDistance_nonneg d' la lo) as P0.
  assert (U : (0 <= Binary64.pow2 (-49) <= 1 # 1024)%Q)
    by (split; vm_compute; discriminate).
  assert (H : (0 <= Binary64.pow2 (-1070))%Q) by (vm_compute; discriminate).
  assert (U47 : (Binary64.pow2 (-47) == 4 * Binary64.pow2 (-49))%Q)
    by reflexivity.
  assert (H68 : (Binary64.pow2 (-1068) == 4 * Binary64.pow2 (-1070))%Q)
    by reflexivity.
  revert A A' P0 U H U47 H68.
  generalize (squaredDistance d la lo) as P,
    (squaredDistance d' la lo) as P',
    (Binary64.pow2 (-49)) as u, (Binary64.pow2 (-1070)) as h,
    (Binary64.pow2 (-47)) as u', (Binary64.pow2 (-1068)) as h'.
  intros P P' u h u' h' A A' P0 [U0 U1] H U47 H68.
  assert (RR : (r * r <= r' * r')%Q) by Lqa.nra.
  assert (K0 : (u * (r * r) <= u * (r' * r'))%Q) by Lqa.nra.
  assert (S0 : (0 <= (X + 1) * h)%Q) by Lqa.nra.
  assert (UP : (0 <= u * P')%Q) by Lqa.nra.
  assert (K1 : (u * (r' * r')
                <= u * ((1 + u) * P' + (X + 1) * h))%Q) by Lqa.nra.
  assert (K2 : (u * (u * P') <= (1 # 1024) * (u * P'))%Q) by Lqa.nra.
  assert (K3 : (u * ((X + 1) * h) <= (1 # 1024) * ((X + 1) * h))%Q)
    by Lqa.nra.
  assert (K4 : (u' * P' == 4 * (u * P'))%Q) by (rewrite U47; ring).
  assert (K5 : ((X + 1) * h' == 4 * ((X + 1) * h))%Q)
    by (rewrite H68; ring).
  Lqa.lra.
Qed.

(** The loop, started with any candidate and any bound. *)
Lemma nearestLoop_from (la lo : Q) (entries : list (string * LocationData)) :
  forall current minDistance,
    (nearestLoop entries la lo current minDistance = current
     /\ forall n d, In (n, d) entries ->
          Binary64.ltb (distanceTo d la lo) minDistance = false)
    \/ exists before name data after,
         entries = (before ++ (name, data) :: after)%list
         /\ nearestLoop entries la lo current minDistance
            = Some (entryOf name data)
         /\ Binary64.ltb (distanceTo data la lo) minDistance = true
         /\ (forall n d, In (n, d) before ->
               Binary64.ltb (distanceTo data la lo) (distanceTo d la lo)
               = true)
         /\ (forall n d, In (n, d) after ->
               Binary64.ltb (distanceTo d la lo) (distanceTo data la lo)
               = false).
Proof.
  induction entries as [|[n1 d1] rest IH]; intros current minDistance.
  - left. split; [reflexivity | intros ? ? []].
  - cbn [nearestLoop].
    destruct (Binary64.ltb (distanceTo d1 la lo) minDistance) eqn:E.
    + destruct (IH (Some (entryOf n1 d1)) (distanceTo d1 la lo))
        as [[H1 H2] | (before & name & data & after & H1 & H2 & H3 & H4 & H5)].
      * right. exists [], n1, d1, rest.
        repeat split; try assumption. intros ? ? [].
      * right. exists ((n1, d1) :: before), name, data, after.
        repeat split; try assumption.
        -- simpl. now rewrite H1.
        -- exact (Binary64Facts.ltb_trans _ _ _ H3 E).
        -- intros n d [K|K]; [injection K as <- <-; exact H3 | eauto].
    + destruct (IH current minDistance)
        as [[H1 H2] | (before & name & data & after & H1 & H2 & H3 & H4 & H5)].
      * left. split; [exact H1|].
        intros n d [K|K]; [injection K as <- <-; exact E | eauto].
      * right. exists ((n1, d1) :: before), name, data, after.
        repeat split; try assumption.
        -- simpl. now rewrite H1.
        -- intros n d [K|K]; [|eauto]. injection K as <- <-.
           exact (Binary64Facts.ltb_below _ _ _
                    (distanceTo_isDistance d1 la lo) H3 E).
Qed.

(** The scan of a whole database: an entry with the least computed
    distance, the first of them, or no entry at all when every computed
    distance is infinite. *)
Lemma nearest_cases (database : list (string * LocationData)) (la lo : Q) :
  (exists before name data after,
      Object_entries database = (before ++ (name, data) :: after)%list
      /\ findNearestLocation database la lo = entryOf name data
      /\ Binary64.ltb (distanceTo data la lo) Binary64.PlusInfinity = true
      /\ (forall n d, In (n, d) before ->
            Binary64.ltb (distanceTo data la lo) (distanceTo d la lo) = true)
      /\ (forall n d, In (n, d) after ->
            Binary64.ltb (distanceTo d la lo) (distanceTo data la lo)
            = false))
  \/ (findNearestLocation database la lo
      = mkNearest "Custom Location" la lo None
      /\ forall n d, In (n, d) database ->
           distanceTo d la lo = Binary64.PlusInfinity).
Proof.
  unfold findNearestLocation, Object_entries.
  destruct (nearestLoop_from la lo database None Binary64.PlusInfinity)
    as [[H1 H2] | (before & name & data & after & H1 & H2 & H3 & H4 & H5)].
  - right. rewrite H1. split; [reflexivity|].
    intros n d Hin. specialize (H2 n d Hin).
    pose proof (distanceTo_isDistance d la lo) as D.
    destruct (distanceTo d la lo); try discriminate H2;
      try contradiction; reflexivity.
  - left. exists before, name, data, after. rewrite H2. tauto.
Qed.

(** The scan in terms of the computed values: the entry returned has
    a finite computed distance, smaller than that of every entry before
    it and not larger than that of any other entry. *)
Lemma nearest_values (database : list (string * LocationData)) (la lo : Q) :
  (exists before name data after r,
      Object_entries database = (before ++ (name, data) :: after)%list
      /\ findNearestLocation database la lo = entryOf name data
      /\ distanceTo data la lo = Binary64.Finite r
      /\ (0 <= r)%Q
      /\ (forall n d, In (n, d) before ->
            distanceTo d la lo = Binary64.PlusInfinity
            \/ exists r', distanceTo d la lo = Binary64.Finite r'
                          /\ (r < r')%Q)
      /\ (forall n d, In (n, d) after ->
            distanceTo d la lo = Binary64.PlusInfinity
            \/ exists r', distanceTo d la lo = Binary64.Finite r'
                          /\ (r <= r')%Q)
      /\ (forall n d r', In (n, d) (Object_entries database) ->
            distanceTo d la lo = Binary64.Finite r' -> (r <= r')%Q))
  \/ (findNearestLocation database la lo
      = mkNearest "Custom Location" la lo None
      /\ forall n d, In (n, d) database ->
           distanceTo d la lo = Binary64.PlusInfinity).
Proof.
  destruct (nearest_cases database la lo)
    as [(before & name & data & after & H1 & H2 & H3 & H4 & H5) | H];
    [left | right; exact H].
  destruct (Binary64Facts.ltb_infinity _ (distanceTo_isDistance data la lo) H3)
    as (r & E & Hr).
  assert (B : forall n d, In (n, d) before ->
                distanceTo d la lo = Binary64.PlusInfinity
                \/ exists r', distanceTo d la lo = Binary64.Finite r'
                              /\ (r < r')%Q).
  { intros n d Hin.
    exact (proj1 (Binary64Facts.ltb_distance _ _ r
                    (distanceTo_isDistance d la lo) E) (H4 n d Hin)). }
  assert (A : forall n d, In (n, d) after ->
                distanceTo d la lo = Binary64.PlusInfinity
                \/ exists r', distanceTo d la lo = Binary64.Finite r'
                              /\ (r <= r')%Q).
  { intros n d Hin.
    exact (proj2 (Binary64Facts.ltb_distance _ _ r
                    (distanceTo_isDistance d la lo) E) (H5 n d Hin)). }
  exists before, name, data, after, r.
  split; [exact H1|]. split; [exact H2|]. split; [exact E|].
  split; [exact Hr|]. split; [exact B|]. split; [exact A|].
  intros n d r' Hin E'.
  rewrite H1 in Hin. apply in_app_or in Hin.
  destruct Hin as [Hin | [Hin | Hin]].
  - destruct (B n d Hin) as [K | (r'' & K & L)]; rewrite E' in K;
      [discriminate K | injection K as ->]. Lqa.lra.
  - injection Hin as _ <-. rewrite E in E'. injection E' as <-. Lqa.lra.
  - destruct (A n d Hin) as [K | (r'' & K & L)]; rewrite E' in K;
      [discriminate K | injection K as ->]. exact L.
Qed.

(** C8.  On an empty database [findNearestLocation] returns the entry
    named "Custom Location" at the given point.  On any database it
    returns either an entry of it, with its key as name, whose distance
    as the code computes it, in the arithmetic of doubles, is a finite
    number, strictly smaller than the computed distance of every entry
    before it and not larger than that of any entry after it (a
    computed distance that is infinite counts as larger): the entry of
    least computed distance, and among several the first; or, when the
    computed distance of every entry is infinite, the "Custom Location"
    entry.  The entry returned is the one of least Euclidean distance
    up to the rounding error: against every entry of finite computed
    distance, with [X] a bound of the coordinate differences of the
    two, its squared Euclidean distance is larger by a factor of at
    most 1 + 2^-47, up to (X + 1) * 2^-1068. *)
Theorem nearest_is_first_minimum (la lo : Q) :
  findNearestLocation [] la lo = mkNearest "Custom Location" la lo None
  /\ forall database,
       (exists before name data after r,
           Object_entries database = (before ++ (name, data) :: after)%list
           /\ findNearestLocation database la lo
              = mkNearest name (lat data) (lng data) (Some (type data))
           /\ distanceTo data la lo = Binary64.Finite r
           /\ (0 <= r)%Q
           /\ (forall n d, In (n, d) before ->
                 distanceTo d la lo = Binary64.PlusInfinity
                 \/ exists r', distanceTo d la lo = Binary64.Finite r'
                               /\ (r < r')%Q)
           /\ (forall n d, In (n, d) after ->
                 distanceTo d la lo = Binary64.PlusInfinity
                 \/ exists r', distanceTo d la lo = Binary64.Finite r'
                               /\ (r <= r')%Q)
           /\ (forall n d r' X, In (n, d) (Object_entries database) ->
                 distanceTo d la lo = Binary64.Finite r' ->
                 (Qabs (lat data - la) <= X)%Q ->
                 (Qabs (lng data - lo) <= X)%Q ->
                 (Qabs (lat d - la) <= X)%Q ->
                 (Qabs (lng d - lo) <= X)%Q ->
                 (squaredDistance data la lo
                  <= (1 + Binary64.pow2 (-47)) * squaredDistance d la lo
                     + (X + 1) * Binary64.pow2 (-1068))%Q))
       \/ (findNearestLocation database la lo
           = mkNearest "Custom Location" la lo None
           /\ forall n d, In (n, d) database ->
                distanceTo d la lo = Binary64.PlusInfinity).
Proof.
  split; [reflexivity|]. intro database.
  destruct (nearest_values database la lo)
    as [(before & name & data & after & r & H1 & H2 & E & Hr & B & A & L)
       | H]; [left | right; exact H].
  exists before, name, data, after, r.
  split; [exact H1|]. split; [exact H2|]. split; [exact E|].
  split; [exact Hr|]. split; [exact B|]. split; [exact A|].
  intros n d r' X Hin E' X1 X2 X3 X4.
  exact (nearly_nearest data d la lo r r' X E E' (L n d r' Hin E')
           X1 X2 X3 X4).
Qed.

(** The claim C8 as it is written fails: the entry of least Euclidean
    distance, first on ties, is not always the one returned.  At the
    point (9.75, 2^-100) the entry "south" is
    strictly nearer than "train station", the two computed distances
    are equal, and the earlier "train station" is returned.  At the
    point the GPS fix (5601352036708353 / 2^47, -1304167392148139 /
    2^44) is converted to, "main street" and "shopping district" are
    at the same Euclidean distance, the computed distance of the second
    is the smaller one, and "shopping district", the later of the two,
    is returned. *)
Theorem nearest_not_exact_minimum :
  let south := mkLocationData 10.0 3.0 "business" in
  let station := mkLocationData 12.0 2.0 "transit" in
  let mainStreet := mkLocationData 5.0 5.0 "business" in
  let shoppingDistrict := mkLocationData 7.0 6.0 "shopping" in
  let la := (39 # 4)%Q in
  let lo := (1 # 2 ^ 100)%Q in
  let fix_ := toLocalSpace (5601352036708353 # 140737488355328)
                           (- (1304167392148139 # 17592186044416)) in
  (exists before after,
      locationDatabase
      = (before ++ ("train station", station)
           :: after ++ [("south", south); ("east", mkLocationData 15.0 7.5 "mixed");
                        ("west", mkLocationData 5.0 7.5 "mixed")])%list)
  /\ near_name (findNearestLocation locationDatabase la lo) = "train station"
  /\ (euclideanDistance south la lo < euclideanDistance station la lo)%R
  /\ distanceTo south la lo = distanceTo station la lo
  /\ (exists before middle after,
         locationDatabase
         = (before ++ ("main street", mainStreet)
              :: middle ++ ("shopping district", shoppingDistrict) :: after)%list)
  /\ near_name (findNearestLocation locationDatabase (fst fix_) (snd fix_))
     = "shopping district"
  /\ (squaredDistance mainStreet (fst fix_) (snd fix_)
      == squaredDistance shoppingDistrict (fst fix_) (snd fix_))%Q
  /\ Binary64.ltb (distanceTo shoppingDistrict (fst fix_) (snd fix_))
                  (distanceTo mainStreet (fst fix_) (snd fix_)) = true.
Proof.
  cbv zeta.
  refine (conj _ (conj _ (conj _ (conj _ (conj _ (conj _ (conj _ _))))))).
  - eexists [_; _], [_; _; _; _; _; _; _; _; _; _; _; _; _; _; _; _].
    reflexivity.
  - vm_compute. reflexivity.
  - apply euclidean_lt. vm_compute. reflexivity.
  - vm_compute. reflexivity.
  - eexists [_; _; _; _; _; _; _; _; _; _; _], [_], _. reflexivity.
  - vm_compute. reflexivity.
  - vm_compute. reflexivity.
  - vm_compute. reflexivity.
Qed.

(** At the default location two keys are at distance zero, "downtown
    plaza" and its alias "downtown"; the first one is returned. *)
Example nearest_tie_keeps_first :
  findNearestLocation locationDatabase 3.0 3.0
  = mkNearest "downtown plaza" 3.0 3.0 (Some "business").
Proof. vm_compute. reflexivity. Qed.

Example nearest_of_reference_fix :
  near_name (findNearestLocation locationDatabase
               (fst (toLocalSpace 40.0 (-74.0)))
               (snd (toLocalSpace 40.0 (-74.0))))
  = "central".
Proof. vm_compute. reflexivity. Qed.

(** Beyond the range in which the squares are finite every computed
    distance is infinite, none is below the initial bound, and the
    "Custom Location" entry is returned although the database is not
    empty. *)
Example nearest_beyond_range :
  near_name (findNearestLocation locationDatabase (2 ^ 600) 0)
  = "Custom Location".
Proof. vm_compute. reflexivity. Qed.

End GeoFacts.

(** ** The update timer *)

Module TimerFacts.

Import UpdateTimer.

Lemma start_arms_one_more (t : Timers) :
  List.length (activeIntervals (startRealTimeUpdates t))
  = S (List.length (activeIntervals t)).
Proof. reflexivity. Qed.

Lemma stop_idempotent (t : Timers) :
  stopRealTimeUpdates (stopRealTimeUpdates t) = stopRealTimeUpdates t.
Proof.
  unfold stopRealTimeUpdates. destruct (updateInterval t) as [h|] eqn:E.
  - destruct (negb (h =? 0)%nat) eqn:Z; cbn [updateInterval]; [reflexivity|].
    now rewrite E, Z.
  - now rewrite E.
Qed.

(** C1 on the code.  [startRealTimeUpdates] has no guard: [stop()]
    followed by [start()] twice leaves two armed timers, of which a later
    [stop()] clears only the second; the same happens when the page is
    loaded hidden and then becomes visible. *)
Theorem start_twice_arms_two_timers :
  activeIntervals (calls [stop; start; start] initialTimers) = [2; 1]
  /\ updateInterval (calls [stop; start; start] initialTimers) = Some 2
  /\ activeIntervals (calls [stop; start; start; stop] initialTimers) = [1]
  /\ updateInterval (calls [stop; start; start; stop] initialTimers) = None
  /\ activeIntervals
       (run [DOMContentLoaded; VisibilityChange false] initialTimers)
     = [2; 1].
Proof. repeat split. Qed.

End TimerFacts.

(** ** The refresh fan-out *)

Module RefreshFacts.

Import Refresh.

Open Scope string_scope.

Lemma Section_eqb_eq (a b : Section) : Section_eqb a b = true <-> a = b.
Proof. destruct a, b; simpl; split; intro H; try reflexivity; discriminate. Qed.

Lemma Section_eqb_neq (a b : Section) : a <> b -> Section_eqb a b = false.
Proof.
  intro H. destruct (Section_eqb a b) eqn:E; [|reflexivity].
  apply Section_eqb_eq in E. contradiction.
Qed.

Create HintDb units.

Section WithNetwork.

Variable network : Network.

(** One unit at a time: every way its request can end (no answer, a body
    that does not parse, a refusal with or without an error text, data
    that render or not) leaves the unit normally and within its own
    section. *)
Ltac frame s :=
  eexists; split; [reflexivity|]; cbn;
  repeat split;
  try (intros s' Hs'; try rewrite (Section_eqb_neq s' s Hs'); reflexivity);
  try (intros data [= <-]; reflexivity);
  try (intros data K; discriminate K).

Ltac answers url s :=
  destruct (network url) as [|[[|] [[e [|] c]|]]];
  cbn -[String.eqb]; frame s.

Ltac open_unit :=
  unfold try_catch, bind, fetch, json, succeeds, renderInPlace, renderCards,
    renderMap, locationDefined, urlOf, readUserLocation.

Lemma updateSystemStats_contained :
  contained network (updateSystemStats network) SystemStats.
Proof.
  intro p. unfold updateSystemStats. open_unit.
  answers ApiSystemStats SystemStats.
Qed.

Lemma updateParkingLots_contained :
  contained network (updateParkingLots network) ParkingLots.
Proof.
  intro p. unfold updateParkingLots. open_unit.
  answers ApiParkingStatus ParkingLots.
Qed.

Lemma updateRecommendations_contained :
  contained network (updateRecommendations network) Recommendations.
Proof.
  intro p. unfold updateRecommendations. open_unit. cbn [fst snd].
  answers (ApiRecommendations (userLat p) (userLng p)) Recommendations.
Qed.

Lemma updateJunctions_contained :
  contained network (updateJunctions network) Junctions.
Proof.
  intro p. unfold updateJunctions. open_unit.
  answers ApiJunctionStatus Junctions.
Qed.

Lemma updatePredictions_contained :
  contained network (updatePredictions network) Predictions.
Proof.
  intro p. unfold updatePredictions. open_unit.
  answers ApiPredictions Predictions.
Qed.

Lemma updateMap_contained :
  contained network (updateMap network) Map.
Proof.
  intro p. unfold updateMap. open_unit. cbn [fst snd].
  destruct (network ApiMapData) as [|[[|] [[e [|] c]|]]];
    cbn -[String.eqb];
    destruct (userLat p) as [la|] eqn:Ela;
    destruct (userLng p) as [lo|] eqn:Elo;
    cbn -[String.eqb]; frame Map; assumption.
Qed.

#[local] Hint Resolve updateSystemStats_contained updateParkingLots_contained
  updateRecommendations_contained updateJunctions_contained
  updatePredictions_contained updateMap_contained : units.

(** A unit reads the user location only to build its address. *)
Lemma succeeds_same_location (s : Section) (p p' : Page) :
  userLat p' = userLat p -> userLng p' = userLng p ->
  succeeds network s p' = succeeds network s p.
Proof.
  intros H1 H2. unfold succeeds, urlOf, locationDefined.
  destruct s; rewrite ?H1, ?H2; reflexivity.
Qed.

(** Units that are contained and write different sections stay so when
    they are awaited together. *)
Lemma Promise_all_contained (plan : list (Eff unit * Section)) :
  NoDup (map snd plan) ->
  Forall (fun us => contained network (fst us) (snd us)) plan ->
  forall p, exists p',
    Promise_all (map fst plan) p = (p', Normal tt)
    /\ lastUpdated p' = lastUpdated p
    /\ alerts p' = alerts p
    /\ userLat p' = userLat p
    /\ userLng p' = userLng p
    /\ (forall s, ~ In s (map snd plan) -> view p' s = view p s)
    /\ (forall s data, In s (map snd plan) ->
          succeeds network s p = Some data -> view p' s = Rendered data).
Proof.
  induction plan as [|[u s0] rest IH]; intros Hnd Hall p.
  - exists p. cbn. repeat split; try reflexivity. intros s data [].
  - cbn [map fst snd] in *. inversion Hnd as [|? ? Hnotin Hnd']; subst.
    inversion Hall as [|? ? Hu Hrest]; subst. cbn [fst snd] in Hu.
    destruct (Hu p) as (p1 & E1 & L1 & A1 & U1 & V1 & O1 & R1).
    destruct (IH Hnd' Hrest p1) as (p2 & E2 & L2 & A2 & U2 & V2 & O2 & R2).
    exists p2. cbn [Promise_all]. rewrite E1, E2.
    repeat split; try congruence.
    + intros s Hs. rewrite O2 by (intro K; apply Hs; now right).
      apply O1. intro K. apply Hs. now left.
    + intros s data [<-|Hin] Hok.
      * rewrite (O2 s0 Hnotin). now apply R1.
      * apply R2; [exact Hin|].
        now rewrite (succeeds_same_location s p p1 U1 V1).
Qed.

Lemma refreshPlan_units :
  map fst (refreshPlan network) = refreshUnits network.
Proof. reflexivity. Qed.

Lemma refreshPlan_contained :
  Forall (fun us => contained network (fst us) (snd us)) (refreshPlan network).
Proof. unfold refreshPlan. repeat constructor; cbn [fst snd]; auto with units. Qed.

Lemma refreshPlan_sections :
  NoDup (map snd (refreshPlan network))
  /\ forall s, In s (map snd (refreshPlan network)).
Proof.
  split.
  - cbn. repeat constructor; cbn; intuition discriminate.
  - intros []; cbn; tauto.
Qed.

(** C6.  Whatever the network answers to each of the six requests,
    [refreshData] completes normally: no failure of a unit leaves the
    unit, the aggregate alert is not raised, the timestamp is written
    once all units have settled, and every unit whose own feed succeeds
    shows its data, whichever of the other units fail. *)
Theorem refresh_isolates_unit_failures (now : nat) (p : Page) :
  exists p',
    refreshData network now p = (p', Normal tt)
    /\ lastUpdated p' = Some now
    /\ alerts p' = alerts p
    /\ (forall s data, succeeds network s p = Some data ->
                       view p' s = Rendered data)
    /\ Forall (fun us => forall q, exists q', fst us q = (q', Normal tt))
              (refreshPlan network).
Proof.
  destruct refreshPlan_sections as [Hnd Hall].
  destruct (Promise_all_contained (refreshPlan network) Hnd
              refreshPlan_contained p)
    as (p1 & E & L & A & U & V & O & R).
  rewrite refreshPlan_units in E.
  eexists. unfold refreshData, try_catch, bind. rewrite E.
  split; [reflexivity|]. cbn. repeat split; try assumption.
  - intros s data Hok. now apply R.
  - eapply Forall_impl; [|apply refreshPlan_contained].
    intros [u s] Hc q. destruct (Hc q) as (q' & Hq & _). now exists q'.
Qed.

Lemma refreshPlan_local :
  Forall (fun us => reads_own_section (fst us) (snd us)) (refreshPlan network).
Proof.
  unfold refreshPlan. repeat constructor; cbn [fst snd]; intros p q H1 H2 H3;
    unfold updateSystemStats, updateParkingLots, updateRecommendations,
      updateJunctions, updatePredictions, updateMap;
    open_unit; cbn [fst snd]; rewrite ?H1, ?H2;
    match goal with
    | |- context [network ?url] =>
        destruct (network url) as [|[[|] [[e [|] c]|]]]
    end;
    cbn -[String.eqb]; rewrite ?H1, ?H2;
    destruct (userLat q), (userLng q);
    cbn -[String.eqb]; try reflexivity; assumption.
Qed.

(** Awaited together, each unit makes of its section what it would have
    made of it alone. *)
Lemma Promise_all_alone (plan : list (Eff unit * Section)) :
  NoDup (map snd plan) ->
  Forall (fun us => contained network (fst us) (snd us)) plan ->
  Forall (fun us => reads_own_section (fst us) (snd us)) plan ->
  forall p u s, In (u, s) plan ->
    view (fst (Promise_all (map fst plan) p)) s = view (fst (u p)) s.
Proof.
  induction plan as [|[u0 s0] rest IH]; intros Hnd Hc Hl p u s Hin;
    [destruct Hin|].
  cbn [map fst snd] in *. inversion Hnd as [|? ? Hnotin Hnd']; subst.
  inversion Hc as [|? ? Hu Hrest]; subst. cbn [fst snd] in Hu.
  inversion Hl as [|? ? Lu Lrest]; subst. cbn [fst snd] in Lu.
  destruct (Hu p) as (p1 & E1 & L1 & A1 & U1 & V1 & O1 & R1).
  destruct (Promise_all_contained rest Hnd' Hrest p1)
    as (p2 & E2 & L2 & A2 & U2 & V2 & O2 & R2).
  cbn [Promise_all]. rewrite E1, E2. cbn [fst].
  destruct Hin as [Hin|Hin].
  - injection Hin as <- <-. rewrite (O2 s0 Hnotin). now rewrite E1.
  - assert (Hs : s <> s0).
    { intros ->. apply Hnotin. apply (in_map snd _ _ Hin). }
    specialize (IH Hnd' Hrest Lrest p1 u s Hin). rewrite E2 in IH.
    cbn [fst] in IH. rewrite IH.
    assert (Lus : reads_own_section u s).
    { rewrite Forall_forall in Lrest. exact (Lrest (u, s) Hin). }
    apply Lus; auto.
Qed.

(** The units may finish in any order: the sections of the page, the
    timestamp and the alerts end up the same. *)
Lemma refresh_order_irrelevant (plan : list (Eff unit * Section)) (p : Page) :
  Permutation plan (refreshPlan network) ->
  exists p',
    Promise_all (map fst plan) p = (p', Normal tt)
    /\ lastUpdated p' = lastUpdated p
    /\ alerts p' = alerts p
    /\ forall s, view p' s
                 = view (fst (Promise_all (refreshUnits network) p)) s.
Proof.
  intro Hperm.
  destruct refreshPlan_sections as [Hnd Hall].
  assert (Hnd' : NoDup (map snd plan)).
  { apply (Permutation_NoDup (l := map snd (refreshPlan network)));
      [|exact Hnd]. apply Permutation_map. now apply Permutation_sym. }
  assert (Hc : Forall (fun us => contained network (fst us) (snd us)) plan).
  { apply (Permutation_Forall (Permutation_sym Hperm)).
    apply refreshPlan_contained. }
  assert (Hl : Forall (fun us => reads_own_section (fst us) (snd us)) plan).
  { apply (Permutation_Forall (Permutation_sym Hperm)).
    apply refreshPlan_local. }
  destruct (Promise_all_contained plan Hnd' Hc p)
    as (p' & E & L & A & _).
  exists p'. repeat split; try assumption.
  intro s. specialize (Hall s). apply in_map_iff in Hall.
  destruct Hall as ([u s'] & Hs & Hin). cbn in Hs. subst s'.
  rewrite <- refreshPlan_units.
  rewrite (Promise_all_alone (refreshPlan network) Hnd
             refreshPlan_contained refreshPlan_local p u s Hin).
  assert (Hin' : In (u, s) plan).
  { exact (Permutation_in _ (Permutation_sym Hperm) Hin). }
  pose proof (Promise_all_alone plan Hnd' Hc Hl p u s Hin') as K.
  rewrite E in K. exact K.
Qed.

End WithNetwork.

(** One failing feed among succeeding ones: the parking request fails at
    the network, the five others answer; the parking section shows its
    error text, the others their data, and the timestamp is written. *)
Example refresh_with_failing_parking_feed :
  let d := mkJson None true 7 in
  let network : Network :=
    fun url => match url with
               | ApiParkingStatus => NetworkError
               | _ => Responded (mkResponse true (Some d))
               end in
  let p := mkPage (fun _ => Loading) None [] [] (Some 3.0%Q) (Some 3.0%Q) in
  let p' := fst (refreshData network 42 p) in
  snd (refreshData network 42 p) = Normal tt
  /\ view p' ParkingLots = ErrorShown "Failed to load parking data"
  /\ view p' SystemStats = Rendered d
  /\ view p' Recommendations = Rendered d
  /\ view p' Junctions = Rendered d
  /\ view p' Predictions = Rendered d
  /\ view p' Map = Rendered d
  /\ lastUpdated p' = Some 42
  /\ alerts p' = []
  /\ consoleErrors p' = [("Error updating parking lots:", FetchFailed)].
Proof. cbv zeta. repeat split. Qed.

(** The user location without coordinates (the state an inherited
    property name leaves behind), with every feed answering well: the
    map unit throws while it formats the coordinates, catches the error
    itself and shows its error text; the other sections render, and the
    timestamp is written. *)
Example refresh_with_undefined_location :
  let d := mkJson None true 7 in
  let network : Network := fun _ => Responded (mkResponse true (Some d)) in
  let p := mkPage (fun _ => Loading) None [] [] None None in
  let p' := fst (refreshData network 42 p) in
  snd (refreshData network 42 p) = Normal tt
  /\ view p' Map = ErrorShown "Failed to load map"
  /\ consoleErrors p' = [("Error updating map:", RenderTypeError)]
  /\ view p' SystemStats = Rendered d
  /\ view p' Recommendations = Rendered d
  /\ lastUpdated p' = Some 42
  /\ alerts p' = [].
Proof. cbv zeta. repeat split. Qed.

(** A refusal and ill-shaped data, in two units at once. *)
Example refresh_with_refused_and_ill_shaped_feeds :
  let d := mkJson None true 7 in
  let network : Network :=
    fun url => match url with
               | ApiRecommendations _ _ =>
                   Responded (mkResponse false
                                (Some (mkJson (Some "no location") true 0)))
               | ApiJunctionStatus =>
                   Responded (mkResponse true (Some (mkJson None false 0)))
               | _ => Responded (mkResponse true (Some d))
               end in
  let p := mkPage (fun _ => Loading) None [] [] (Some 3.0%Q) (Some 3.0%Q) in
  let p' := fst (refreshData network 42 p) in
  snd (refreshData network 42 p) = Normal tt
  /\ view p' Recommendations = ErrorShown "Failed to load recommendations"
  /\ view p' Junctions = ErrorShown "Failed to load junction data"
  /\ view p' ParkingLots = Rendered d
  /\ lastUpdated p' = Some 42
  /\ consoleErrors p'
     = [("Error updating junctions:", RenderTypeError);
        ("Error updating recommendations:", ApplicationError "no location")].
Proof. cbv zeta. repeat split. Qed.

End RefreshFacts.

(* ================================================================== *)
(** * Further properties of the code *)
(* ================================================================== *)

(** ** The parser on every input *)

Module ParserMore.

Import StringFacts GazetteerFacts ParserFacts PatternFacts CoordinateFacts.

Open Scope string_scope.

Lemma database_in_bounds (key : string) (data : LocationData) :
  In (key, data) locationDatabase -> inBounds (lat data) (lng data) = true.
Proof.
  unfold locationDatabase. simpl. intro H.
  repeat (destruct H as [H|H]; [injection H as <- <-; reflexivity|]).
  destruct H.
Qed.

Lemma partialMatches_In (entries : list (string * LocationData)) (n : string)
  (m : ResolvedLocation) :
  In m (partialMatches entries n) ->
  exists key data,
    In (key, data) entries /\ qualifies key n = true
    /\ m = mkResolved (Some (lat data)) (Some (lng data)) (Some (type data))
                      key partial (Some key).
Proof.
  induction entries as [|[k d] rest IH]; simpl; [intros []|].
  destruct (qualifies k n) eqn:E.
  - intros [<-|H].
    + exists k, d. auto.
    + destruct (IH H) as (key & data & H1 & H2 & H3). exists key, data. auto.
  - intro H. destruct (IH H) as (key & data & H1 & H2 & H3).
    exists key, data. auto.
Qed.

(** X1.  Whatever the input, the object the parser returns has both
    coordinates inside the grid, latitude in [0,20] and longitude in
    [0,15], with one exception: when the trimmed, lower-cased input names
    a property that the database object inherits, the object is [exact]
    and has no coordinates and no type at all. *)
Theorem parsed_point_in_grid_or_absent
  (random : RandomSource) (text : string) (drawn : nat)
  (r : ResolvedLocation) :
  (forall k, 0 <= random k < 1)%Q ->
  fst (parseLocationInput random text drawn) = Some r ->
  (exists la lo,
      res_lat r = Some la /\ res_lng r = Some lo
      /\ (0 <= la <= 20)%Q /\ (0 <= lo <= 15)%Q)
  \/ (res_lat r = None /\ res_lng r = None /\ res_type r = None
      /\ res_confidence r = exact
      /\ In (trim (toLowerCase text)) objectPrototypeProperties).
Proof.
  intros Hr. unfold parseLocationInput.
  destruct (String.eqb text "" || String.eqb (trim text) ""); [discriminate|].
  cbv zeta.
  destruct (getProperty locationDatabase (trim (toLowerCase text)))
    as [d| |] eqn:G; cbn [truthy].
  - intros [= <-]. left. exists (lat d), (lng d). cbn.
    unfold getProperty in G.
    destruct (ownProperty locationDatabase (trim (toLowerCase text)))
      as [d'|] eqn:O.
    + injection G as ->. apply ownProperty_In, database_in_bounds in O.
      apply inBounds_spec in O. tauto.
    + destruct (existsb _ _); discriminate G.
  - intros [= <-]. right. cbn. repeat split.
    unfold getProperty in G.
    destruct (ownProperty locationDatabase (trim (toLowerCase text)));
      [discriminate G|].
    destruct (existsb _ _) eqn:E; [|discriminate G].
    apply existsb_exists in E. destruct E as (p & Hp & E).
    apply String.eqb_eq in E. now subst p.
  - destruct (partialMatches (Object_entries locationDatabase)
                (trim (toLowerCase text))) as [|m tl] eqn:P.
    + assert (F : (0 <= random drawn * 20 <= 20
                   /\ 0 <= random (S drawn) * 15 <= 15)%Q)
        by (apply random_point_in_bounds; apply Hr).
      assert (Hfb : forall r0,
                 Some (mkResolved (Some (random drawn * 20)%Q)
                         (Some (random (S drawn) * 15)%Q) (Some "unknown")
                         (trim text) estimated None) = Some r0 ->
                 exists la lo,
                   res_lat r0 = Some la /\ res_lng r0 = Some lo
                   /\ (0 <= la <= 20)%Q /\ (0 <= lo <= 15)%Q).
      { intros r0 [= <-]. cbn. eauto. }
      destruct (coordMatch text) as [[g1 g2]|]; [|cbn; intro K; left; auto].
      destruct (parseFloat g1) as [la|]; [|cbn; intro K; left; auto].
      destruct (parseFloat g2) as [lo|]; [|cbn; intro K; left; auto].
      destruct (inBounds la lo) eqn:B; [|cbn; intro K; left; auto].
      cbn. intros [= <-]. left. exists la, lo. cbn.
      apply inBounds_spec in B. tauto.
    + cbn. intros [= <-]. left.
      destruct (partialMatches_In (Object_entries locationDatabase)
                  (trim (toLowerCase text)) m)
        as (key & data & Hin & _ & ->); [rewrite P; now left|].
      exists (lat data), (lng data). cbn.
      apply database_in_bounds, inBounds_spec in Hin. tauto.
Qed.

Lemma parsed_point_in_grid_or_absent_witness :
  (exists la lo,
      res_lat (mkResolved (Some 8.0%Q) (Some 7.0%Q) (Some "shopping")
                          "mall" partial (Some "mall")) = Some la
      /\ res_lng (mkResolved (Some 8.0%Q) (Some 7.0%Q) (Some "shopping")
                             "mall" partial (Some "mall")) = Some lo
      /\ (0 <= la <= 20)%Q /\ (0 <= lo <= 15)%Q)
  \/ (res_lat (mkResolved (Some 8.0%Q) (Some 7.0%Q) (Some "shopping")
                          "mall" partial (Some "mall")) = None
      /\ res_lng (mkResolved (Some 8.0%Q) (Some 7.0%Q) (Some "shopping")
                             "mall" partial (Some "mall")) = None
      /\ res_type (mkResolved (Some 8.0%Q) (Some 7.0%Q) (Some "shopping")
                              "mall" partial (Some "mall")) = None
      /\ res_confidence (mkResolved (Some 8.0%Q) (Some 7.0%Q) (Some "shopping")
                                    "mall" partial (Some "mall")) = exact
      /\ In (trim (toLowerCase "the mall")) objectPrototypeProperties).
Proof.
  apply (parsed_point_in_grid_or_absent (fun _ => 0%Q) "the mall" 0).
  - intro k. split; [discriminate | reflexivity].
  - reflexivity.
Defined.

(** *** Names inherited by the database object *)

Lemma inherited_lookup (n : string) :
  In n objectPrototypeProperties ->
  getProperty locationDatabase n = Inherited /\ n <> "".
Proof.
  unfold objectPrototypeProperties. simpl. intro H.
  repeat (destruct H as [H|H]; [subst n; split; [reflexivity | discriminate]|]).
  destruct H.
Qed.

Lemma normalized_trim (text : string) :
  trim (toLowerCase (trim text)) = trim (toLowerCase text).
Proof. now rewrite !trim_toLowerCase, trim_idem. Qed.

Lemma allWhiteSpace_trim (text : string) :
  allWhiteSpace (trim text) = allWhiteSpace text.
Proof.
  destruct (allWhiteSpace text) eqn:E.
  - apply trim_empty in E. now rewrite E.
  - destruct (allWhiteSpace (trim text)) eqn:E'; [|reflexivity].
    apply trim_empty in E'. rewrite trim_idem in E'.
    apply trim_empty in E'. congruence.
Qed.

Lemma parse_inherited (random : RandomSource) (text : string) (drawn : nat) :
  In (trim (toLowerCase text)) objectPrototypeProperties ->
  parseLocationInput random text drawn
  = (Some (mkResolved None None None (trim text) exact None), drawn).
Proof.
  intro H. destruct (inherited_lookup _ H) as [G Hne].
  assert (Hws : allWhiteSpace text = false).
  { destruct (allWhiteSpace text) eqn:E; [|reflexivity].
    apply trim_empty in E. rewrite trim_toLowerCase, E in Hne.
    now contradiction Hne. }
  unfold parseLocationInput. rewrite guard_blank, Hws. cbv zeta.
  now rewrite G.
Qed.

(** X2.  When the trimmed, lower-cased input is the name of a property
    that every object inherits ("constructor" and "__proto__" are in
    lower case), the lookup in the database finds that property: the
    parser answers [exact] with no coordinates, and [updateUserLocation]
    stores a location whose latitude and longitude are undefined and
    asks for recommendations with them. *)
Theorem inherited_name_gives_location_without_coordinates
  (random : RandomSource) (text : string) (drawn : nat) (s : Session) :
  In (trim (toLowerCase text)) objectPrototypeProperties ->
  inputValue s = text ->
  parseLocationInput random text drawn
  = (Some (mkResolved None None None (trim text) exact None), drawn)
  /\ userLocation (updateUserLocation random s)
     = mkUserLocation None None (trim text)
  /\ started (updateUserLocation random s)
     = StartedMap :: StartedRecommendations None None :: started s.
Proof.
  intros H Hin. split; [now apply parse_inherited|].
  assert (Hws : allWhiteSpace text = false).
  { destruct (allWhiteSpace text) eqn:E; [|reflexivity].
    pose proof (parse_blank random text drawn E) as K.
    rewrite (parse_inherited random text drawn H) in K. discriminate K. }
  unfold updateUserLocation. rewrite Hin.
  rewrite trim_eqb_empty, Hws.
  rewrite parse_inherited by now rewrite normalized_trim.
  cbn. rewrite trim_idem. split; reflexivity.
Qed.

Lemma inherited_name_gives_location_without_coordinates_witness :
  parseLocationInput (fun _ => 0%Q) " Constructor" 0
  = (Some (mkResolved None None None (trim " Constructor") exact None), 0)
  /\ userLocation (updateUserLocation (fun _ => 0%Q)
                     (mkSession defaultLocation " Constructor" None [] [] 0))
     = mkUserLocation None None (trim " Constructor")
  /\ started (updateUserLocation (fun _ => 0%Q)
                (mkSession defaultLocation " Constructor" None [] [] 0))
     = StartedMap :: StartedRecommendations None None
       :: started (mkSession defaultLocation " Constructor" None [] [] 0).
Proof.
  apply (inherited_name_gives_location_without_coordinates
           (fun _ => 0%Q) " Constructor" 0
           (mkSession defaultLocation " Constructor" None [] [] 0)).
  - unfold objectPrototypeProperties. simpl. tauto.
  - reflexivity.
Defined.

(** *** White space around the input *)

Lemma white_not_digit (c : ascii) : isWhiteSpace c = true -> isDigit c = false.
Proof. each_unit c; intro H; try reflexivity; discriminate H. Qed.

Lemma matchAt_not_digit (c : ascii) (r : string) :
  isDigit c = false -> matchAt (String c r) = None.
Proof. intro H. unfold matchAt, matchNumber. cbn [spanDigits]. now rewrite H. Qed.

Lemma coordMatch_trimStart (s : string) :
  coordMatch (trimStart s) = coordMatch s.
Proof.
  induction s as [|c r IH]; [reflexivity|].
  cbn [trimStart]. destruct (isWhiteSpace c) eqn:W; [|reflexivity].
  cbn [coordMatch]. now rewrite (matchAt_not_digit c r (white_not_digit c W)).
Qed.

Lemma trimEnd_cons (c : ascii) (r : string) :
  isWhiteSpace c = false -> trimEnd (String c r) = String c (trimEnd r).
Proof. intro W. cbn [trimEnd]. rewrite W. now destruct (trimEnd r). Qed.

Lemma trimEnd_cons_white (c : ascii) (r : string) :
  isWhiteSpace c = true ->
  trimEnd (String c r)
  = match trimEnd r with "" => "" | _ => String c (trimEnd r) end.
Proof. intro W. cbn [trimEnd]. rewrite W. now destruct (trimEnd r). Qed.

Lemma spanDigits_trimEnd (s d r : string) :
  spanDigits s = (d, r) -> spanDigits (trimEnd s) = (d, trimEnd r).
Proof.
  revert d r. induction s as [|c s IH]; intros d r.
  - intros [= <- <-]. reflexivity.
  - cbn [spanDigits]. destruct (isDigit c) eqn:D.
    + destruct (spanDigits s) as [d' r'] eqn:S. intros [= <- <-].
      rewrite trimEnd_cons by now apply digit_not_white.
      cbn [spanDigits]. now rewrite D, (IH d' r' eq_refl).
    + intros [= <- <-]. destruct (isWhiteSpace c) eqn:W.
      * rewrite (trimEnd_cons_white c s W).
        destruct (trimEnd s); [reflexivity|].
        cbn [spanDigits]. now rewrite D.
      * rewrite (trimEnd_cons c s W). cbn [spanDigits]. now rewrite D.
Qed.

Lemma skipWhiteSpace_trimEnd (s : string) :
  skipWhiteSpace (trimEnd s) = trimEnd (skipWhiteSpace s).
Proof.
  induction s as [|c r IH]; [reflexivity|].
  cbn [skipWhiteSpace]. destruct (isWhiteSpace c) eqn:W.
  - rewrite (trimEnd_cons_white c r W), <- IH.
    destruct (trimEnd r); [reflexivity|].
    cbn [skipWhiteSpace]. now rewrite W.
  - rewrite (trimEnd_cons c r W). cbn [skipWhiteSpace]. now rewrite W.
Qed.

Lemma dot_comma_not_white (c : ascii) :
  Ascii.eqb c "." = true \/ Ascii.eqb c "," = true -> isWhiteSpace c = false.
Proof.
  intros [H|H]; apply Ascii.eqb_eq in H; subst c; reflexivity.
Qed.

Lemma matchNumber_trimEnd (s : string) :
  matchNumber (trimEnd s)
  = match matchNumber s with
    | Some (g, rest) => Some (g, trimEnd rest)
    | None => None
    end.
Proof.
  unfold matchNumber. destruct (spanDigits s) as [i rest] eqn:S.
  rewrite (spanDigits_trimEnd s i rest S).
  destruct i as [|a i]; [reflexivity|].
  destruct rest as [|c r]; [reflexivity|].
  destruct (Ascii.eqb c ".") eqn:E.
  - rewrite (trimEnd_cons c r) by (apply dot_comma_not_white; now left).
    rewrite E. destruct (spanDigits r) as [f rest'] eqn:S'.
    now rewrite (spanDigits_trimEnd r f rest' S').
  - destruct (isWhiteSpace c) eqn:W.
    + rewrite (trimEnd_cons_white c r W).
      destruct (trimEnd r) eqn:T; [reflexivity|]. now rewrite E.
    + rewrite (trimEnd_cons c r W). now rewrite E.
Qed.

Lemma matchAt_trimEnd (s : string) : matchAt (trimEnd s) = matchAt s.
Proof.
  unfold matchAt. rewrite matchNumber_trimEnd.
  destruct (matchNumber s) as [[g1 rest]|]; [|reflexivity].
  destruct rest as [|c r]; [reflexivity|].
  destruct (Ascii.eqb c ",") eqn:E.
  - rewrite (trimEnd_cons c r) by (apply dot_comma_not_white; now right).
    rewrite E, skipWhiteSpace_trimEnd, matchNumber_trimEnd.
    now destruct (matchNumber (skipWhiteSpace r)) as [[g2 r2]|].
  - destruct (isWhiteSpace c) eqn:W.
    + rewrite (trimEnd_cons_white c r W).
      destruct (trimEnd r); [reflexivity|]. now rewrite E.
    + rewrite (trimEnd_cons c r W). now rewrite E.
Qed.

Lemma coordMatch_blank (s : string) :
  allWhiteSpace s = true -> coordMatch s = None.
Proof.
  induction s as [|c r IH]; [reflexivity|].
  cbn [allWhiteSpace]. intro H. apply andb_true_iff in H. destruct H as [W H].
  cbn [coordMatch].
  now rewrite (matchAt_not_digit c r (white_not_digit c W)), (IH H).
Qed.

Lemma coordMatch_trimEnd (s : string) : coordMatch (trimEnd s) = coordMatch s.
Proof.
  induction s as [|c r IH]; [reflexivity|].
  destruct (trimEnd (String c r)) as [|c' r'] eqn:T.
  - apply trimEnd_empty in T. now rewrite (coordMatch_blank _ T).
  - assert (E : String c' r' = String c (trimEnd r)).
    { rewrite <- T. destruct (isWhiteSpace c) eqn:W.
      - rewrite (trimEnd_cons_white c r W) in *.
        destruct (trimEnd r); [discriminate T | reflexivity].
      - apply trimEnd_cons, W. }
    rewrite E. cbn [coordMatch].
    rewrite <- E, <- T, matchAt_trimEnd, IH. reflexivity.
Qed.

Lemma coordMatch_trim (s : string) : coordMatch (trim s) = coordMatch s.
Proof. unfold trim. now rewrite coordMatch_trimEnd, coordMatch_trimStart. Qed.

Lemma parse_trim (random : RandomSource) (text : string) (drawn : nat) :
  parseLocationInput random (trim text) drawn
  = parseLocationInput random text drawn.
Proof.
  unfold parseLocationInput.
  rewrite !guard_blank, allWhiteSpace_trim, normalized_trim, trim_idem,
    coordMatch_trim.
  reflexivity.
Qed.

Lemma allWhiteSpace_app (a b : string) :
  allWhiteSpace (a ++ b) = allWhiteSpace a && allWhiteSpace b.
Proof.
  induction a as [|c a IH]; simpl; [reflexivity|].
  now rewrite IH, andb_assoc.
Qed.

Lemma trimStart_app_blank (before z : string) :
  allWhiteSpace before = true -> trimStart (before ++ z) = trimStart z.
Proof.
  induction before as [|c b IH]; [reflexivity|].
  cbn [allWhiteSpace append trimStart]. intro H.
  apply andb_true_iff in H. destruct H as [-> H]. now apply IH.
Qed.

Lemma trimStart_app (m z : string) :
  allWhiteSpace m = false -> trimStart (m ++ z) = trimStart m ++ z.
Proof.
  induction m as [|c m IH]; [discriminate|].
  cbn [allWhiteSpace append trimStart].
  destruct (isWhiteSpace c); [exact IH | reflexivity].
Qed.

Lemma trimEnd_app_blank (y after : string) :
  allWhiteSpace after = true -> trimEnd (y ++ after) = trimEnd y.
Proof.
  intro H. induction y as [|c y IH]; cbn [append trimEnd].
  - now apply trimEnd_empty.
  - now rewrite IH.
Qed.

(** Trimming removes any white space put around a text. *)
Lemma trim_padded (before m after : string) :
  allWhiteSpace before = true -> allWhiteSpace after = true ->
  trim (before ++ m ++ after) = trim m.
Proof.
  intros Hb Ha. unfold trim. rewrite (trimStart_app_blank before _ Hb).
  destruct (allWhiteSpace m) eqn:E.
  - assert (B : allWhiteSpace (m ++ after) = true)
      by now rewrite allWhiteSpace_app, E, Ha.
    fold (trim (m ++ after)). fold (trim m).
    apply trim_empty in B, E. now rewrite B, E.
  - now rewrite (trimStart_app m after E), (trimEnd_app_blank _ after Ha).
Qed.

(** X3.  White space around the input changes nothing: the pattern
    finds the same pair in the trimmed text, and the parser returns the
    same object for a text, for the trimmed text and for the text with
    more white space around it.  The trimming [updateUserLocation] does
    before it calls the parser is therefore without effect. *)
Theorem outer_white_space_is_ignored
  (random : RandomSource) (text before after : string) (drawn : nat) :
  coordMatch (trim text) = coordMatch text
  /\ parseLocationInput random (trim text) drawn
     = parseLocationInput random text drawn
  /\ (allWhiteSpace before && allWhiteSpace after = true ->
      parseLocationInput random (before ++ text ++ after) drawn
      = parseLocationInput random text drawn).
Proof.
  split; [apply coordMatch_trim|]. split; [apply parse_trim|].
  intro H. apply andb_true_iff in H. destruct H as [Hb Ha].
  rewrite <- (parse_trim random (before ++ text ++ after)).
  rewrite <- (parse_trim random text).
  now rewrite (trim_padded before text after Hb Ha).
Qed.

Lemma outer_white_space_is_ignored_witness :
  parseLocationInput (fun _ => 0%Q) ("  " ++ "3.5, 4.2" ++ " ") 0
  = parseLocationInput (fun _ => 0%Q) "3.5, 4.2" 0.
Proof.
  apply (outer_white_space_is_ignored (fun _ => 0%Q) "3.5, 4.2" "  " " " 0).
  reflexivity.
Defined.

(** *** Names the parser and the scan hand out *)

(** Every key of the database is its own normal form and resolves
    exactly to its entry. *)
Lemma parse_key (random : RandomSource) (drawn : nat)
  (key : string) (data : LocationData) :
  In (key, data) locationDatabase ->
  parseLocationInput random key drawn
  = (Some (mkResolved (Some (lat data)) (Some (lng data)) (Some (type data))
                      key exact None), drawn).
Proof.
  unfold locationDatabase. simpl. intro H.
  repeat (destruct H as [H|H]; [injection H as <- <-; reflexivity|]).
  destruct H.
Qed.

(** A [partial] answer is made of an entry of the database. *)
Lemma partial_answer_form
  (random : RandomSource) (text : string) (drawn : nat)
  (r : ResolvedLocation) :
  fst (parseLocationInput random text drawn) = Some r ->
  res_confidence r = partial ->
  exists key data,
    In (key, data) locationDatabase
    /\ r = mkResolved (Some (lat data)) (Some (lng data)) (Some (type data))
                      key partial (Some key).
Proof.
  unfold parseLocationInput.
  destruct (String.eqb text "" || String.eqb (trim text) ""); [discriminate|].
  cbv zeta.
  destruct (getProperty locationDatabase (trim (toLowerCase text)))
    as [d| |] eqn:G; cbn [truthy];
    [intros [= <-]; discriminate | intros [= <-]; discriminate |].
  destruct (partialMatches (Object_entries locationDatabase)
              (trim (toLowerCase text))) as [|m tl] eqn:P.
  - unfold Math_random.
    destruct (coordMatch text) as [[g1 g2]|];
      [|cbn [fst]; intros [= <-]; discriminate].
    destruct (parseFloat g1) as [la|];
      [|cbn [fst]; intros [= <-]; discriminate].
    destruct (parseFloat g2) as [lo|];
      [|cbn [fst]; intros [= <-]; discriminate].
    destruct (inBounds la lo); cbn [fst]; intros [= <-]; discriminate.
  - cbn [fst]. intros [= <-] _.
    destruct (partialMatches_In (Object_entries locationDatabase)
                (trim (toLowerCase text)) m)
      as (key & data & Hin & _ & E); [rewrite P; now left|].
    exists key, data. split; [exact Hin | exact E].
Qed.

(** X5.  When the parser answers [partial], the name it returns is the
    recorded match and a key of the database, and submitting that name
    resolves [exact] to the same coordinates and type: accepting the
    suggestion never moves the point. *)
Theorem partial_name_resolves_exactly
  (random random' : RandomSource) (text : string) (drawn drawn' : nat)
  (r : ResolvedLocation) :
  fst (parseLocationInput random text drawn) = Some r ->
  res_confidence r = partial ->
  res_match r = Some (res_name r)
  /\ In (res_name r) (keys locationDatabase)
  /\ parseLocationInput random' (res_name r) drawn'
     = (Some (mkResolved (res_lat r) (res_lng r) (res_type r)
                         (res_name r) exact None), drawn').
Proof.
  intros H1 H2.
  destruct (partial_answer_form random text drawn r H1 H2)
    as (key & data & Hin & ->).
  cbn [res_match res_name res_lat res_lng res_type].
  split; [reflexivity|]. split.
  - unfold keys. apply (in_map fst _ _ Hin).
  - now apply parse_key.
Qed.

Lemma partial_name_resolves_exactly_witness :
  parseLocationInput (fun _ => 0%Q) "mall" 5
  = (Some (mkResolved (Some 8.0%Q) (Some 7.0%Q) (Some "shopping")
                      "mall" exact None), 5).
Proof.
  apply (partial_name_resolves_exactly (fun _ => 0%Q) (fun _ => 0%Q)
           "the mall" 0 5
           (mkResolved (Some 8.0%Q) (Some 7.0%Q) (Some "shopping")
                       "mall" partial (Some "mall"))).
  - reflexivity.
  - reflexivity.
Defined.

End ParserMore.

(** ** The location handlers *)

Module HandlerFacts.

Import StringFacts GazetteerFacts ParserFacts ParserMore.

Open Scope string_scope.

(** X4.  A submission that is not blank always succeeds: [userLocation]
    is replaced by what the parser makes of the input value as typed,
    one success notification is shown, no error is, and the
    recommendations and the map are asked again, with the coordinates
    just stored.  The handler's "Location not found" branch is never
    taken. *)
Theorem submission_replaces_location (random : RandomSource) (s : Session) :
  allWhiteSpace (inputValue s) = false ->
  exists p drawn,
    parseLocationInput random (inputValue s) (randomDrawn s) = (Some p, drawn)
    /\ userLocation (updateUserLocation random s)
       = mkUserLocation (res_lat p) (res_lng p) (res_name p)
    /\ notifications (updateUserLocation random s)
       = Success (successMessage p) :: notifications s
    /\ started (updateUserLocation random s)
       = StartedMap :: StartedRecommendations (res_lat p) (res_lng p)
         :: started s
    /\ randomDrawn (updateUserLocation random s) = drawn
    /\ inputValue (updateUserLocation random s) = inputValue s.
Proof.
  intro Hws.
  destruct (parse_not_blank random (inputValue s) (randomDrawn s) Hws)
    as [p Hp].
  destruct (parseLocationInput random (inputValue s) (randomDrawn s))
    as [o drawn] eqn:E.
  cbn in Hp. subst o. exists p, drawn. split; [reflexivity|].
  unfold updateUserLocation. rewrite trim_eqb_empty, Hws, parse_trim, E.
  cbn. repeat split.
Qed.

Lemma submission_replaces_location_witness :
  exists p drawn,
    parseLocationInput (fun _ => 0%Q) " Station "
      (randomDrawn (mkSession defaultLocation " Station " None [] [] 0))
    = (Some p, drawn)
    /\ userLocation (updateUserLocation (fun _ => 0%Q)
                       (mkSession defaultLocation " Station " None [] [] 0))
       = mkUserLocation (res_lat p) (res_lng p) (res_name p)
    /\ notifications (updateUserLocation (fun _ => 0%Q)
                        (mkSession defaultLocation " Station " None [] [] 0))
       = Success (successMessage p) :: []
    /\ started (updateUserLocation (fun _ => 0%Q)
                  (mkSession defaultLocation " Station " None [] [] 0))
       = StartedMap :: StartedRecommendations (res_lat p) (res_lng p) :: []
    /\ randomDrawn (updateUserLocation (fun _ => 0%Q)
                      (mkSession defaultLocation " Station " None [] [] 0))
       = drawn
    /\ inputValue (updateUserLocation (fun _ => 0%Q)
                     (mkSession defaultLocation " Station " None [] [] 0))
       = " Station ".
Proof.
  apply (submission_replaces_location (fun _ => 0%Q)
           (mkSession defaultLocation " Station " None [] [] 0)).
  reflexivity.
Defined.

End HandlerFacts.

(** ** The geo mapper on the database of the script *)

Module GeoMore.

Import StringFacts GazetteerFacts ParserFacts ParserMore GeoFacts.

Open Scope string_scope.

Lemma database_in_range (key : string) (data : LocationData) :
  In (key, data) locationDatabase ->
  (Qabs (lat data) <= Binary64.pow2 500)%Q
  /\ (Qabs (lng data) <= Binary64.pow2 500)%Q.
Proof.
  intro Hin. apply database_in_bounds, inBounds_spec in Hin.
  assert (T : (20 <= Binary64.pow2 500)%Q) by (vm_compute; discriminate).
  rewrite !Qabs_pos by tauto. split; Lqa.lra.
Qed.

(** On a point whose coordinates are at most 2^500 in absolute value
    the scan of the script's database selects an entry, before which
    every entry has a larger computed distance. *)
Lemma nearest_split_database (la lo : Q) :
  (Qabs la <= Binary64.pow2 500)%Q -> (Qabs lo <= Binary64.pow2 500)%Q ->
  exists before name data after,
    locationDatabase = (before ++ (name, data) :: after)%list
    /\ findNearestLocation locationDatabase la lo = entryOf name data
    /\ (forall n d, In (n, d) before ->
          Binary64.ltb (distanceTo data la lo) (distanceTo d la lo) = true).
Proof.
  intros Hla Hlo.
  destruct (nearest_cases locationDatabase la lo)
    as [(before & name & data & after & H1 & H2 & _ & H3 & _) | [_ H]].
  - exists before, name, data, after. repeat split; assumption.
  - exfalso.
    assert (Hin : In ("downtown plaza", mkLocationData 3.0 3.0 "business")
                     locationDatabase) by now left.
    destruct (database_in_range _ _ Hin) as [R1 R2].
    destruct (distanceTo_finite _ la lo R1 R2 Hla Hlo) as (r & E).
    rewrite (H _ _ Hin) in E. discriminate E.
Qed.

Lemma nearest_in_locationDatabase (la lo : Q) :
  (Qabs la <= Binary64.pow2 500)%Q -> (Qabs lo <= Binary64.pow2 500)%Q ->
  exists name data,
    In (name, data) locationDatabase
    /\ findNearestLocation locationDatabase la lo = entryOf name data.
Proof.
  intros Hla Hlo.
  destruct (nearest_split_database la lo Hla Hlo)
    as (before & name & data & after & H1 & H2 & _).
  exists name, data. split; [|exact H2].
  rewrite H1. apply in_or_app. right. now left.
Qed.

(** On the script's database and a point whose coordinates are at
    most 2^20 in absolute value, the entry returned is the one of least
    Euclidean distance up to the rounding error: its squared distance
    exceeds that of any entry by a factor of at most 1 + 2^-47, up to
    2^-1040, and its distance by the same factor, up to 2^-520. *)
Lemma nearest_almost_euclidean (la lo : Q) :
  (Qabs la <= Binary64.pow2 20)%Q -> (Qabs lo <= Binary64.pow2 20)%Q ->
  exists name data,
    In (name, data) locationDatabase
    /\ findNearestLocation locationDatabase la lo = entryOf name data
    /\ forall n d, In (n, d) locationDatabase ->
         (squaredDistance data la lo
          <= (1 + Binary64.pow2 (-47)) * squaredDistance d la lo
             + Binary64.pow2 (-1040))%Q
         /\ (euclideanDistance data la lo
             <= (1 + Q2R (Binary64.pow2 (-47))) * euclideanDistance d la lo
                + Q2R (Binary64.pow2 (-520)))%R.
Proof.
  intros Hla Hlo.
  assert (T : (Binary64.pow2 20 <= Binary64.pow2 500)%Q)
    by (vm_compute; discriminate).
  assert (Hla' : (Qabs la <= Binary64.pow2 500)%Q) by Lqa.lra.
  assert (Hlo' : (Qabs lo <= Binary64.pow2 500)%Q) by Lqa.lra.
  assert (F : forall n d, In (n, d) locationDatabase ->
                exists r', distanceTo d la lo = Binary64.Finite r').
  { intros n d Hin. destruct (database_in_range n d Hin) as [D1 D2].
    now apply distanceTo_finite. }
  assert (G : forall n d, In (n, d) locationDatabase ->
                (Qabs (lat d - la) <= 20 + Binary64.pow2 20)%Q
                /\ (Qabs (lng d - lo) <= 20 + Binary64.pow2 20)%Q).
  { intros n d Hin. apply database_in_bounds, inBounds_spec in Hin.
    apply Qabs_Qle_condition in Hla. apply Qabs_Qle_condition in Hlo.
    split; apply Qabs_Qle_condition; split; Lqa.lra. }
  destruct (nearest_values locationDatabase la lo)
    as [(before & name & data & after & r & H1 & H2 & E & Hr & _ & _ & L)
       | [_ H]].
  - assert (Hin : In (name, data) locationDatabase).
    { unfold Object_entries in H1. rewrite H1.
      apply in_or_app. right. now left. }
    exists name, data. split; [exact Hin|]. split; [exact H2|].
    intros n d Hd. destruct (F n d Hd) as (r' & E').
    destruct (G n d Hd) as [G1 G2]. destruct (G name data Hin) as [G3 G4].
    pose proof (nearly_nearest data d la lo r r' _ E E' (L n d r' Hd E')
                  G3 G4 G1 G2) as K.
    assert (S : ((20 + Binary64.pow2 20 + 1) * Binary64.pow2 (-1068)
                 <= Binary64.pow2 (-1040))%Q) by (vm_compute; discriminate).
    assert (Q : (squaredDistance data la lo
                 <= (1 + Binary64.pow2 (-47)) * squaredDistance d la lo
                    + Binary64.pow2 (-1040))%Q) by Lqa.lra.
    split; [exact Q|].
    apply euclidean_almost; try (vm_compute; discriminate).
    assert (C : (Binary64.pow2 (-520) * Binary64.pow2 (-520)
                 == Binary64.pow2 (-1040))%Q) by reflexivity.
    Lqa.lra.
  - exfalso.
    assert (Hin : In ("downtown plaza", mkLocationData 3.0 3.0 "business")
                     locationDatabase) by (left; reflexivity).
    destruct (F _ _ Hin) as (r' & E'). rewrite (H _ _ Hin) in E'.
    discriminate E'.
Qed.

Lemma grid_point_in_range (x hi : Q) :
  (0 <= x <= hi)%Q -> (hi <= 20)%Q -> (Qabs x <= Binary64.pow2 500)%Q.
Proof.
  intros H Hhi.
  assert (T : (20 <= Binary64.pow2 500)%Q) by (vm_compute; discriminate).
  rewrite Qabs_pos by tauto. Lqa.lra.
Qed.




Lemma toLocalSpace_in_bounds (latitude longitude : Q) :
  (0 <= fst (toLocalSpace latitude longitude) <= 20)%Q
  /\ (0 <= snd (toLocalSpace latitude longitude) <= 15)%Q.
Proof.
  unfold toLocalSpace. cbn [fst snd].
  destruct (Math_max_min_clamp ((latitude - 40.0) * 20 + 10) 20) as [_ H2];
    [Lqa.lra|].
  destruct (Math_max_min_clamp ((longitude + 74.0) * 15 + 7.5) 15) as [_ H4];
    [Lqa.lra|].
  tauto.
Qed.

(** X6.  The success callback of the GPS request stores the clamped
    point, which lies in the grid, under the name of the nearest entry
    of the database, writes that name into the location box, shows one
    success notification and asks for the recommendations and the map
    again with the clamped point. *)
Theorem gps_fix_stores_clamped_point_and_nearest_name
  (latitude longitude : Q) (s : Session) :
  exists key data clampedLat clampedLng,
    In (key, data) locationDatabase
    /\ toLocalSpace latitude longitude = (clampedLat, clampedLng)
    /\ (0 <= clampedLat <= 20)%Q /\ (0 <= clampedLng <= 15)%Q
    /\ findNearestLocation locationDatabase clampedLat clampedLng
       = entryOf key data
    /\ userLocation (onPosition latitude longitude s)
       = mkUserLocation (Some clampedLat) (Some clampedLng) key
    /\ inputValue (onPosition latitude longitude s) = key
    /\ notifications (onPosition latitude longitude s)
       = Success (GpsDetected key) :: notifications s
    /\ started (onPosition latitude longitude s)
       = StartedMap
         :: StartedRecommendations (Some clampedLat) (Some clampedLng)
         :: started s
    /\ randomDrawn (onPosition latitude longitude s) = randomDrawn s.
Proof.
  pose proof (toLocalSpace_in_bounds latitude longitude) as B.
  unfold onPosition.
  destruct (toLocalSpace latitude longitude) as [clampedLat clampedLng].
  cbn [fst snd] in B.
  destruct (nearest_in_locationDatabase clampedLat clampedLng)
    as (key & data & Hin & E).
  { apply (grid_point_in_range _ 20); [tauto | discriminate]. }
  { apply (grid_point_in_range _ 15); [tauto | discriminate]. }
  exists key, data, clampedLat, clampedLng. rewrite E.
  cbn [userLocation inputValue notifications started randomDrawn
       startDependentUnits LocationHandlers.showSuccess near_name entryOf
       user_lat user_lng].
  repeat split; tauto.
Qed.

(** X7.  After a GPS fix the location box holds the name of the nearest
    entry; submitting the box as it stands replaces the clamped GPS
    point by the coordinates of that entry, with confidence [exact]:
    the stored point moves unless the fix fell on the entry itself. *)
Theorem submitting_after_gps_snaps_to_entry
  (random : RandomSource) (latitude longitude : Q) (s : Session) :
  exists key data,
    In (key, data) locationDatabase
    /\ findNearestLocation locationDatabase
         (fst (toLocalSpace latitude longitude))
         (snd (toLocalSpace latitude longitude))
       = entryOf key data
    /\ userLocation (updateUserLocation random
                       (onPosition latitude longitude s))
       = mkUserLocation (Some (lat data)) (Some (lng data)) key
    /\ notifications (updateUserLocation random
                        (onPosition latitude longitude s))
       = Success LocationUpdated :: Success (GpsDetected key)
         :: notifications s
    /\ randomDrawn (updateUserLocation random
                      (onPosition latitude longitude s))
       = randomDrawn s.
Proof.
  pose proof (toLocalSpace_in_bounds latitude longitude) as B.
  unfold onPosition.
  destruct (toLocalSpace latitude longitude) as [clampedLat clampedLng].
  cbn [fst snd] in B |- *.
  destruct (nearest_in_locationDatabase clampedLat clampedLng)
    as (key & data & Hin & E).
  { apply (grid_point_in_range _ 20); [tauto | discriminate]. }
  { apply (grid_point_in_range _ 15); [tauto | discriminate]. }
  exists key, data. rewrite E. split; [exact Hin|]. split; [reflexivity|].
  assert (Hne : allWhiteSpace key = false).
  { destruct (allWhiteSpace key) eqn:W; [|reflexivity].
    pose proof (parse_blank random key 0 W) as K.
    rewrite (parse_key random 0 key data Hin) in K. discriminate K. }
  unfold updateUserLocation. cbn [inputValue startDependentUnits
    LocationHandlers.showSuccess near_name entryOf randomDrawn].
  rewrite trim_eqb_empty, Hne, parse_trim, (parse_key random _ key data Hin).
  cbn. repeat split.
Qed.

(** The fix moves: the script's database has an entry at (10, 7.5) only
    under "central", and a fix clamped to (10, 7) is nearest to it. *)
Example gps_point_moves_on_submit :
  let s := mkSession defaultLocation "" None [] [] 0 in
  let latitude := 40.0%Q in
  let longitude := (-74.0 - (1 # 30))%Q in
  (exists q, user_lng (userLocation (onPosition latitude longitude s))
             = Some q /\ (q == 7)%Q)
  /\ user_name (userLocation (onPosition latitude longitude s)) = "central"
  /\ user_lng (userLocation (updateUserLocation (fun _ => 0%Q)
                               (onPosition latitude longitude s)))
     = Some 7.5%Q.
Proof.
  cbv zeta. split; [eexists; split; reflexivity|].
  split; reflexivity.
Qed.

(** X9.  The conversion of a GPS fix is monotone in each coordinate,
    and it is affine only within half a degree of the reference point
    (40.0, -74.0): every fix at or beyond 40.5 degrees of latitude lands
    on the upper border 20, every fix at or below 39.5 on the border 0,
    and likewise for the longitude at -73.5 and -74.5. *)
Theorem toLocalSpace_monotone_and_saturating
  (lat1 lat2 lng1 lng2 : Q) :
  (lat1 <= lat2)%Q -> (lng1 <= lng2)%Q ->
  (fst (toLocalSpace lat1 lng1) <= fst (toLocalSpace lat2 lng2))%Q
  /\ (snd (toLocalSpace lat1 lng1) <= snd (toLocalSpace lat2 lng2))%Q
  /\ (40.5 <= lat2 -> fst (toLocalSpace lat2 lng2) == 20)%Q
  /\ (lat1 <= 39.5 -> fst (toLocalSpace lat1 lng1) == 0)%Q
  /\ (-73.5 <= lng2 -> snd (toLocalSpace lat2 lng2) == 15)%Q
  /\ (lng1 <= -74.5 -> snd (toLocalSpace lat1 lng1) == 0)%Q
  /\ (39.5 <= lat1 <= 40.5 ->
      fst (toLocalSpace lat1 lng1) == (lat1 - 40) * 20 + 10)%Q
  /\ (-74.5 <= lng1 <= -73.5 ->
      snd (toLocalSpace lat1 lng1) == (lng1 + 74) * 15 + 7.5)%Q.
Proof.
  intros Hlat Hlng. unfold toLocalSpace. cbn [fst snd].
  unfold Math_min. by_cases_Qle; unfold Math_max; by_cases_Qle;
    repeat split; intros; Lqa.lra.
Qed.

Lemma toLocalSpace_monotone_and_saturating_witness :
  (fst (toLocalSpace 39.9 (-74.2)) <= fst (toLocalSpace 41.0 (-70.0)))%Q
  /\ (snd (toLocalSpace 39.9 (-74.2)) <= snd (toLocalSpace 41.0 (-70.0)))%Q.
Proof.
  destruct (toLocalSpace_monotone_and_saturating 39.9 41.0 (-74.2) (-70.0))
    as (H1 & H2 & _).
  - discriminate.
  - discriminate.
  - split; [exact H1 | exact H2].
Defined.

End GeoMore.

(** ** The timer under page events *)

Module TimerMore.

Import UpdateTimer TimerDiscipline.

Lemma filter_fresh (h : nat) (l : list nat) :
  ~ In h l -> filter (fun h' => negb (h' =? h)%nat) l = l.
Proof.
  induction l as [|a l IH]; [reflexivity|]. intro H. cbn [filter].
  destruct (a =? h)%nat eqn:E.
  - apply Nat.eqb_eq in E. exfalso. apply H. now left.
  - cbn [negb]. rewrite IH; [reflexivity|]. intro K. apply H. now right.
Qed.

Lemma hostInvariant_start (t : Timers) :
  hostInvariant t -> hostInvariant (startRealTimeUpdates t).
Proof.
  intros (H1 & H2 & H3). unfold hostInvariant. cbn. repeat split.
  - lia.
  - destruct H as [<-|H]; [lia | apply H2, H].
  - destruct H as [<-|H]; [lia | apply H2 in H; lia].
  - constructor; [|exact H3]. intro K. apply H2 in K. lia.
Qed.

Lemma hostInvariant_stop (t : Timers) :
  hostInvariant t -> hostInvariant (stopRealTimeUpdates t).
Proof.
  intros (H1 & H2 & H3). unfold stopRealTimeUpdates.
  destruct (updateInterval t) as [h|]; [|exact (conj H1 (conj H2 H3))].
  destruct (negb (h =? 0)%nat); [|exact (conj H1 (conj H2 H3))].
  unfold hostInvariant. cbn. repeat split; try assumption.
  - apply filter_In in H. apply H2, H.
  - apply filter_In in H. apply H2, H.
  - now apply NoDup_filter.
Qed.

(** X10.  [stopRealTimeUpdates] leaves no handle in [updateInterval]
    (a positive handle is cleared and forgotten), never arms anything,
    and doing it twice is the same as doing it once. *)
Theorem stop_clears_and_is_idempotent (t : Timers) :
  hostInvariant t ->
  (forall h, updateInterval t = Some h -> In h (activeIntervals t)) ->
  updateInterval (stopRealTimeUpdates t) = None
  /\ (forall h, updateInterval t = Some h ->
                ~ In h (activeIntervals (stopRealTimeUpdates t)))
  /\ (forall h, In h (activeIntervals (stopRealTimeUpdates t)) ->
                In h (activeIntervals t))
  /\ stopRealTimeUpdates (stopRealTimeUpdates t) = stopRealTimeUpdates t
  /\ nextHandle (stopRealTimeUpdates t) = nextHandle t.
Proof.
  intros (H1 & H2 & H3) Hcur. unfold stopRealTimeUpdates.
  destruct (updateInterval t) as [h|] eqn:E.
  - assert (Hpos : negb (h =? 0)%nat = true).
    { apply negb_true_iff, Nat.eqb_neq.
      specialize (H2 h (Hcur h eq_refl)). lia. }
    rewrite Hpos. cbn. repeat split.
    + intros h' [= <-] K. apply filter_In in K. destruct K as [_ K].
      now rewrite Nat.eqb_refl in K.
    + intros h' K. now apply filter_In in K.
  - rewrite E. repeat split; try discriminate. auto.
Qed.

Lemma stop_clears_and_is_idempotent_witness :
  updateInterval (stopRealTimeUpdates (startRealTimeUpdates initialTimers))
  = None
  /\ stopRealTimeUpdates
       (stopRealTimeUpdates (startRealTimeUpdates initialTimers))
     = stopRealTimeUpdates (startRealTimeUpdates initialTimers).
Proof.
  destruct (stop_clears_and_is_idempotent (startRealTimeUpdates initialTimers))
    as (H1 & _ & _ & H2 & _).
  - unfold hostInvariant. cbn. repeat split.
    + lia.
    + destruct H as [<-|[]]. lia.
    + destruct H as [<-|[]]. lia.
    + repeat constructor. intros [].
  - cbn. intros h [= <-]. now left.
  - split; [exact H1 | exact H2].
Defined.

(** X11.  A start followed by a stop is a round trip for the host: the
    timers armed afterwards are those armed before, and no handle is
    held.  A timer that was referenced before the start is armed still,
    and no longer referenced. *)
Theorem start_then_stop_restores_timers (t : Timers) :
  hostInvariant t ->
  activeIntervals (stopRealTimeUpdates (startRealTimeUpdates t))
  = activeIntervals t
  /\ updateInterval (stopRealTimeUpdates (startRealTimeUpdates t)) = None
  /\ (forall h, updateInterval t = Some h -> In h (activeIntervals t) ->
                orphaned h (stopRealTimeUpdates (startRealTimeUpdates t))).
Proof.
  intros (H1 & H2 & H3). unfold stopRealTimeUpdates, startRealTimeUpdates.
  cbn. destruct (nextHandle t) as [|n] eqn:E; [lia|]. cbn.
  rewrite Nat.eqb_refl. cbn.
  assert (F : filter (fun h' => negb (h' =? S n)%nat) (activeIntervals t)
              = activeIntervals t).
  { apply filter_fresh. intro K. apply H2 in K. lia. }
  rewrite F. repeat split.
  - exact H0.
  - discriminate.
Qed.

Lemma start_then_stop_restores_timers_witness :
  activeIntervals
    (stopRealTimeUpdates
       (startRealTimeUpdates (startRealTimeUpdates initialTimers)))
  = activeIntervals (startRealTimeUpdates initialTimers).
Proof.
  destruct (start_then_stop_restores_timers
              (startRealTimeUpdates initialTimers)) as (H1 & _).
  - apply hostInvariant_start. unfold hostInvariant. cbn.
    repeat split; try lia; try (intros []). constructor.
  - exact H1.
Defined.

Lemma hostInvariant_handle (e : PageEvent) (t : Timers) :
  hostInvariant t -> hostInvariant (handle e t).
Proof.
  intro H. destruct e as [|[|]|]; cbn [handle].
  - apply hostInvariant_start in H. exact H.
  - now apply hostInvariant_stop.
  - apply hostInvariant_start in H. exact H.
  - now apply hostInvariant_stop.
Qed.

Lemma orphaned_handle (e : PageEvent) (h : nat) (t : Timers) :
  hostInvariant t -> orphaned h t -> orphaned h (handle e t).
Proof.
  intros (H1 & H2 & H3) [Hin Hne].
  assert (Hstart : orphaned h (startRealTimeUpdates t)).
  { split; cbn; [now right|]. intros [= K]. apply H2 in Hin. lia. }
  assert (Hstop : orphaned h (stopRealTimeUpdates t)).
  { unfold stopRealTimeUpdates.
    destruct (updateInterval t) as [c|] eqn:E; [|now split; [|rewrite E]].
    destruct (negb (c =? 0)%nat); [|now split; [|rewrite E]].
    split; cbn; [|discriminate].
    apply filter_In. split; [exact Hin|].
    apply negb_true_iff, Nat.eqb_neq. intros ->. now apply Hne. }
  destruct e as [|[|]|]; cbn [handle]; try assumption;
    destruct Hstart as [A B]; split; assumption.
Qed.

(** X12.  A timer that is armed while [updateInterval] holds another
    handle, or none, stays armed whatever events follow: no handler of
    the page can clear it any more. *)
Theorem orphaned_timer_is_never_cleared
  (events : list PageEvent) (h : nat) (t : Timers) :
  hostInvariant t -> orphaned h t ->
  orphaned h (run events t) /\ hostInvariant (run events t).
Proof.
  revert t. induction events as [|e rest IH]; intros t Hinv Ho;
    [now split|].
  unfold run in *. cbn [fold_left].
  apply IH; [now apply hostInvariant_handle | now apply orphaned_handle].
Qed.

Lemma orphaned_timer_is_never_cleared_witness :
  orphaned 1
    (run [VisibilityChange true; VisibilityChange false; BeforeUnload]
         (run [DOMContentLoaded; VisibilityChange false] initialTimers)).
Proof.
  apply (orphaned_timer_is_never_cleared
           [VisibilityChange true; VisibilityChange false; BeforeUnload] 1
           (run [DOMContentLoaded; VisibilityChange false] initialTimers)).
  - unfold hostInvariant. cbn. repeat split; try lia.
    repeat constructor; cbn; intuition lia.
  - split; cbn; [tauto | discriminate].
Defined.

Lemma run_disciplined (events : list PageEvent) :
  forall (running : bool) (t : Timers),
    tidy t ->
    (running = true <-> updateInterval t <> None) ->
    disciplined running events = true ->
    tidy (run events t).
Proof.
  induction events as [|e rest IH]; intros running t Ht Hr Hd; [exact Ht|].
  unfold run in *. cbn [fold_left]. cbn [disciplined] in Hd.
  destruct (starts e) eqn:S.
  - apply andb_true_iff in Hd. destruct Hd as [Hn Hd].
    apply negb_true_iff in Hn. subst running.
    assert (E : updateInterval t = None).
    { destruct (updateInterval t); [|reflexivity].
      assert (K : false = true) by (apply Hr; discriminate). discriminate K. }
    destruct Ht as [H1 H2]. rewrite E in H2.
    apply (IH true); [| |exact Hd].
    + destruct e as [|[|]|]; try discriminate S; cbn; unfold tidy; cbn;
        rewrite H2; (split; [lia | split; [reflexivity | lia]]).
    + destruct e as [|[|]|]; try discriminate S; cbn;
        (split; [discriminate | reflexivity]).
  - assert (Hs : handle e t = stopRealTimeUpdates t)
      by (destruct e as [|[|]|]; try discriminate S; reflexivity).
    rewrite Hs. destruct Ht as [H1 H2].
    assert (T : tidy (stopRealTimeUpdates t)
                /\ updateInterval (stopRealTimeUpdates t) = None).
    { unfold stopRealTimeUpdates.
      destruct (updateInterval t) as [h|] eqn:E.
      - destruct H2 as [A B].
        replace (negb (h =? 0)%nat) with true
          by (symmetry; apply negb_true_iff, Nat.eqb_neq; lia).
        unfold tidy. cbn. rewrite A. cbn. rewrite Nat.eqb_refl. cbn.
        repeat split; assumption.
      - unfold tidy. rewrite E. repeat split; assumption. }
    destruct T as [T1 T2].
    apply (IH false); [exact T1 | | exact Hd].
    rewrite T2. split; [discriminate | intro K; now contradiction K].
Qed.

(** X13.  As long as no event starts the timer while it runs (the page
    is loaded visible, then hidden and shown in turn, and at last
    unloaded), at most one timer is armed at any time, and it is the one
    whose handle [updateInterval] holds. *)
Theorem disciplined_events_keep_one_timer (events : list PageEvent) :
  disciplined false events = true ->
  List.length (activeIntervals (run events initialTimers)) <= 1
  /\ match updateInterval (run events initialTimers) with
     | Some h => activeIntervals (run events initialTimers) = [h]
     | None => activeIntervals (run events initialTimers) = []
     end.
Proof.
  intro Hd.
  assert (T : tidy (run events initialTimers)).
  { apply (run_disciplined events false); [| |exact Hd].
    - unfold tidy. cbn. split; [lia | reflexivity].
    - cbn. split; [discriminate | intro K; now contradiction K]. }
  destruct T as [_ T].
  destruct (updateInterval (run events initialTimers)) as [h|].
  - destruct T as [-> _]. cbn. split; [lia | reflexivity].
  - rewrite T. cbn. split; [lia | reflexivity].
Qed.

Lemma disciplined_events_keep_one_timer_witness :
  List.length
    (activeIntervals
       (run [DOMContentLoaded; VisibilityChange true; VisibilityChange false;
             VisibilityChange true; VisibilityChange false]
            initialTimers)) <= 1.
Proof.
  destruct (disciplined_events_keep_one_timer
              [DOMContentLoaded; VisibilityChange true; VisibilityChange false;
               VisibilityChange true; VisibilityChange false])
    as [H _].
  - reflexivity.
  - exact H.
Defined.

End TimerMore.

(** ** What a refresh leaves on the page *)

Module RefreshMore.

Import Refresh RefreshOutcome RefreshFacts.

Open Scope string_scope.

Section WithNetwork.

Variable network : Network.

Ltac settle s :=
  eexists; split; [reflexivity|]; cbn;
  repeat split;
  try (intros s' Hs'; try rewrite (Section_eqb_neq s' s Hs'); reflexivity).

Ltac outcomes url s :=
  destruct (network url) as [|[[|] [[e [|] c]|]]];
  cbn -[String.eqb]; settle s.

Ltac open_settled :=
  unfold try_catch, bind, fetch, json, settledView, fails, failureView,
    succeeds, renderInPlace, renderCards, renderMap, locationDefined,
    urlOf, readUserLocation.

Lemma updateSystemStats_settles :
  settles network (updateSystemStats network) SystemStats.
Proof.
  intro p. unfold updateSystemStats. open_settled.
  outcomes ApiSystemStats SystemStats.
Qed.

Lemma updateParkingLots_settles :
  settles network (updateParkingLots network) ParkingLots.
Proof.
  intro p. unfold updateParkingLots. open_settled.
  outcomes ApiParkingStatus ParkingLots.
Qed.

Lemma updateRecommendations_settles :
  settles network (updateRecommendations network) Recommendations.
Proof.
  intro p. unfold updateRecommendations. open_settled. cbn [fst snd].
  outcomes (ApiRecommendations (userLat p) (userLng p)) Recommendations.
Qed.

Lemma updateJunctions_settles :
  settles network (updateJunctions network) Junctions.
Proof.
  intro p. unfold updateJunctions. open_settled.
  outcomes ApiJunctionStatus Junctions.
Qed.

Lemma updatePredictions_settles :
  settles network (updatePredictions network) Predictions.
Proof.
  intro p. unfold updatePredictions. open_settled.
  outcomes ApiPredictions Predictions.
Qed.

Lemma updateMap_settles :
  settles network (updateMap network) Map.
Proof.
  intro p. unfold updateMap. open_settled. cbn [fst snd].
  destruct (network ApiMapData) as [|[[|] [[e [|] c]|]]];
    cbn -[String.eqb];
    destruct (userLat p) as [la|] eqn:Ela;
    destruct (userLng p) as [lo|] eqn:Elo;
    cbn -[String.eqb]; settle Map; assumption.
Qed.

Lemma refreshPlan_settles :
  Forall (fun us => settles network (fst us) (snd us)) (refreshPlan network).
Proof.
  unfold refreshPlan. repeat constructor; cbn [fst snd].
  - apply updateSystemStats_settles.
  - apply updateParkingLots_settles.
  - apply updateRecommendations_settles.
  - apply updateJunctions_settles.
  - apply updatePredictions_settles.
  - apply updateMap_settles.
Qed.

(** What a unit leaves in its section depends on the page through that
    section and the user location only. *)
Lemma settledView_same (s : Section) (p q : Page) :
  userLat q = userLat p -> userLng q = userLng p -> view q s = view p s ->
  settledView network q s = settledView network p s.
Proof.
  intros H1 H2 H3. unfold settledView.
  rewrite (succeeds_same_location network s p q H1 H2). now rewrite H3.
Qed.

Lemma fails_same (s : Section) (p q : Page) :
  userLat q = userLat p -> userLng q = userLng p ->
  fails network q s = fails network p s.
Proof.
  intros H1 H2. unfold fails.
  now rewrite (succeeds_same_location network s p q H1 H2).
Qed.

Lemma failures_same (sections : list Section) (p q : Page) :
  userLat q = userLat p -> userLng q = userLng p ->
  failures network q sections = failures network p sections.
Proof.
  intros H1 H2. unfold failures. f_equal. apply filter_ext.
  intro s. now apply fails_same.
Qed.

Lemma Promise_all_settles (plan : list (Eff unit * Section)) :
  NoDup (map snd plan) ->
  Forall (fun us => settles network (fst us) (snd us)) plan ->
  forall p, exists p',
    Promise_all (map fst plan) p = (p', Normal tt)
    /\ lastUpdated p' = lastUpdated p
    /\ alerts p' = alerts p
    /\ userLat p' = userLat p
    /\ userLng p' = userLng p
    /\ (forall s, ~ In s (map snd plan) -> view p' s = view p s)
    /\ (forall s, In s (map snd plan) ->
                  view p' s = settledView network p s)
    /\ List.length (consoleErrors p')
       = (failures network p (map snd plan)
          + List.length (consoleErrors p))%nat.
Proof.
  induction plan as [|[u s0] rest IH]; intros Hnd Hall p.
  - exists p. cbn. repeat split; try reflexivity. intros s [].
  - cbn [map fst snd] in *. inversion Hnd as [|? ? Hnotin Hnd']; subst.
    inversion Hall as [|? ? Hu Hrest]; subst. cbn [fst snd] in Hu.
    destruct (Hu p) as (p1 & E1 & L1 & A1 & U1 & V1 & O1 & R1 & C1).
    destruct (IH Hnd' Hrest p1)
      as (p2 & E2 & L2 & A2 & U2 & V2 & O2 & R2 & C2).
    exists p2. cbn [Promise_all]. rewrite E1, E2.
    repeat split; try congruence.
    + intros s Hs. rewrite O2 by (intro K; apply Hs; now right).
      apply O1. intro K. apply Hs. now left.
    + intros s [<-|Hin].
      * rewrite (O2 s0 Hnotin). exact R1.
      * rewrite (R2 s Hin). apply settledView_same; [exact U1 | exact V1 |].
        apply O1. intros ->. now apply Hnotin.
    + rewrite C2, C1, (failures_same (map snd rest) p p1 U1 V1).
      unfold failures. cbn [filter].
      destruct (fails network p s0); cbn [List.length]; lia.
Qed.

(** The whole refresh, in one statement. *)
Lemma refreshData_outcome (now : nat) (p : Page) :
  exists p',
    refreshData network now p = (p', Normal tt)
    /\ lastUpdated p' = Some now
    /\ alerts p' = alerts p
    /\ userLat p' = userLat p
    /\ userLng p' = userLng p
    /\ (forall s, view p' s = settledView network p s)
    /\ List.length (consoleErrors p')
       = (failures network p allSections + List.length (consoleErrors p))%nat.
Proof.
  destruct (refreshPlan_sections network) as [Hnd Hall].
  destruct (Promise_all_settles (refreshPlan network) Hnd
              refreshPlan_settles p)
    as (p1 & E & L & A & U & V & O & R & C).
  rewrite refreshPlan_units in E.
  eexists. unfold refreshData, try_catch, bind. rewrite E.
  split; [reflexivity|]. cbn. repeat split; try assumption.
  intro s. apply R, Hall.
Qed.

Lemma failureView_idempotent (s : Section) (v : View) :
  failureView s (failureView s v) = failureView s v.
Proof. destruct s; reflexivity. Qed.

(** X14.  After [refreshData] every section shows the data of its feed
    when the feed succeeds; when it fails, the parking lots, the
    recommendations, the junctions and the map show their own error
    text, while the statistics and the chart keep what they showed
    before.  One console error is logged for each failing feed, and
    none for the others. *)
Theorem refresh_settles_every_section (now : nat) (p : Page) :
  (forall s, view (fst (refreshData network now p)) s
             = match succeeds network s p with
               | Some data => Rendered data
               | None => failureView s (view p s)
               end)
  /\ List.length (consoleErrors (fst (refreshData network now p)))
     = (List.length (filter (fails network p) allSections)
        + List.length (consoleErrors p))%nat.
Proof.
  destruct (refreshData_outcome now p) as (p' & E & _ & _ & _ & _ & R & C).
  rewrite E. cbn [fst]. split; [exact R | exact C].
Qed.

(** X15.  A second refresh against the same answers changes no section
    and raises no alert: it only moves the timestamp and logs the same
    number of console errors again.  In particular a section that shows
    stale data after a failure goes on showing them. *)
Theorem second_refresh_changes_no_section (now later : nat) (p : Page) :
  let p1 := fst (refreshData network now p) in
  let p2 := fst (refreshData network later p1) in
  (forall s, view p2 s = view p1 s)
  /\ alerts p2 = alerts p
  /\ lastUpdated p2 = Some later
  /\ List.length (consoleErrors p2)
     = (2 * failures network p allSections
        + List.length (consoleErrors p))%nat.
Proof.
  cbv zeta.
  destruct (refreshData_outcome now p)
    as (p1 & E1 & L1 & A1 & U1 & V1 & R1 & C1).
  rewrite E1. cbn [fst].
  destruct (refreshData_outcome later p1)
    as (p2 & E2 & L2 & A2 & U2 & V2 & R2 & C2).
  rewrite E2. cbn [fst]. repeat split.
  - intro s. rewrite R2, R1. unfold settledView.
    rewrite (succeeds_same_location network s p p1 U1 V1).
    destruct (succeeds network s p) eqn:S; [reflexivity|].
    rewrite R1. unfold settledView. rewrite S.
    apply failureView_idempotent.
  - congruence.
  - exact L2.
  - rewrite C2, C1, (failures_same allSections p p1 U1 V1). lia.
Qed.

End WithNetwork.

End RefreshMore.

(** ** Simulated parking *)

Module ParkingFacts.

Import Refresh Parking.

Open Scope string_scope.

(** X16.  [simulateParking] never throws and shows exactly one
    notification, whatever the request meets.  The notification is a
    success exactly when the response is [ok] and its body is a value
    other than [null] that says [success]; the refresh is scheduled,
    once and after one second, exactly when the body could be parsed to
    a value other than [null], be the parking accepted or refused.
    When the request fails, the body does not parse or the body is
    [null], the failure is logged, no refresh is scheduled and the
    notification is the fixed error text. *)
Theorem simulateParking_notifies_once (answer : ParkFetch) (p : ParkPage) :
  exists notice,
    snd (simulateParking answer p) = Normal tt
    /\ notices (fst (simulateParking answer p)) = notice :: notices p
    /\ ((exists message, notice = ParkSuccess message)
        <-> exists r message,
              answer = ParkResponded r
              /\ park_body r = Some (ParkValue true message)
              /\ park_ok r = true)
    /\ ((exists r success message,
            answer = ParkResponded r
            /\ park_body r = Some (ParkValue success message))
        -> refreshTimeouts (fst (simulateParking answer p))
           = 1000 :: refreshTimeouts p
           /\ parkConsole (fst (simulateParking answer p)) = parkConsole p)
    /\ ((forall r success message,
            answer = ParkResponded r ->
            park_body r <> Some (ParkValue success message))
        -> refreshTimeouts (fst (simulateParking answer p))
           = refreshTimeouts p
           /\ List.length (parkConsole (fst (simulateParking answer p)))
              = S (List.length (parkConsole p))
           /\ notice = ParkError "Failed to simulate parking").
Proof.
  unfold simulateParking, park_try, park_bind, park_fetch, park_json,
    park_success, park_message.
  destruct answer as [|[okay [[|success message]|]]]; cbn [park_body park_ok].
  - eexists. cbn. repeat split; try reflexivity.
    + intros [m K]. discriminate K.
    + intros (r & m & K & _). discriminate K.
    + destruct H as (r & b & m & K & _). discriminate K.
    + destruct H as (r & b & m & K & _). discriminate K.
  - destruct okay; cbn; eexists;
      (split; [reflexivity|]); (split; [reflexivity|]);
      (split; [split|split]).
    all: try (intros [m K]; discriminate K).
    all: try (intros (r & m & K1 & K2 & _); injection K1 as <-;
              discriminate K2).
    all: try (intros (r & b & m & K1 & K2); injection K1 as <-;
              discriminate K2).
    all: intros _; repeat split; reflexivity.
  - destruct okay, success; cbn -[String.eqb]; eexists;
      (split; [reflexivity|]); (split; [reflexivity|]);
      (split; [split|split]).
    all: try (intros _; eexists; eexists; repeat split; reflexivity).
    all: try (intros [m K]; discriminate K).
    all: try (intros (r & m & K1 & K2 & K3); injection K1 as <-;
              cbn in K2, K3; discriminate).
    all: try (intros _; split; reflexivity).
    all: intro K; exfalso; exact (K _ _ _ eq_refl eq_refl).
  - eexists. cbn. repeat split; try reflexivity.
    + intros [m K]. discriminate K.
    + intros (r & m & K1 & K2 & _). injection K1 as <-. discriminate K2.
    + destruct H as (r & b & m & K1 & K2). injection K1 as <-.
      discriminate K2.
    + destruct H as (r & b & m & K1 & K2). injection K1 as <-.
      discriminate K2.
Qed.

(** A refused parking with an empty message shows the fallback text,
    and the refresh is scheduled all the same. *)
Example refused_parking_still_refreshes :
  let answer :=
    ParkResponded (mkParkResponse false (Some (ParkValue false (Some "")))) in
  simulateParking answer (mkParkPage [] [] [])
  = (mkParkPage [ParkError "Failed to park vehicle"] [1000] [], Normal tt).
Proof. reflexivity. Qed.

(** The body [null]: it is read, the first property access throws, and
    the request ends like one that failed, without a refresh. *)
Example null_body_is_a_failure :
  forall okay,
    simulateParking (ParkResponded (mkParkResponse okay (Some ParkNull)))
                    (mkParkPage [] [] [])
    = (mkParkPage [ParkError "Failed to simulate parking"] []
                  [RenderTypeError], Normal tt).
Proof. intros []; reflexivity. Qed.

End ParkingFacts.

(** ** Colours of the statistics and of the chart *)

Module PresentationFacts.

Import Presentation.

Open Scope string_scope.

Lemma greaterThan_spec (a b : Q) : greaterThan a b = true <-> (b < a)%Q.
Proof.
  unfold greaterThan. rewrite negb_true_iff. split.
  - intro H. apply Qnot_le_lt. intro K. apply Qle_bool_iff in K. congruence.
  - intro H. destruct (Qle_bool a b) eqn:E; [|reflexivity].
    apply Qle_bool_iff in E. exfalso. exact (Qlt_not_le _ _ H E).
Qed.

Lemma greaterThan_false (a b : Q) : greaterThan a b = false <-> (a <= b)%Q.
Proof.
  unfold greaterThan. rewrite negb_false_iff. apply Qle_bool_iff.
Qed.

Ltac by_thresholds :=
  repeat match goal with
    | |- context [greaterThan ?a ?b] =>
        let E := fresh "E" in
        destruct (greaterThan a b) eqn:E;
        [apply greaterThan_spec in E | apply greaterThan_false in E]
    end.

(** X17.  [updateSystemStats] shows the parking alert exactly when
    slots are available, and a shown alert always carries the count
    just received.  When none is available the alert is hidden, the
    figure is red, and the class and the count of the alert stay what
    they were: the hidden alert keeps the text of the last time slots
    were available.  Writing the same number twice changes nothing. *)
Theorem alert_shown_iff_slots_available (total_available : Q) (v : StatsView) :
  (alertDisplay (updateAvailability total_available v) = "block"
   <-> (0 < total_available)%Q)
  /\ (alertDisplay (updateAvailability total_available v) = "none"
      <-> (total_available <= 0)%Q)
  /\ (alertDisplay (updateAvailability total_available v) = "block" ->
      availableCount (updateAvailability total_available v)
      = Some total_available)
  /\ (alertDisplay (updateAvailability total_available v) = "none" ->
      availableCount (updateAvailability total_available v) = availableCount v
      /\ alertClass (updateAvailability total_available v) = alertClass v
      /\ availableColor (updateAvailability total_available v) = "#dc3545")
  /\ updateAvailability total_available
       (updateAvailability total_available v)
     = updateAvailability total_available v.
Proof.
  unfold updateAvailability. by_thresholds;
    cbn [alertDisplay availableCount alertClass availableColor];
    try (exfalso; Lqa.lra);
    repeat split; try reflexivity; try discriminate; try assumption;
    try (intros _; assumption); try (intros; exfalso; Lqa.lra).
Qed.

Lemma datasetsFrom_nth (entries : list (string * (Q * (Q * Q * Q)))) :
  forall (index n : nat) (d : Dataset),
    nth_error (datasetsFrom index entries) n = Some d ->
    exists lotName current p1 p2 p3,
      nth_error entries n = Some (lotName, (current, (p1, p2, p3)))
      /\ d = dataset lotName current p1 p2 p3 (index + n).
Proof.
  induction entries as [|[lotName [current [[p1 p2] p3]]] rest IH];
    intros index n d H.
  - destruct n; discriminate H.
  - destruct n as [|n]; cbn [datasetsFrom nth_error] in *.
    + injection H as <-. exists lotName, current, p1, p2, p3.
      rewrite Nat.add_0_r. split; reflexivity.
    + destruct (IH (S index) n d H) as (l & c & q1 & q2 & q3 & E1 & E2).
      exists l, c, q1, q2, q3. split; [exact E1|].
      rewrite E2. f_equal. lia.
Qed.

Lemma colors_defined (k : nat) :
  (k < 5)%nat -> exists c, nth_error colors k = Some c /\ In c colors.
Proof.
  intro H. destruct k as [|[|[|[|[|k]]]]]; [| | | | |lia];
    eexists; (split; [reflexivity|]); cbn; tauto.
Qed.

(** X18.  The chart of [updatePredictions] has one dataset per lot, in
    the order of the answer and under the name of the lot.  The colour
    of a dataset is always one of the five of the palette, never
    undefined, its background is that colour followed by "20", and the
    palette is reused from the sixth lot on: two lots five places apart
    are drawn in the same colour. *)
Theorem dataset_colours_cycle
  (entries : list (string * (Q * (Q * Q * Q)))) (n : nat) :
  List.length (datasets entries) = List.length entries
  /\ forall d, nth_error (datasets entries) n = Some d ->
       option_map fst (nth_error entries n) = Some (label d)
       /\ (exists c, In c colors
                     /\ nth_error colors (n mod 5) = Some c
                     /\ borderColor d = Some c
                     /\ backgroundColor d = c ++ "20")
       /\ forall d', nth_error (datasets entries) (n + 5) = Some d' ->
             borderColor d' = borderColor d
             /\ backgroundColor d' = backgroundColor d.
Proof.
  split.
  - unfold datasets. generalize 0%nat.
    induction entries as [|[lotName [current [[p1 p2] p3]]] rest IH];
      intro index; [reflexivity|].
    cbn [datasetsFrom List.length]. now rewrite IH.
  - intros d H. unfold datasets in *.
    destruct (datasetsFrom_nth entries 0 n d H)
      as (l & c & q1 & q2 & q3 & E1 & E2).
    cbn [Nat.add] in E2. subst d. rewrite E1.
    split; [reflexivity|].
    assert (L : List.length colors = 5%nat) by reflexivity.
    destruct (colors_defined (n mod 5)) as (col & Hc & Hin);
      [apply Nat.mod_upper_bound; discriminate|].
    split.
    + exists col. unfold dataset. cbv zeta.
      cbn [borderColor backgroundColor]. rewrite L, Hc.
      repeat split; assumption.
    + intros d' H'.
      destruct (datasetsFrom_nth entries 0 (n + 5) d' H')
        as (l' & c' & r1 & r2 & r3 & _ & E3).
      cbn [Nat.add] in E3. subst d'. unfold dataset. cbv zeta.
      cbn [borderColor backgroundColor]. rewrite L.
      replace ((n + 5) mod 5)%nat with (n mod 5)%nat
        by (symmetry; apply (Nat.Div0.mod_add n 1 5)).
      split; reflexivity.
Qed.

End PresentationFacts.
